(** * MiniBit: a shallow embedding of the peer's block store, scheduler,
    choke controller and serve path, with the properties of the
    specification settled against it.

    Python integers are unbounded and are modelled by [Z]; Python [set] and
    [dict] objects by stdpp's [gset] and [gmap]; [bytes] by lists of bytes;
    wall-clock readings ([time.time()]) and rates by the rationals [Q]
    they denote, with one reading of the clock per call; the tit-for-tat
    scores, which are compared with each other, are computed with the
    rounding of floats.  Random draws are an explicit argument of the
    function that draws.  The file system is part of the
    state of the code that writes it.  Each module headed by a source path
    embeds that file and keeps its names; the modules after them hold the
    vocabulary and the sample data of the statements. *)

From Stdlib Require Import ZArith QArith Lia.
From Stdlib.Strings Require Import Byte.
From stdpp Require Import gmap strings list fin_maps sorting pretty.
From Equations Require Import Equations.
From Equations.Prop Require Import Logic.

Close Scope Q_scope.
Local Open Scope Z_scope.

(** Block contents: Python [bytes]. *)
Abbreviation bytes := (list Byte.byte).

(** Truthiness of a [bytes] value: [b''] is falsy. *)
Definition bytes_truthy (d : bytes) : bool :=
  match d with [] => false | _ => true end.

(** Truthiness of an [Optional[str]]: [None] and the empty string are falsy. *)
Definition str_truthy (s : option string) : bool :=
  match s with
  | Some EmptyString | None => false
  | Some _ => true
  end.

(** A packed bit vector: Python [bytes]/[bytearray] whose items are read
    as integers in [range(256)]. *)
Abbreviation bitfield := (list Z) (only parsing).


(** The mask [1 << (7 - bit_idx)] of a block within its byte. *)
Definition bit_mask (block_id : Z) : Z := Z.shiftl 1 (7 - block_id `mod` 8).

(** The test [byte_idx < len(bitfield) and bitfield[byte_idx] & mask] for a
    non-negative [block_id]. *)
Definition bit_is_set (bf : bitfield) (block_id : Z) : bool :=
  (block_id `div` 8 <? Z.of_nat (length bf))
  && negb (Z.land (default 0 (bf !! Z.to_nat (block_id `div` 8)))
                  (bit_mask block_id) =? 0).

(** ** src/minibit/src/peer/block_manager.py *)
Module BlockManager.

(** The JSON document [_save_state] writes to [state.json]. *)
Record SavedState := mkSaved {
  saved_peer_id : string;
  saved_blocks_owned : list Z;
  saved_total_blocks : Z;
  saved_block_size : Z;
  saved_file_name : option string;
  saved_file_hash : option string;
}.

(** The manager's attributes, followed by the part of the file system
    it owns: the block files [block_<id>.dat], [state.json], and the
    files written below the reconstruction directory. *)
Record t := mk {
  peer_id : string;
  blocks_owned : gset Z;
  total_blocks : Z;
  block_size : Z;
  file_name : option string;
  file_hash : option string;
  blocks_data : gmap Z bytes;
  block_files : gmap Z bytes;
  state_json : option SavedState;
  output_files : gmap string bytes;
}.

Definition set_blocks_data (f : gmap Z bytes → gmap Z bytes) (st : t) : t :=
  mk (peer_id st) (blocks_owned st) (total_blocks st) (block_size st)
     (file_name st) (file_hash st) (f (blocks_data st)) (block_files st)
     (state_json st) (output_files st).

Definition set_block_files (f : gmap Z bytes → gmap Z bytes) (st : t) : t :=
  mk (peer_id st) (blocks_owned st) (total_blocks st) (block_size st)
     (file_name st) (file_hash st) (blocks_data st) (f (block_files st))
     (state_json st) (output_files st).

Definition set_blocks_owned (f : gset Z → gset Z) (st : t) : t :=
  mk (peer_id st) (f (blocks_owned st)) (total_blocks st) (block_size st)
     (file_name st) (file_hash st) (blocks_data st) (block_files st)
     (state_json st) (output_files st).

Definition set_total_blocks (n : Z) (st : t) : t :=
  mk (peer_id st) (blocks_owned st) n (block_size st)
     (file_name st) (file_hash st) (blocks_data st) (block_files st)
     (state_json st) (output_files st).

Definition set_state_json (s : option SavedState) (st : t) : t :=
  mk (peer_id st) (blocks_owned st) (total_blocks st) (block_size st)
     (file_name st) (file_hash st) (blocks_data st) (block_files st)
     s (output_files st).

Definition set_output_files (f : gmap string bytes → gmap string bytes)
    (st : t) : t :=
  mk (peer_id st) (blocks_owned st) (total_blocks st) (block_size st)
     (file_name st) (file_hash st) (blocks_data st) (block_files st)
     (state_json st) (f (output_files st)).

(** [__init__] when no [state.json] exists yet. *)
Definition init (peer_id : string) : t :=
  mk peer_id ∅ 0 1024 None None ∅ ∅ None ∅.

(** [has_block] *)
Definition has_block (st : t) (block_id : Z) : bool :=
  bool_decide (block_id ∈ blocks_owned st).

(** [len(self.blocks_owned)] *)
Definition owned_count (st : t) : Z := Z.of_nat (size (blocks_owned st)).

(** [is_complete] *)
Definition is_complete (st : t) : bool :=
  (owned_count st =? total_blocks st) && (0 <? total_blocks st).

(** [get_block]: the in-memory copy if there is one, else the block file,
    which is then cached in [blocks_data]. *)
Definition get_block (st : t) (block_id : Z) : option bytes * t :=
  if negb (has_block st block_id) then (None, st)
  else match blocks_data st !! block_id with
       | Some d => (Some d, st)
       | None =>
           match block_files st !! block_id with
           | Some d => (Some d, set_blocks_data (insert block_id d) st)
           | None => (None, st)
           end
       end.

(** [get_missing_blocks]: the ids of [range(total_blocks)] that are not
    owned, ascending. *)
Definition get_missing_blocks (st : t) : list Z :=
  if total_blocks st =? 0 then []
  else filter (λ b, b ∉ blocks_owned st) (seqZ 0 (total_blocks st)).

(** [_save_state]; its own [try]/[except] swallows every error. *)
Definition _save_state (st : t) : t :=
  set_state_json
    (Some (mkSaved (peer_id st) (elements (blocks_owned st))
             (total_blocks st) (block_size st) (file_name st)
             (file_hash st))) st.

(** The loop of [reconstruct_file] over [range(total_blocks)]: the bytes
    written so far are returned along with the flag, since a missing or
    empty block leaves a partial output file behind. *)
Fixpoint join_blocks (ids : list Z) (st : t) (written : bytes)
    : bool * t * bytes :=
  match ids with
  | [] => (true, st, written)
  | block_id :: rest =>
      match get_block st block_id with
      | (Some d, st1) =>
          if bytes_truthy d then join_blocks rest st1 (written ++ d)
          else (false, st1, written)
      | (None, st1) => (false, st1, written)
      end
  end.

Definition default_output_path (name : string) : string :=
  "files/reconstructed/" +:+ name.

(** What the argument [output_path] of [reconstruct_file] names:
nothing ([None] or an empty string, which stand for the file named
after [file_name] in the reconstruction directory), a file that is none
of the manager's own, the block file of a block, [state.json], or a
path that cannot be opened for writing.  A block file that is written
is also read by the loop: [flushed] tells how many of the bytes written
so far the buffered writer has passed on to the file.  [parse] is what
[_load_state] will make of the bytes written over [state.json]. *)
Inductive Output :=
| default_output
| other_file (path : string)
| own_block_file (block_id : Z) (flushed : bytes → nat)
| own_state_file (parse : bytes → option SavedState)
| unwritable.

(** The same loop when the output is the block file of block [k]: the
file was truncated when it was opened, and a read of it finds
[take (flushed written) written]. *)
Fixpoint join_blocks_over (k : Z) (flushed : bytes → nat) (ids : list Z)
    (st : t) (written : bytes) : bool * t * bytes :=
  match ids with
  | [] => (true, st, written)
  | block_id :: rest =>
      match get_block
              (set_block_files (insert k (take (flushed written) written))
                               st)
              block_id with
      | (Some d, st1) =>
          if bytes_truthy d
          then join_blocks_over k flushed rest st1 (written ++ d)
          else (false, st1, written)
      | (None, st1) => (false, st1, written)
      end
  end.

(** The output file once it is closed. *)
Definition write_output (name : string) (output : Output)
    (written : bytes) (st : t) : t :=
  match output with
  | default_output =>
      set_output_files (insert (default_output_path name) written) st
  | other_file path => set_output_files (insert path written) st
  | own_block_file k _ => set_block_files (insert k written) st
  | own_state_file parse => set_state_json (parse written) st
  | unwritable => st
  end.

(** [cleanup]: the block directory goes, with the block files and
[state.json]; the attributes stay as they are. *)
Definition cleanup (st : t) : t :=
  set_state_json None (set_block_files (λ _, ∅) st).



(** [set_from_bitfield] *)
Definition set_from_bitfield (st : t) (bf : bitfield) (total : Z) : t :=
  let st1 := set_total_blocks total st in
  set_blocks_owned
    (λ _, list_to_set (filter (λ b, Is_true (bit_is_set bf b))
                              (seqZ 0 total))) st1.

(** [_load_state]: the attributes saved in [state.json], and the cache
    filled from the block files that exist. *)
Definition _load_state (st : t) : t :=
  match state_json st with
  | None => st
  | Some s =>
      let st1 :=
        mk (peer_id st) (list_to_set (saved_blocks_owned s))
           (saved_total_blocks s) (saved_block_size s) (saved_file_name s)
           (saved_file_hash s) (blocks_data st) (block_files st)
           (state_json st) (output_files st) in
      foldl (λ acc block_id,
               match block_files acc !! block_id with
               | Some d => set_blocks_data (insert block_id d) acc
               | None => acc
               end)
            st1 (elements (blocks_owned st1))
  end.

(** [__init__] over the files a previous run of the same peer left
    behind. *)
Definition reopen (st : t) : t :=
  _load_state
    (mk (peer_id st) ∅ 0 1024 None None ∅ (block_files st) (state_json st)
        (output_files st)).

(** [range(0, stop, step)] for [0 <= stop]; [None] for a zero step
    ([ValueError]). *)
Definition py_range_step (stop step : Z) : option (list Z) :=
  if step =? 0 then None
  else if step <? 0 then Some []
  else Some ((λ k, k * step) <$> seqZ 0 ((stop + step - 1) `div` step)).

(** [get_block_rarity] *)
Definition get_block_rarity (st : t)
    (known_peers_blocks : gmap string (gset Z)) : gmap Z Z :=
  foldl (λ rarity block_id,
           <[block_id :=
               Z.of_nat (length (filter (λ kv : string * gset Z,
                                           block_id ∈ kv.2)
                                        (map_to_list known_peers_blocks)))]>
             rarity)
        ∅ (seqZ 0 (total_blocks st)).

Section WithHash.
(** [hashlib.sha256(content).hexdigest()] *)
Variable sha256_hex : bytes → string.

(** [reconstruct_file] *)
Definition reconstruct_file (st : t) (output : Output) : bool * t :=
  if negb (owned_count st =? total_blocks st) then (false, st)
  else if negb (str_truthy (file_name st)) then (false, st)
  else
    match output with
    | unwritable => (false, st)
    | _ =>
        let '(ok, st1, written) :=
          match output with
          | own_block_file k flushed =>
              join_blocks_over k flushed (seqZ 0 (total_blocks st)) st []
          | _ => join_blocks (seqZ 0 (total_blocks st)) st []
          end in
        let st2 :=
          write_output (default "" (file_name st)) output written st1 in
        if negb ok then (false, st2)
        else if str_truthy (file_hash st)
                && negb (String.eqb (sha256_hex written)
                           (default "" (file_hash st)))
             then (false, st2)
             else (true, st2)
    end.

(** [add_block].  [write_ok] tells whether opening and writing the
    block file succeeds; when it raises, the [except] branch returns
    [False] before anything was recorded. *)
Definition add_block (write_ok : bool) (st : t) (block_id : Z)
    (data : bytes) : bool * t :=
  if (block_id <? 0) || (total_blocks st <=? block_id) then (false, st)
  else if has_block st block_id then (true, st)
  else if negb write_ok then (false, st)
  else
    let st1 := set_block_files (insert block_id data) st in
    let st2 := set_blocks_data (insert block_id data) st1 in
    let st3 := set_blocks_owned (union {[ block_id ]}) st2 in
    let st4 := _save_state st3 in
    let st5 :=
      if owned_count st4 =? total_blocks st4
      then snd (reconstruct_file st4 default_output)
      else st4 in
    (true, st5).
(** What the loop of [split_file_into_blocks] records for one block. *)
Definition save_block (st : t) (item : Z * bytes) : t :=
  set_blocks_owned (union {[ item.1 ]})
    (set_blocks_data (insert item.1 item.2)
       (set_block_files (insert item.1 item.2) st)).

(** [split_file_into_blocks].  [file] is what the path leads to: the
    name [file_path.name] and the content, [None] when the file does not
    exist.  The result is [None] when an exception is raised (a missing
    file, or a zero block size), with the attributes assigned before it.
    Writing the block files is taken to succeed. *)
Definition split_file_into_blocks (st : t) (file : option (string * bytes))
    (block_size : Z) : option Z * t :=
  match file with
  | None => (None, st)
  | Some (name, content) =>
      let st1 :=
        mk (peer_id st) (blocks_owned st) (total_blocks st) block_size
           (Some name) (Some (sha256_hex content)) (blocks_data st)
           (block_files st) (state_json st) (output_files st) in
      match py_range_step (Z.of_nat (length content)) block_size with
      | None => (None, st1)
      | Some starts =>
          let blocks :=
            (λ i, take (Z.to_nat block_size) (drop (Z.to_nat i) content))
              <$> starts in
          let st2 := set_total_blocks (Z.of_nat (length blocks)) st1 in
          let st3 :=
            foldl save_block st2
                  (zip (seqZ 0 (Z.of_nat (length blocks))) blocks) in
          (Some (Z.of_nat (length blocks)), _save_state st3)
      end
  end.
End WithHash.

End BlockManager.

(** ** Rational arithmetic for clock readings and rates *)

Definition Qltb (a b : Q) : bool := negb (Qle_bool b a).

(** [max(1, x)] *)
Definition Qmax1 (x : Q) : Q := if Qltb 1 x then x else 1%Q.

(** [min(...)] over a non-empty sequence, given by its head and tail. *)
Definition Qmin_list (x : Q) (l : list Q) : Q :=
  foldl (λ m y, if Qltb y m then y else m) x l.

(** ** Python floats *)
Module Float.

(** A finite [float] is the rational it denotes.  [round] is the
rounding that ends every operation of binary64 arithmetic: to the
nearest number with a significand of 53 bits, and to the one whose
significand is even when two are as near.  The limits of the exponent
are left out: an [int] too large for a [float] raises in Python, and
no result here is small enough to lose bits. *)
Definition round (q : Q) : Q :=
  let n := Qnum q in
  let d := Z.pos (Qden q) in
  if n =? 0 then 0%Q
  else
    let a := Z.abs n in
    let scaled e :=
      if 0 <=? e then (a, d * 2 ^ e) else (a * 2 ^ (- e), d) in
    let e0 := Z.log2 a - Z.log2 d - 52 in
    let e :=
      if fst (scaled e0) `div` snd (scaled e0) <? 2 ^ 52 then e0 - 1
      else e0 in
    let x := fst (scaled e) in
    let y := snd (scaled e) in
    let m0 := x `div` y in
    let r := x `mod` y in
    let m :=
      if 2 * r <? y then m0
      else if y <? 2 * r then m0 + 1
      else if Z.even m0 then m0 else m0 + 1 in
    if 0 <=? e then inject_Z (Z.sgn n * m * 2 ^ e)
    else (Z.sgn n * m # Z.to_pos (2 ^ (- e)))%Q.

(** [a + b], [a - b], [a * b] and [a / b] on floats. *)
Definition add (a b : Q) : Q := round (a + b).
Definition sub (a b : Q) : Q := round (a - b).
Definition mul (a b : Q) : Q := round (a * b).
Definition div (a b : Q) : Q := round (a / b).

(** [float(n)], and [a / b] on two [int]s. *)
Definition of_int (n : Z) : Q := round (inject_Z n).
Definition int_div (a b : Z) : Q := round (inject_Z a / inject_Z b).

End Float.

(** Python's [sorted]/[list.sort] for a total preorder given as a boolean
    test: a stable sort, written as the insertion sort that puts an item
    in front of the first later item it does not exceed.  A stable sorted
    arrangement is unique, so this is the list Python returns.  With
    [reverse=True] the test is flipped; stability is kept, as in Python. *)
Fixpoint sorted_insert {A} (leb : A → A → bool) (x : A) (l : list A)
    : list A :=
  match l with
  | [] => [x]
  | y :: l' => if leb x y then x :: l else y :: sorted_insert leb x l'
  end.

Definition py_sorted {A} (leb : A → A → bool) (l : list A) : list A :=
  foldr (sorted_insert leb) [] l.

(** The slice [l[:n]]: a negative bound counts from the end. *)
Definition py_slice_to {A} (n : Z) (l : list A) : list A :=
  if 0 <=? n then take (Z.to_nat n) l
  else take (length l - Z.to_nat (- n))%nat l.

(** ** src/minibit/src/peer/strategies.py *)
Module Strategies.

(** Entries [(timestamp, bytes)] of a transfer history. *)
Abbreviation history := (list (Q * Z)).

Record t := mk {
  peer_id : string;
  max_unchoked : Z;
  peer_blocks : gmap string (gset Z);
  peer_download_rates : gmap string Q;
  peer_upload_rates : gmap string Q;
  peer_last_request : gmap string Q;
  unchoked_peers : gset string;
  interested_peers : gset string;
  optimistic_unchoke_peer : option string;
  last_unchoke_update : Q;
  last_optimistic_update : Q;
  unchoke_interval : Q;
  optimistic_interval : Q;
  block_requests : gmap string Z;
  successful_downloads : gmap string Z;
  failed_requests : gmap string Z;
  download_history : gmap string history;
  upload_history : gmap string history;
}.

(** [__init__]; [now] is the reading of [time.time()]. *)
Definition init (peer_id : string) (max_unchoked : Z) (now : Q) : t :=
  mk peer_id max_unchoked ∅ ∅ ∅ ∅ ∅ ∅ None now now 10%Q 30%Q ∅ ∅ ∅ ∅ ∅.

Definition default_max_unchoked : Z := 4.
Definition default_max_blocks : Z := 5.

Definition set_peer_blocks (v : gmap string (gset Z)) (st : t) : t :=
  mk (peer_id st) (max_unchoked st) v (peer_download_rates st)
     (peer_upload_rates st) (peer_last_request st) (unchoked_peers st)
     (interested_peers st) (optimistic_unchoke_peer st)
     (last_unchoke_update st) (last_optimistic_update st)
     (unchoke_interval st) (optimistic_interval st) (block_requests st)
     (successful_downloads st) (failed_requests st) (download_history st)
     (upload_history st).

Definition set_peer_download_rates (v : gmap string Q) (st : t) : t :=
  mk (peer_id st) (max_unchoked st) (peer_blocks st) v
     (peer_upload_rates st) (peer_last_request st) (unchoked_peers st)
     (interested_peers st) (optimistic_unchoke_peer st)
     (last_unchoke_update st) (last_optimistic_update st)
     (unchoke_interval st) (optimistic_interval st) (block_requests st)
     (successful_downloads st) (failed_requests st) (download_history st)
     (upload_history st).

Definition set_unchoked_peers (v : gset string) (st : t) : t :=
  mk (peer_id st) (max_unchoked st) (peer_blocks st)
     (peer_download_rates st) (peer_upload_rates st)
     (peer_last_request st) v (interested_peers st)
     (optimistic_unchoke_peer st) (last_unchoke_update st)
     (last_optimistic_update st) (unchoke_interval st)
     (optimistic_interval st) (block_requests st)
     (successful_downloads st) (failed_requests st) (download_history st)
     (upload_history st).

Definition set_optimistic_unchoke_peer (v : option string) (st : t) : t :=
  mk (peer_id st) (max_unchoked st) (peer_blocks st)
     (peer_download_rates st) (peer_upload_rates st)
     (peer_last_request st) (unchoked_peers st) (interested_peers st) v
     (last_unchoke_update st) (last_optimistic_update st)
     (unchoke_interval st) (optimistic_interval st) (block_requests st)
     (successful_downloads st) (failed_requests st) (download_history st)
     (upload_history st).

Definition set_last_unchoke_update (v : Q) (st : t) : t :=
  mk (peer_id st) (max_unchoked st) (peer_blocks st)
     (peer_download_rates st) (peer_upload_rates st)
     (peer_last_request st) (unchoked_peers st) (interested_peers st)
     (optimistic_unchoke_peer st) v (last_optimistic_update st)
     (unchoke_interval st) (optimistic_interval st) (block_requests st)
     (successful_downloads st) (failed_requests st) (download_history st)
     (upload_history st).

Definition set_last_optimistic_update (v : Q) (st : t) : t :=
  mk (peer_id st) (max_unchoked st) (peer_blocks st)
     (peer_download_rates st) (peer_upload_rates st)
     (peer_last_request st) (unchoked_peers st) (interested_peers st)
     (optimistic_unchoke_peer st) (last_unchoke_update st) v
     (unchoke_interval st) (optimistic_interval st) (block_requests st)
     (successful_downloads st) (failed_requests st) (download_history st)
     (upload_history st).

Definition set_successful_downloads (v : gmap string Z) (st : t) : t :=
  mk (peer_id st) (max_unchoked st) (peer_blocks st)
     (peer_download_rates st) (peer_upload_rates st)
     (peer_last_request st) (unchoked_peers st) (interested_peers st)
     (optimistic_unchoke_peer st) (last_unchoke_update st)
     (last_optimistic_update st) (unchoke_interval st)
     (optimistic_interval st) (block_requests st) v (failed_requests st)
     (download_history st) (upload_history st).

Definition set_failed_requests (v : gmap string Z) (st : t) : t :=
  mk (peer_id st) (max_unchoked st) (peer_blocks st)
     (peer_download_rates st) (peer_upload_rates st)
     (peer_last_request st) (unchoked_peers st) (interested_peers st)
     (optimistic_unchoke_peer st) (last_unchoke_update st)
     (last_optimistic_update st) (unchoke_interval st)
     (optimistic_interval st) (block_requests st)
     (successful_downloads st) v (download_history st)
     (upload_history st).

Definition set_download_history (v : gmap string history) (st : t) : t :=
  mk (peer_id st) (max_unchoked st) (peer_blocks st)
     (peer_download_rates st) (peer_upload_rates st)
     (peer_last_request st) (unchoked_peers st) (interested_peers st)
     (optimistic_unchoke_peer st) (last_unchoke_update st)
     (last_optimistic_update st) (unchoke_interval st)
     (optimistic_interval st) (block_requests st)
     (successful_downloads st) (failed_requests st) v
     (upload_history st).

(** [set_peer_interested] *)
Definition set_peer_interested (st : t) (peer : string) (flag : bool) : t :=
  mk (peer_id st) (max_unchoked st) (peer_blocks st)
     (peer_download_rates st) (peer_upload_rates st)
     (peer_last_request st) (unchoked_peers st)
     (if flag then {[ peer ]} ∪ interested_peers st
      else interested_peers st ∖ {[ peer ]})
     (optimistic_unchoke_peer st) (last_unchoke_update st)
     (last_optimistic_update st) (unchoke_interval st)
     (optimistic_interval st) (block_requests st)
     (successful_downloads st) (failed_requests st) (download_history st)
     (upload_history st).

(** [d[k]] on a [defaultdict(int)] / [d.get(k, 0)] *)
Definition counter (d : gmap string Z) (k : string) : Z := default 0 (d !! k).

(** [d.get(k, [])] on a history table *)
Definition history_of (d : gmap string history) (k : string) : history :=
  default [] (d !! k).

(** [sum(bytes_ for _, bytes_ in h)] *)
Definition total_bytes (h : history) : Z := foldr (λ e acc, e.2 + acc) 0 h.

(** The entries of [h] not older than [window] seconds at time [now]. *)
Definition recent (now window : Q) (h : history) : history :=
  filter (λ e, Is_true (Qle_bool (now - e.1) window)) h.

(** [total_bytes / max(1, now - min(ts))] over a window, [0.0] when the
    window holds no entry. *)
Definition window_rate (now : Q) (h : history) : Q :=
  match h with
  | [] => 0%Q
  | e :: rest =>
      (inject_Z (total_bytes h)
       / Qmax1 (now - Qmin_list e.1 (map fst rest)))%Q
  end.

(** [_update_download_rate] *)
Definition _update_download_rate (st : t) (now : Q) (peer : string) : t :=
  let h := history_of (download_history st) peer in
  set_peer_download_rates
    (<[peer := window_rate now (recent now 30 h)]>
       (peer_download_rates st)) st.

(** [record_download]; both clock readings of the call are [now]. *)
Definition record_download (st : t) (now : Q) (peer : string)
    (block_id : Z) (bytes_downloaded : Z) (success : bool) : t :=
  let st1 :=
    if success then
      let st' :=
        set_successful_downloads
          (<[peer := counter (successful_downloads st) peer + 1]>
             (successful_downloads st)) st in
      let h := history_of (download_history st') peer
                 ++ [(now, bytes_downloaded)] in
      let h' := if (10 <? length h)%nat
                then drop (length h - 10)%nat h else h in
      set_download_history (<[peer := h']> (download_history st')) st'
    else
      set_failed_requests
        (<[peer := counter (failed_requests st) peer + 1]>
           (failed_requests st)) st in
  _update_download_rate st1 now peer.

Definition set_peer_upload_rates (v : gmap string Q) (st : t) : t :=
  mk (peer_id st) (max_unchoked st) (peer_blocks st)
     (peer_download_rates st) v (peer_last_request st) (unchoked_peers st)
     (interested_peers st) (optimistic_unchoke_peer st)
     (last_unchoke_update st) (last_optimistic_update st)
     (unchoke_interval st) (optimistic_interval st) (block_requests st)
     (successful_downloads st) (failed_requests st) (download_history st)
     (upload_history st).

Definition set_upload_history (v : gmap string history) (st : t) : t :=
  mk (peer_id st) (max_unchoked st) (peer_blocks st)
     (peer_download_rates st) (peer_upload_rates st)
     (peer_last_request st) (unchoked_peers st) (interested_peers st)
     (optimistic_unchoke_peer st) (last_unchoke_update st)
     (last_optimistic_update st) (unchoke_interval st)
     (optimistic_interval st) (block_requests st)
     (successful_downloads st) (failed_requests st) (download_history st)
     v.

(** [_update_upload_rate] *)
Definition _update_upload_rate (st : t) (now : Q) (peer : string) : t :=
  let h := history_of (upload_history st) peer in
  set_peer_upload_rates
    (<[peer := window_rate now (recent now 30 h)]> (peer_upload_rates st))
    st.

(** [record_upload]; both clock readings of the call are [now]. *)
Definition record_upload (st : t) (now : Q) (peer : string) (block_id : Z)
    (bytes_uploaded : Z) : t :=
  let h := history_of (upload_history st) peer ++ [(now, bytes_uploaded)] in
  let h' := if (10 <? length h)%nat then drop (length h - 10)%nat h else h in
  _update_upload_rate
    (set_upload_history (<[peer := h']> (upload_history st)) st) now peer.

(** [update_peer_blocks] *)
Definition update_peer_blocks (st : t) (peer : string) (blocks : gset Z)
    : t :=
  set_peer_blocks (<[peer := blocks]> (peer_blocks st)) st.

(** Number of known peers whose advertised set holds [block_id]: the
    inner loop of [_calculate_block_rarity]. *)
Definition holders (st : t) (block_id : Z) : Z :=
  Z.of_nat
    (length (filter (λ kv : string * gset Z, block_id ∈ kv.2)
               (map_to_list (peer_blocks st)))).

(** [_calculate_block_rarity] *)
Definition _calculate_block_rarity (st : t) (blocks : list Z) : gmap Z Z :=
  foldl (λ rarity block_id, <[block_id := holders st block_id]> rarity)
        ∅ blocks.

(** Lexicographic order on the sort key [(rarity, block id)]. *)
Definition key_leb (a b : Z * Z) : bool :=
  (a.1 <? b.1) || ((a.1 =? b.1) && (a.2 <=? b.2)).

(** [select_rarest_blocks] *)
Definition select_rarest_blocks (st : t) (missing_blocks : list Z)
    (max_blocks : Z) : list Z :=
  match missing_blocks with
  | [] => []
  | _ =>
      let block_rarity := _calculate_block_rarity st missing_blocks in
      let key b := (default 0 (block_rarity !! b), b) in
      let sorted_blocks :=
        py_sorted (λ a b, key_leb (key a) (key b)) missing_blocks in
      py_slice_to max_blocks sorted_blocks
  end.

(** [_calculate_tit_for_tat_score].  The scores are compared with each
other, so the arithmetic is that of floats, rounding included; [0.1] is
the float nearest to one tenth. *)
Definition _calculate_tit_for_tat_score (st : t) (now : Q) (peer : string)
    : Q :=
  let downloads := history_of (download_history st) peer in
  let uploads := history_of (upload_history st) peer in
  let recent_downloads :=
    filter (λ e, Is_true (Qle_bool (Float.sub now e.1) 60)) downloads in
  let score :=
    match recent_downloads with
    | [] => 0%Q
    | e :: rest =>
        let time_span :=
          Qmax1 (Float.sub now (Qmin_list e.1 (map fst rest))) in
        let download_rate :=
          Float.div (Float.of_int (total_bytes recent_downloads))
                    time_span in
        Float.add 0 download_rate
    end in
  let upload_bytes := total_bytes uploads in
  let download_bytes := total_bytes downloads in
  let score :=
    if (0 <? upload_bytes) && (0 <? download_bytes) then
      Float.add score
        (Float.mul
           (Float.int_div (Z.min upload_bytes download_bytes)
                          (Z.max upload_bytes download_bytes))
           1000)
    else score in
  if (upload_bytes =? 0) && (1000 <? download_bytes)
  then Float.mul score (Float.round (1 # 10)) else score.

(** Order of the tuples [(score, peer_id)]. *)
Definition score_leb (a b : Q * string) : bool :=
  match (a.1 ?= b.1)%Q with
  | Lt => true
  | Gt => false
  | Eq => String.leb a.2 b.2
  end.

(** [peer_scores.sort(reverse=True)] *)
Definition sort_scores (l : list (Q * string)) : list (Q * string) :=
  py_sorted (λ a b, score_leb b a) l.

(** [update_unchoked_peers]: returns [(newly_unchoked, newly_choked)]
    and the new state.  [now] is the clock reading of the tick. *)
Definition update_unchoked_peers (st : t) (now : Q)
    (connected_peers : list string) : gset string * gset string * t :=
  if Qltb (now - last_unchoke_update st) (unchoke_interval st)
  then (∅, ∅, st)
  else
    let st1 := set_last_unchoke_update now st in
    let eligible_peers :=
      filter (λ p, p ∈ interested_peers st1) connected_peers in
    match eligible_peers with
    | [] => (∅, ∅, st1)
    | _ =>
        let peer_scores :=
          map (λ p, (_calculate_tit_for_tat_score st1 now p, p))
              eligible_peers in
        let peer_scores := sort_scores peer_scores in
        let new_unchoked : gset string :=
          list_to_set
            (map snd (take (Z.to_nat (max_unchoked st1)) peer_scores)) in
        let newly_unchoked := new_unchoked ∖ unchoked_peers st1 in
        let newly_choked := unchoked_peers st1 ∖ new_unchoked in
        (newly_unchoked, newly_choked, set_unchoked_peers new_unchoked st1)
    end.

(** [select_optimistic_unchoke].  [random.choices] draws with weights
    that are all at least 1, so any eligible peer can come out; the
    draw is the index [pick], reduced modulo the number of candidates. *)
Definition select_optimistic_unchoke (st : t) (now : Q)
    (connected_peers : list string) (pick : nat) : option string * t :=
  if Qltb (now - last_optimistic_update st) (optimistic_interval st)
  then (optimistic_unchoke_peer st, st)
  else
    let st1 := set_last_optimistic_update now st in
    let eligible_peers :=
      filter (λ p, p ∈ interested_peers st1 ∧ p ∉ unchoked_peers st1)
             connected_peers in
    match eligible_peers with
    | [] => (None, set_optimistic_unchoke_peer None st1)
    | p0 :: _ =>
        let selected_peer :=
          default p0
            (eligible_peers !! (pick `mod` length eligible_peers)%nat) in
        (Some selected_peer,
         set_optimistic_unchoke_peer (Some selected_peer) st1)
    end.

(** [add_peer_block] *)
Definition add_peer_block (st : t) (peer : string) (block_id : Z) : t :=
  set_peer_blocks
    (<[peer := {[ block_id ]} ∪ default ∅ (peer_blocks st !! peer)]>
       (peer_blocks st)) st.

(** [remove_peer] *)
Definition remove_peer (st : t) (peer : string) : t :=
  mk (peer_id st) (max_unchoked st) (delete peer (peer_blocks st))
     (delete peer (peer_download_rates st))
     (delete peer (peer_upload_rates st))
     (delete peer (peer_last_request st))
     (unchoked_peers st ∖ {[ peer ]}) (interested_peers st ∖ {[ peer ]})
     (if bool_decide (optimistic_unchoke_peer st = Some peer) then None
      else optimistic_unchoke_peer st)
     (last_unchoke_update st) (last_optimistic_update st)
     (unchoke_interval st) (optimistic_interval st)
     (delete peer (block_requests st))
     (delete peer (successful_downloads st))
     (delete peer (failed_requests st))
     (delete peer (download_history st))
     (delete peer (upload_history st)).

(** Reading [d[k]] on a [defaultdict(int)] stores the default under a
    missing key. *)
Definition touch (d : gmap string Z) (k : string) : gmap string Z :=
  match d !! k with
  | Some _ => d
  | None => <[k := 0]> d
  end.

(** The reads [self.successful_downloads[peer_id]] and
    [self.failed_requests[peer_id]]. *)
Definition touch_counters (st : t) (peer : string) : t :=
  set_failed_requests (touch (failed_requests st) peer)
    (set_successful_downloads (touch (successful_downloads st) peer) st).

(** [peer_id in self.peer_blocks and block_id in self.peer_blocks[peer_id]] *)
Definition advertises (st : t) (peer : string) (block_id : Z) : bool :=
  match peer_blocks st !! peer with
  | Some blocks => bool_decide (block_id ∈ blocks)
  | None => false
  end.

(** [should_request_from_peer]; [now] is the clock reading. *)
Definition should_request_from_peer (st : t) (now : Q) (peer : string)
    (block_id : Z) : bool * t :=
  if negb (advertises st peer block_id) then (false, st)
  else if negb (bool_decide (peer ∈ unchoked_peers st))
          && negb (bool_decide (optimistic_unchoke_peer st = Some peer))
  then (false, st)
  else if Qltb (now - default 0%Q (peer_last_request st !! peer)) 1
  then (false, st)
  else
    let successes := counter (successful_downloads st) peer in
    let total_requests := successes + counter (failed_requests st) peer in
    let st1 := touch_counters st peer in
    if (5 <? total_requests)
       && Qltb (inject_Z successes / inject_Z total_requests) (1 # 2)
    then (false, st1)
    else (true, st1).

(** [_calculate_peer_download_score]; [noise] is the draw of
    [random.random()]. *)
Definition _calculate_peer_download_score (st : t) (peer : string)
    (noise : Q) : Q * t :=
  let download_rate := default 0%Q (peer_download_rates st !! peer) in
  let score := (0 + download_rate * (2 # 5))%Q in
  let successes := counter (successful_downloads st) peer in
  let total_requests := successes + counter (failed_requests st) peer in
  let score :=
    if 0 <? total_requests
    then (score + inject_Z successes / inject_Z total_requests * 30)%Q
    else score in
  let blocks_available :=
    Z.of_nat (size (default ∅ (peer_blocks st !! peer))) in
  let score := (score + inject_Z blocks_available * (1 # 5))%Q in
  ((score + noise * 10)%Q, touch_counters st peer).

(** The loop of [select_download_peers] that scores the candidates. *)
Definition score_candidates (st : t) (noise : string → Q)
    (candidate_peers : list string) : list (Q * string) * t :=
  foldl (λ acc peer,
           let r := _calculate_peer_download_score acc.2 peer (noise peer) in
           (acc.1 ++ [(r.1, peer)], r.2))
        ([], st) candidate_peers.

(** [select_download_peers].  Every candidate gets one draw of
    [random.random()], given by [noise] per peer.  The tuples
    [(score, peer_id)] of distinct peers are never equal, so the sorted
    list does not depend on the order in which the dictionary is
    traversed. *)
Definition select_download_peers (st : t) (block_id : Z) (max_peers : Z)
    (noise : string → Q) : list string * t :=
  let candidate_peers :=
    map fst (filter (λ kv : string * gset Z,
                       block_id ∈ kv.2 ∧ kv.1 ∈ interested_peers st)
                    (map_to_list (peer_blocks st))) in
  match candidate_peers with
  | [] => ([], st)
  | _ =>
      let r := score_candidates st noise candidate_peers in
      (map snd (py_slice_to max_peers (sort_scores r.1)), r.2)
  end.

End Strategies.

(** ** src/minibit/src/common/file_utils.py: [FileInfo] *)
Module FileInfo.
Section WithHash.
(** [FileUtils.calculate_block_hash] *)
Variable calculate_block_hash : bytes → string.

(** [validate_block] against the list [block_hashes]. *)
Definition validate_block (block_hashes : list string) (block_id : Z)
    (block_data : bytes) : bool :=
  if (0 <=? block_id) && (block_id <? Z.of_nat (length block_hashes))
  then match block_hashes !! Z.to_nat block_id with
       | Some h => String.eqb (calculate_block_hash block_data) h
       | None => false
       end
  else false.
End WithHash.
End FileInfo.

(** ** src/minibit/src/peer/communication.py *)
Module Communication.

(** The attributes of [PeerConnection] that message handling touches. *)
Record PeerConnection := mkConn {
  conn_peer_id : string;
  is_active : bool;
  choked : bool;
  interested : bool;
  conn_bitfield : option bitfield;
  blocks_owned : gset Z;
}.

(** A received message: its type and the fields of [message.data] that are
    read; a field that is absent is [None]. *)
Inductive Message :=
| BITFIELD (bf : option bitfield)
| HAVE (block_id : option Z)
| CHOKE
| UNCHOKE
| INTERESTED
| NOT_INTERESTED
| OTHER.

(** The block ids a received bitfield advertises: every set bit among the
    [len(bitfield) * 8] positions. *)
Definition bitfield_blocks (bf : bitfield) : gset Z :=
  list_to_set (filter (λ b, Is_true (bit_is_set bf b))
                      (seqZ 0 (Z.of_nat (length bf) * 8))).

Definition on_message (c : PeerConnection) (message : Message)
    : PeerConnection :=
  match message with
  | BITFIELD bf =>
      let bf := default [] bf in
      mkConn (conn_peer_id c) (is_active c) (choked c) (interested c)
             (Some bf) (bitfield_blocks bf)
  | HAVE (Some block_id) =>
      mkConn (conn_peer_id c) (is_active c) (choked c) (interested c)
             (conn_bitfield c) ({[ block_id ]} ∪ blocks_owned c)
  | HAVE None => c
  | CHOKE =>
      mkConn (conn_peer_id c) (is_active c) true (interested c)
             (conn_bitfield c) (blocks_owned c)
  | UNCHOKE =>
      mkConn (conn_peer_id c) (is_active c) false (interested c)
             (conn_bitfield c) (blocks_owned c)
  | INTERESTED =>
      mkConn (conn_peer_id c) (is_active c) (choked c) true
             (conn_bitfield c) (blocks_owned c)
  | NOT_INTERESTED =>
      mkConn (conn_peer_id c) (is_active c) (choked c) false
             (conn_bitfield c) (blocks_owned c)
  | OTHER => c
  end.

(** [_update_connection_state] on the table [self.connections]. *)
Definition _update_connection_state
    (connections : gmap string PeerConnection) (peer_id : string)
    (message : Message) : gmap string PeerConnection :=
  match connections !! peer_id with
  | None => connections
  | Some c => <[peer_id := on_message c message]> connections
  end.

End Communication.

(** Equality of bytes is decidable. *)
Global Instance byte_eq_decision : EqDecision Byte.byte := Byte.byte_eq_dec.

(** ** Random draws *)

(** [random.sample(population, k)] for [0 <= k <= len(population)]: [k]
items at distinct positions.  Each draw is an index into what is left
of the population, reduced modulo its length; every outcome of
[random.sample] is the result for some list of draws. *)
Fixpoint py_sample {A} (population : list A) (k : nat) (picks : list nat)
    : list A :=
  match k with
  | O => []
  | S k' =>
      let i := (hd 0%nat picks `mod` length population)%nat in
      match population !! i with
      | Some x => x :: py_sample (delete i population) k' (tl picks)
      | None => []
      end
  end.

(** [random.randint(a, b)] for [a <= b]: the draw reduced to the range. *)
Definition py_randint (a b : Z) (draw : nat) : Z :=
  a + Z.of_nat draw `mod` (b - a + 1).

(** ** src/minibit-final/peer/peer.py *)
Module FinalPeer.

Definition MAX_UNCHOKED : nat := 4.

(** The sentinel [b'CHOKED']. *)
Definition CHOKED : bytes := [x43; x48; x4f; x4b; x45; x44]%byte.

(** Peers are named by their port.  [block_files] is the content of
    [files/blocks/<FILE_NAME>_block_<id>]. *)
Record t := mk {
  port : Z;
  blocks : gset Z;
  total_blocks : Z;
  peers_known : gset Z;
  allowed_peers : gset Z;
  optimistic_peer : option Z;
  blocked_by : gset Z;
  block_files : gmap Z bytes;
}.

(** A request as unpickled from the connection. *)
Inductive Request :=
| list_request
| block_request (requester_port : Z) (block_id : Z)
| other_request.

(** The object handed to [pickle.dumps] for the reply. *)
Inductive Reply :=
| reply_list (l : list Z)
| reply_bytes (d : bytes).

(** [allowed] as computed under the lock in [_handle_request]. *)
Definition allowed (st : t) (requester_port : Z) : bool :=
  bool_decide (requester_port ∈ allowed_peers st)
  || bool_decide (optimistic_peer st = Some requester_port).

(** [_handle_request]: what is sent back on the connection; [None] when
    nothing is sent (an unknown request type, or [open] raised and the
    exception was swallowed).  No attribute of the peer is assigned. *)
Definition _handle_request (st : t) (request : Request) : option Reply :=
  match request with
  | list_request => Some (reply_list (elements (blocks st)))
  | block_request requester_port block_id =>
      if allowed st requester_port && bool_decide (block_id ∈ blocks st)
      then reply_bytes <$> block_files st !! block_id
      else Some (reply_bytes CHOKED)
  | other_request => None
  end.

(** [needed = set(range(self.total_blocks)) - self.blocks] *)
Definition needed (st : t) : gset Z :=
  list_to_set (seqZ 0 (total_blocks st)) ∖ blocks st.

(** [_select_rarest_block]: [block_counts] is the [Counter] of advertised
    blocks; [random.choice] is the draw [pick] reduced modulo the number
    of candidates. *)
Definition _select_rarest_block (st : t) (block_counts : gmap Z Z)
    (pick : nat) : option Z :=
  let rarity :=
    filter (λ kv : Z * Z, kv.1 ∈ needed st) block_counts in
  match map_to_list rarity with
  | [] => None
  | kv :: rest =>
      let min_count := foldl Z.min kv.2 (map snd rest) in
      let candidates :=
        map fst (filter (λ kv : Z * Z, kv.2 = min_count)
                        (map_to_list rarity)) in
      candidates !! (pick `mod` length candidates)%nat
  end.

Definition set_peers_known (v : gset Z) (st : t) : t :=
  mk (port st) (blocks st) (total_blocks st) v (allowed_peers st)
     (optimistic_peer st) (blocked_by st) (block_files st).

Definition set_unchoke (allowed : gset Z) (optimistic : option Z)
    (blocked : gset Z) (st : t) : t :=
  mk (port st) (blocks st) (total_blocks st) (peers_known st) allowed
     optimistic blocked (block_files st).

(** [Counter.update(blocks)] *)
Definition counter_update (c : gmap Z Z) (blocks : list Z) : gmap Z Z :=
  foldl (λ c b, <[b := default 0 (c !! b) + 1]> c) c blocks.

(** [_get_blocks_in_network].  [network p] is the answer of peer [p] to a
    ['list'] request, [None] when the connection fails.  The dictionary
    [peer_blocks] is kept as the list of its items in insertion order. *)
Definition _get_blocks_in_network (st : t) (network : Z → option (list Z))
    : gmap Z Z * list (Z * gset Z) * t :=
  foldl (λ acc peer_port,
           let '(block_counts, peer_blocks, st) := acc in
           if peer_port =? port st then acc
           else match network peer_port with
                | Some blocks =>
                    (counter_update block_counts blocks,
                     peer_blocks ++ [(peer_port, list_to_set blocks)],
                     st)
                | None =>
                    (block_counts, peer_blocks,
                     set_peers_known (peers_known st ∖ {[ peer_port ]}) st)
                end)
        (∅, [], st) (elements (peers_known st)).

(** [scores[port]]: a port found in [blocked_by] scores [-1], any other
port the number of needed blocks it holds. *)
Definition peer_score (needed_blocks : gset Z) (blocked : gset Z)
    (kv : Z * gset Z) : Z :=
  if bool_decide (kv.1 ∈ blocked) then -1
  else Z.of_nat (size (needed_blocks ∩ kv.2)).

(** [sorted(scores.keys(), key=lambda p: scores[p], reverse=True)] *)
Definition rank_peers (needed_blocks : gset Z) (blocked : gset Z)
    (peer_blocks : list (Z * gset Z)) : list Z :=
  map fst
    (py_sorted (λ a b, peer_score needed_blocks blocked b
                       <=? peer_score needed_blocks blocked a)
               peer_blocks).

(** One round of [update_peers_loop] after the sleep.  [blocked] is what
    the download thread added to [blocked_by] after it was cleared
    (empty when the round runs undisturbed), [order] the arrangement of
    the population drawn by [random.sample], [pick] the draw of
    [random.choice]. *)
Definition update_peers (st : t) (network : Z → option (list Z))
    (blocked : gset Z) (order : list Z) (pick : nat) : t :=
  if bool_decide (peers_known st = ∅) then st
  else
    let '(_, peer_blocks, st) := _get_blocks_in_network st network in
    let needed_blocks := needed st in
    if bool_decide (needed_blocks = ∅) then
      let others := peers_known st ∖ {[ port st ]} in
      let selected := take (MAX_UNCHOKED `min` size others)%nat order in
      set_unchoke (list_to_set selected) None ∅ st
    else
      let ranked_peers := rank_peers needed_blocks blocked peer_blocks in
      let new_allowed : gset Z :=
        list_to_set (take MAX_UNCHOKED ranked_peers) in
      let choked_peers := filter (λ p, p ∉ new_allowed) ranked_peers in
      let optimistic :=
        choked_peers !! (pick `mod` length choked_peers)%nat in
      set_unchoke new_allowed optimistic blocked st.

(** [contact_tracker]; [reply] is the list the tracker sent, [None] when
the exchange fails. *)
Definition contact_tracker (st : t) (reply : option (list Z)) : t :=
  match reply with
  | Some peers => set_peers_known (peers_known st ∪ list_to_set peers) st
  | None => st
  end.

(** [peer_port in peer_blocks and target in peer_blocks[peer_port]] *)
Definition advertised (peer_blocks : list (Z * gset Z)) (peer_port : Z)
    (target : Z) : bool :=
  match list_find (λ kv, kv.1 = peer_port) peer_blocks with
  | Some (_, kv) => bool_decide (target ∈ kv.2)
  | None => false
  end.

(** The candidates of [download_blocks_loop], before the shuffle. *)
Definition candidates (st : t) : list Z :=
  elements (allowed_peers st)
  ++ match optimistic_peer st with
     | Some p => if p =? 0 then [] else [p]
     | None => []
     end.

(** What a successful download records. *)
Definition store_block (target : Z) (result : bytes) (st : t) : t :=
  mk (port st) ({[ target ]} ∪ blocks st) (total_blocks st)
     (peers_known st) (allowed_peers st) (optimistic_peer st)
     (blocked_by st) (<[target := result]> (block_files st)).

Definition add_blocked_by (peer_port : Z) (st : t) : t :=
  mk (port st) (blocks st) (total_blocks st) (peers_known st)
     (allowed_peers st) (optimistic_peer st)
     ({[ peer_port ]} ∪ blocked_by st) (block_files st).

(** The loop over the candidates.  [request p b] is what
[_connect_peer] returns for a block request sent to [p]: the unpickled
reply, [None] when the exchange fails.  The flag is [downloaded]. *)
Fixpoint try_candidates (st : t) (peer_blocks : list (Z * gset Z))
    (target : Z) (request : Z → Z → option bytes) (cands : list Z)
    : bool * t :=
  match cands with
  | [] => (false, st)
  | peer_port :: rest =>
      if advertised peer_blocks peer_port target then
        match request peer_port target with
        | Some result =>
            if bytes_truthy result && negb (bool_decide (result = CHOKED))
            then (true, store_block target result st)
            else if bool_decide (result = CHOKED)
            then try_candidates (add_blocked_by peer_port st) peer_blocks
                   target request rest
            else try_candidates st peer_blocks target request rest
        | None => try_candidates st peer_blocks target request rest
        end
      else try_candidates st peer_blocks target request rest
  end.

(** One round of the loop of [download_blocks_loop].  [pick] is the draw
of [random.choice], [shuffle] the draws that arrange the candidates. *)
Definition download_round (st : t) (network : Z → option (list Z))
    (request : Z → Z → option bytes) (pick : nat) (shuffle : list nat)
    : bool * t :=
  let '(block_counts, peer_blocks, st) := _get_blocks_in_network st network in
  match _select_rarest_block st block_counts pick with
  | None => (false, st)
  | Some target =>
      let cands := candidates st in
      let cands := py_sample cands (length cands) shuffle in
      try_candidates st peer_blocks target request cands
  end.

(** The other peers, by port, as the network of a peer: a request is
answered by [_handle_request] of the peer listening on the port. *)
Definition list_answer (swarm : gmap Z t) (peer_port : Z)
    : option (list Z) :=
  srv ← swarm !! peer_port;
  match _handle_request srv list_request with
  | Some (reply_list l) => Some l
  | _ => None
  end.

Definition block_answer (swarm : gmap Z t) (requester_port : Z)
    (peer_port block_id : Z) : option bytes :=
  srv ← swarm !! peer_port;
  match _handle_request srv (block_request requester_port block_id) with
  | Some (reply_bytes d) => Some d
  | _ => None
  end.

End FinalPeer.

(** ** src/algoritmos_rarest_first_e_tit_for_tat/minibit/peer *)
Module AlgoPeer.

(** [d[k] = v] on a dictionary kept as the list of its items in insertion
order: an existing key keeps its place. *)
Fixpoint dict_set {V} (d : list (string * V)) (k : string) (v : V)
    : list (string * V) :=
  match d with
  | [] => [(k, v)]
  | (k', v') :: d' =>
      if String.eqb k' k then (k, v) :: d' else (k', v') :: dict_set d' k v
  end.

(** [TitForTat] of algorithms.py.  [download_rates] is sorted by value
in [_update_regular_unchoke], so the order of its items is kept. *)
Record TitForTat := mkTft {
  unchoked : gset string;
  optimistic_peer : option string;
  upload_rates : gmap string Z;
  download_rates : list (string * Z);
}.

(** [update_upload_rate]: the entry is overwritten, not accumulated. *)
Definition update_upload_rate (tft : TitForTat) (peer_id : string)
    (bytes_uploaded : Z) : TitForTat :=
  mkTft (unchoked tft) (optimistic_peer tft)
        (<[peer_id := bytes_uploaded]> (upload_rates tft))
        (download_rates tft).

(** [update_download_rate]: likewise. *)
Definition update_download_rate (tft : TitForTat) (peer_id : string)
    (bytes_downloaded : Z) : TitForTat :=
  mkTft (unchoked tft) (optimistic_peer tft) (upload_rates tft)
        (dict_set (download_rates tft) peer_id bytes_downloaded).

(** An item of a block list: [split_file] fills [self.blocks] with the
hex digests of the local blocks, [download_block] appends the integer
ids of the blocks fetched later. *)
Inductive block_entry :=
| block_hash (h : string)
| block_id_entry (n : Z).

Global Instance block_entry_eq_dec : EqDecision block_entry.
Proof. solve_decision. Defined.

(** An entry of [self.active_downloads]. *)
Record Download := mkDownload { dl_choked : bool; last_request : Q }.

(** An entry of [self.known_peers], as returned by the tracker. *)
Record PeerInfo := mkInfo {
  info_ip : string;
  info_port : Z;
  info_blocks : list block_entry;
}.

(** The peer of peer_node.py; [block_files] is the content of the files
[block_<id>.bin]. *)
Record t := mk {
  id : string;
  blocks : list block_entry;
  total_blocks : Z;
  known_peers : gmap string PeerInfo;
  tit_for_tat : TitForTat;
  active_downloads : gmap string Download;
  block_files : gmap Z bytes;
}.

Definition set_tit_for_tat (tft : TitForTat) (st : t) : t :=
  mk (id st) (blocks st) (total_blocks st) (known_peers st) tft
     (active_downloads st) (block_files st).

(** A decoded JSON message. *)
Inductive Message :=
| request_block (block_id : Z) (sender_id : string)
| choke (sender_id : string)
| unchoke (sender_id : string)
| other.

Definition set_choked (flag : bool) (peer_id : string) (st : t) : t :=
  mk (id st) (blocks st) (total_blocks st) (known_peers st)
     (tit_for_tat st)
     (match active_downloads st !! peer_id with
      | Some d =>
          <[peer_id := mkDownload flag (last_request d)]>
            (active_downloads st)
      | None => active_downloads st
      end)
     (block_files st).

(** [handle_request]: the bytes sent on the connection, if any, and the
new state.  When the block file cannot be read, the exception is
printed and nothing is sent. *)
Definition handle_request (st : t) (message : Message)
    : option bytes * t :=
  match message with
  | request_block block_id sender_id =>
      if bool_decide (block_id_entry block_id ∈ blocks st) then
        match block_files st !! block_id with
        | Some block_data =>
            (Some block_data,
             set_tit_for_tat
               (update_upload_rate (tit_for_tat st) sender_id
                  (Z.of_nat (length block_data))) st)
        | None => (None, st)
        end
      else (None, st)
  | choke peer_id => (None, set_choked true peer_id st)
  | unchoke peer_id => (None, set_choked false peer_id st)
  | other => (None, st)
  end.



(** [sorted(self.download_rates.items(), key=lambda x: x[1],
reverse=True)] *)
Definition sorted_peers (tft : TitForTat) : list (string * Z) :=
  py_sorted (λ a b, b.2 <=? a.2) (download_rates tft).


End AlgoPeer.

(** ** Reading a file in chunks *)

(** [f.read(size)] on the unread part [rest] of a file: the chunk and what
    is left.  A negative size reads to the end. *)
Definition file_read (size : Z) (rest : bytes) : bytes * bytes :=
  if size <? 0 then (rest, [])
  else (take (Z.to_nat size) rest, drop (Z.to_nat size) rest).

(** The chunks produced by the loop [while chunk := f.read(size)], which
    stops at the first empty chunk. *)
Equations? read_chunks (size : Z) (rest : bytes) : list bytes
    by wf (length rest) lt :=
  read_chunks size rest with inspect (file_read size rest) := {
    | exist _ ([], _) _ => [];
    | exist _ (chunk, rest') Heq => chunk :: read_chunks size rest' }.
Proof.
  clear read_chunks. subst chunk. unfold file_read in Heq.
  destruct (size <? 0).
  - injection Heq as -> <-. simpl. lia.
  - injection Heq as Hc <-. rewrite length_drop.
    destruct rest as [|b' rest]; [by rewrite take_nil in Hc|].
    destruct (Z.to_nat size); [done|simpl; lia].
Qed.

(** A file system: path to content. *)
Abbreviation files := (gmap string (list Byte.byte)).

(** [os.path.basename]: what follows the last ["/"]. *)
Fixpoint basename_from (acc s : string) : string :=
  match s with
  | EmptyString => acc
  | String c rest =>
      if Ascii.eqb c (Ascii.ascii_of_nat 47) then basename_from "" rest
      else basename_from (acc +:+ String c "") rest
  end.

Definition basename (path : string) : string := basename_from "" path.


(** The loop the assemblers share: each listed file is opened and read
in turn and its content written to the output; [None] when one of them
cannot be opened.  While the loop runs, the output file holds what its
buffered writer has passed on of the bytes [written],
[take (flushed written) written]: nothing right after it was opened. *)
Fixpoint append_loop (flushed : bytes → nat) (paths : list string)
    (output_path : string) (fs : files) (written : bytes) : option bytes :=
  match paths with
  | [] => Some written
  | path :: rest =>
      data ← <[output_path := take (flushed written) written]> fs !! path;
      append_loop flushed rest output_path fs (written ++ data)
  end.

(** Opening the output, the loop, and closing the output, which then
holds all that was written.  [writable] tells whether the output can be
opened for writing; [None] when it cannot, or when the loop raises. *)
Definition append_files (writable : bool) (flushed : bytes → nat)
    (paths : list string) (output_path : string) (fs : files)
    : option files :=
  if negb writable then None
  else
    written ← append_loop flushed paths output_path fs [];
    Some (<[output_path := written]> fs).

(** ** src/minibit-final/utils/utils.py *)
Module Utils.

(** [f"{folder}/{file_name}_block_{index}"] *)
Definition block_path (folder file_name : string) (index : Z) : string :=
  folder +:+ "/" +:+ file_name +:+ "_block_" +:+ pretty index.



End Utils.

(** ** src/minibit/peer/file_manager.py *)
Module FileManager.

(** [f"block_{block_id}.bin"] *)
Definition block_path (block_id : Z) : string :=
  "block_" +:+ pretty block_id +:+ ".bin".

Section WithHash.
(** [hashlib.sha256(block).hexdigest()] *)
Variable sha256_hex : bytes → string.

End WithHash.

(** [reconstruct_file]; [None] when it raises: [ValueError] for an
incomplete list, an output that cannot be opened, or a block file that
cannot be read. *)
Definition reconstruct_file {A} (writable : bool) (flushed : bytes → nat)
    (fs : files) (blocks : list A) (total_blocks : Z)
    (output_path : string) : option files :=
  if negb (Z.of_nat (length blocks) =? total_blocks) then None
  else append_files writable flushed (block_path <$> seqZ 0 total_blocks)
         output_path fs.

End FileManager.

(** ** src/minibit/src/common/file_utils.py: [FileUtils] *)
Module FileUtils.

(** [split_file_to_blocks]; [None] when the file cannot be opened. *)
Definition split_file_to_blocks (fs : files) (file_path : string)
    (block_size : Z) : option (list bytes) :=
  content ← fs !! file_path;
  Some (read_chunks block_size content).





End FileUtils.

(** ** Sequences of block-store operations *)
Module BlockStoreOps.
Import BlockManager.

(** The methods of [BlockManager] that change the manager or its files.
The others ([has_block], [get_missing_blocks], [get_block_rarity],
[get_completion_percentage], [is_complete], [get_bitfield]) only
read. *)
Inductive op :=
| op_split_file_into_blocks (file : option (string * bytes))
    (block_size : Z)
| op_add_block (write_ok : bool) (block_id : Z) (data : bytes)
| op_get_block (block_id : Z)
| op_reconstruct_file (output : Output)
| op_set_from_bitfield (bf : bitfield) (total : Z)
| op_cleanup.

Definition run_op (sha256_hex : bytes → string) (st : t) (o : op) : t :=
  match o with
  | op_split_file_into_blocks file block_size =>
      (split_file_into_blocks sha256_hex st file block_size).2
  | op_add_block write_ok block_id data =>
      (add_block sha256_hex write_ok st block_id data).2
  | op_get_block block_id => (get_block st block_id).2
  | op_reconstruct_file output => (reconstruct_file sha256_hex st output).2
  | op_set_from_bitfield bf total => set_from_bitfield st bf total
  | op_cleanup => cleanup st
  end.

Definition run (sha256_hex : bytes → string) (st : t) (ops : list op) : t :=
  foldl (run_op sha256_hex) st ops.

(** The operations other than [set_from_bitfield]. *)
Definition keeps_blocks (o : op) : bool :=
  match o with
  | op_set_from_bitfield _ _ => false
  | _ => true
  end.

(** The number of blocks [split_file_into_blocks] cuts the file into;
none when it raises. *)
Definition split_count (file : option (string * bytes)) (block_size : Z)
    : Z :=
  match file with
  | None => 0
  | Some (_, content) =>
      match py_range_step (Z.of_nat (length content)) block_size with
      | None => 0
      | Some starts => Z.of_nat (length starts)
      end
  end.

(** The operations that leave the copy of block [b] in memory as it is:
all but [set_from_bitfield] and a [split_file_into_blocks] that cuts a
block [b]. *)
Definition keeps_cached (b : Z) (o : op) : bool :=
  match o with
  | op_set_from_bitfield _ _ => false
  | op_split_file_into_blocks file block_size =>
      (b <? 0) || (split_count file block_size <=? b)
  | _ => true
  end.

(** Those that leave the block file of [b] as it is, too: not
[cleanup], and not a [reconstruct_file] whose output is that file. *)
Definition keeps_file (b : Z) (o : op) : bool :=
  keeps_cached b o
  && match o with
     | op_cleanup => false
     | op_reconstruct_file (own_block_file k _) => negb (k =? b)
     | _ => true
     end.

(** What a read of block [b] finds: the cached copy, else the file. *)
Definition stored (st : t) (b : Z) : option bytes :=
  match blocks_data st !! b with
  | Some d => Some d
  | None => block_files st !! b
  end.
End BlockStoreOps.

(** ** Sample data for the closed examples *)
Module Samples.

(** Stands for SHA-256 where an example needs a digest: the bytes
    themselves, read as a string. *)
Definition digest (d : bytes) : string := String.string_of_list_byte d.

(** A leecher that was told the file has two blocks and owns none. *)
Definition leecher : BlockManager.t :=
  BlockManager.set_from_bitfield (BlockManager.init "W") [] 2.

(** The same peer after it stored block 0. *)
Definition leecher_with_0 : BlockManager.t :=
  (BlockManager.add_block digest true leecher 0 [x00]%byte).2.

(** A seeder that split a file of two blocks of one byte, then a file of
one block. *)
Definition split_twice : BlockManager.t :=
  (BlockManager.split_file_into_blocks digest
     (BlockManager.split_file_into_blocks digest (BlockManager.init "S")
        (Some ("a.bin", [x01; x02]%byte)) 1).2
     (Some ("b.bin", [x03]%byte)) 1).2.

(** A seeder that cut a file into two blocks of one byte, was told by a
bitfield that the file has three blocks of which it owns block 0, took
block 2 and was started anew: blocks 0 and 2 are read into memory
again, block 1 stays in its file.  A second bitfield then lists the
three blocks as owned. *)
Definition disk_only : BlockManager.t :=
  BlockManager.set_from_bitfield
    (BlockManager.reopen
       (BlockStoreOps.run digest (BlockManager.init "S")
          [BlockStoreOps.op_split_file_into_blocks
             (Some ("a.bin", [x01; x02]%byte)) 1;
           BlockStoreOps.op_set_from_bitfield [128] 3;
           BlockStoreOps.op_add_block true 2 [x03]%byte]))
    [224] 3.

(** The original content of block 0 and a tampered copy. *)
Definition genuine : bytes := [x01]%byte.
Definition tampered : bytes := [x02]%byte.

(** Peer X of the algoritmos variant: it fetched block 2 earlier, has
unchoked nobody and has no optimistic peer. *)
Definition peer_x : AlgoPeer.t :=
  AlgoPeer.mk "X" [AlgoPeer.block_hash "ab"; AlgoPeer.block_id_entry 2] 3
    ∅ (AlgoPeer.mkTft ∅ None ∅ []) ∅ {[ 2 := [x07; x08]%byte ]}.

(** A run of the choke controller of peer X with the default four slots
and five connected, interested peers. *)
Definition swarm : list string := ["A"; "B"; "C"; "D"; "E"].

Definition ctl_start : Strategies.t :=
  foldl (λ st p, Strategies.set_peer_interested st p true)
        (Strategies.init "X" Strategies.default_max_unchoked 0%Q) swarm.

(** Both ticks at 10 s, 20 s and 30 s; the optimistic one fires at 30 s. *)
Definition ctl_tick (st : Strategies.t) (now : Q) : Strategies.t :=
  (Strategies.select_optimistic_unchoke
     (Strategies.update_unchoked_peers st now swarm).2 now swarm 0).2.

Definition ctl_at_30 : Strategies.t :=
  ctl_tick (ctl_tick (ctl_tick ctl_start 10%Q) 20%Q) 30%Q.

(** A block of 1024 bytes arrives from the optimistic peer at 31 s; the
next regular tick is at 40 s. *)
Definition ctl_at_40 : Strategies.t :=
  (Strategies.update_unchoked_peers
     (Strategies.record_download ctl_at_30 31%Q "A" 0 1024 true)
     40%Q swarm).2.

(** A scheduler that knows one peer, P, which advertises block 1 only. *)
Definition one_peer_has_1 : Strategies.t :=
  Strategies.set_peer_blocks {[ "P" := {[ 1 ]} ]}
    (Strategies.init "X" Strategies.default_max_unchoked 0%Q).



(** A controller with one slot and two interested peers.  A sent 2000
bytes at 0 s and 30 bytes at 100 s, B sent 3 bytes at 100 s; nothing
was sent to either. *)
Definition rounding_pair : Strategies.t :=
  Strategies.record_download
    (Strategies.record_download
       (Strategies.record_download
          (foldl (λ st p, Strategies.set_peer_interested st p true)
                 (Strategies.init "X" 1 0%Q) ["A"; "B"])
          0%Q "A" 0 2000 true)
       100%Q "A" 1 30 true)
    100%Q "B" 0 3 true.


(** A file of five bytes, to be cut into blocks of two. *)
Definition five_bytes : bytes := [x0a; x0b; x0c; x0d; x0e]%byte.

Definition disk : files := {[ "data/f.bin" := five_bytes ]}.


(** The same peer of the algoritmos variant right after start-up: its
block list holds the digests computed by [split_file] and no block id. *)
Definition peer_x_fresh : AlgoPeer.t :=
  AlgoPeer.mk "X" [AlgoPeer.block_hash "ab"; AlgoPeer.block_hash "cd"] 2
    ∅ (AlgoPeer.mkTft ∅ None ∅ []) ∅
    {[ 0 := [x05; x06]%byte; 1 := [x07]%byte ]}.

(** Peer 0 of minibit-final (port 9000): it owns block 2, has unchoked
port 9001 and has no optimistic peer. *)
Definition final_x : FinalPeer.t :=
  FinalPeer.mk 9000 {[ 2 ]} 3 {[ 9001; 9002 ]} {[ 9001 ]} None ∅
    {[ 2 := [x07; x08]%byte ]}.

(** The state on which the optimistic tick at 30 s runs. *)
Definition ctl_before_optimistic : Strategies.t :=
  (Strategies.update_unchoked_peers
     (ctl_tick (ctl_tick ctl_start 10%Q) 20%Q) 30%Q swarm).2.

End Samples.

(** ** Vocabulary of the scheduling statements *)
Module Ranking.

(** Block [a] goes before block [b] in the order of [select_rarest_blocks]:
fewer known holders, or as many and a smaller id. *)
Definition ranks_before (st : Strategies.t) (a b : Z) : Prop :=
  Strategies.holders st a < Strategies.holders st b
  ∨ (Strategies.holders st a = Strategies.holders st b ∧ a ≤ b).



End Ranking.

(** ** Vocabulary of the bitfield statements *)
Module Bits.



End Bits.

(** ** Sequences of calls on the choke controller *)
Module ChokeOps.
Import Strategies.

(** The calls a peer node makes on its [PeerStrategies] object. *)
Inductive op :=
| op_regular_tick (now : Q) (connected : list string)
| op_optimistic_tick (now : Q) (connected : list string) (pick : nat)
| op_record_download (now : Q) (peer : string) (block_id n : Z)
    (success : bool)
| op_record_upload (now : Q) (peer : string) (block_id n : Z)
| op_update_peer_blocks (peer : string) (blocks : gset Z)
| op_add_peer_block (peer : string) (block_id : Z)
| op_set_peer_interested (peer : string) (flag : bool)
| op_should_request (now : Q) (peer : string) (block_id : Z)
| op_remove_peer (peer : string).

Definition run_op (st : t) (o : op) : t :=
  match o with
  | op_regular_tick now connected => (update_unchoked_peers st now connected).2
  | op_optimistic_tick now connected pick =>
      (select_optimistic_unchoke st now connected pick).2
  | op_record_download now peer block_id n success =>
      record_download st now peer block_id n success
  | op_record_upload now peer block_id n =>
      record_upload st now peer block_id n
  | op_update_peer_blocks peer blocks => update_peer_blocks st peer blocks
  | op_add_peer_block peer block_id => add_peer_block st peer block_id
  | op_set_peer_interested peer flag => set_peer_interested st peer flag
  | op_should_request now peer block_id =>
      (should_request_from_peer st now peer block_id).2
  | op_remove_peer peer => remove_peer st peer
  end.

Definition run (st : t) (ops : list op) : t := foldl run_op st ops.

(** The call [set_peer_interested(p, True)]. *)
Definition declares_interest (p : string) (o : op) : bool :=
  match o with
  | op_set_peer_interested q true => bool_decide (q = p)
  | _ => false
  end.

(** A peer that is neither interested nor unchoked in any way. *)
Definition quiet (st : t) (p : string) : Prop :=
  ((p ∉ interested_peers st) ∧ (p ∉ unchoked_peers st))
  ∧ optimistic_unchoke_peer st ≠ Some p.

(** A controller that knows peer A as interested, and six failed
requests, one per second. *)
Definition knows_a : t := set_peer_interested (init "X" 4 0%Q) "A" true.

Definition six_failures : list (Q * Z * Z) :=
  [(1%Q, 0, 0); (2%Q, 0, 0); (3%Q, 0, 0); (4%Q, 0, 0); (5%Q, 0, 0);
   (6%Q, 0, 0)].

End ChokeOps.

(** ** src/minibit/src/tracker/tracker_server.py *)
Module TrackerServer.

Definition TRACKER_MAX_PEERS_RETURNED : Z := 5.
Definition HEARTBEAT_INTERVAL : Z := 30.

Record PeerInfo := mkInfo {
  peer_id : string;
  host : option string;
  port : option Z;
  file_hash : string;
  last_heartbeat : Q;
  initial_blocks : list Z;
}.

(** [is_alive] with its default timeout; [now] is the clock reading. *)
Definition is_alive (info : PeerInfo) (now : Q) : bool :=
  Qltb (now - last_heartbeat info) (inject_Z (HEARTBEAT_INTERVAL * 2)).

(** The tables of the tracker. *)
Record t := mk {
  peers : gmap string PeerInfo;
  file_peers : gmap string (gset string);
}.

Definition init : t := mk ∅ ∅.

(** The fields of [message.data] that the handlers read, with the types
the client of tracker_api.py gives them; an absent field is [None]. *)
Record Data := mkData {
  d_host : option string;
  d_port : option Z;
  d_file_hash : option string;
  d_total_blocks : option Z;
  d_max_peers : option Z;
}.

Record Message := mkMessage {
  type : string;
  msg_peer_id : string;
  data : Data;
}.

(** An entry of the list ['peers'] of a reply. *)
Record PeerEntry := mkEntry {
  e_peer_id : string;
  e_host : option string;
  e_port : option Z;
}.

(** The replies, by type, with the fields of their [data] other than the
text under ['message']. *)
Inductive Response :=
| register_response (success : bool) (initial_blocks : list Z)
| get_peers_response (peers : list PeerEntry) (total_peers : Z)
| remove_response (success : bool)
| heartbeat_response (success : bool).

(** [_generate_initial_blocks]; [None] when [random.sample] raises.
[draw] is the draw of [random.randint], [picks] those of
[random.sample]. *)
Definition _generate_initial_blocks (total_blocks : Z) (draw : nat)
    (picks : list nat) : option (list Z) :=
  let min_blocks := Z.max 1 (total_blocks `div` 5) in
  let max_blocks := Z.max min_blocks (total_blocks `div` 2) in
  let num_blocks := py_randint min_blocks max_blocks draw in
  let population := seqZ 0 total_blocks in
  if (num_blocks <? 0) || (Z.of_nat (length population) <? num_blocks)
  then None
  else Some (py_sample population (Z.to_nat num_blocks) picks).

(** [_handle_register_peer]; [None] when an exception escapes, which
happens before any table is written. *)
Definition _handle_register_peer (st : t) (now : Q) (message : Message)
    (draw : nat) (picks : list nat) : option (Response * t) :=
  let peer_id := msg_peer_id message in
  let file_hash := default "default" (d_file_hash (data message)) in
  let total_blocks := default 10 (d_total_blocks (data message)) in
  initial_blocks ← _generate_initial_blocks total_blocks draw picks;
  let peer_info :=
    mkInfo peer_id (d_host (data message)) (d_port (data message))
           file_hash now initial_blocks in
  let group := default ∅ (file_peers st !! file_hash) in
  Some (register_response true initial_blocks,
        mk (<[peer_id := peer_info]> (peers st))
           (<[file_hash := {[ peer_id ]} ∪ group]> (file_peers st))).

(** The list [available_peers] of [_handle_get_peers]. *)
Definition available_peers (st : t) (now : Q) (requesting_peer : string)
    (file_hash : string) : list PeerEntry :=
  match file_peers st !! file_hash with
  | None => []
  | Some group =>
      omap (λ peer_id,
              if bool_decide (peer_id ≠ requesting_peer) then
                match peers st !! peer_id with
                | Some peer_info =>
                    if is_alive peer_info now
                    then Some (mkEntry peer_id (host peer_info)
                                 (port peer_info))
                    else None
                | None => None
                end
              else None)
           (elements group)
  end.

(** [_handle_get_peers]; [None] when [random.sample] raises (a negative
[max_peers]).  No table is written. *)
Definition _handle_get_peers (st : t) (now : Q) (message : Message)
    (picks : list nat) : option Response :=
  let requesting_peer := msg_peer_id message in
  let file_hash := default "default" (d_file_hash (data message)) in
  let max_peers :=
    Z.min (default TRACKER_MAX_PEERS_RETURNED (d_max_peers (data message)))
          TRACKER_MAX_PEERS_RETURNED in
  let available := available_peers st now requesting_peer file_hash in
  let total_peers :=
    Z.of_nat (size (default ∅ (file_peers st !! file_hash))) in
  if max_peers <? Z.of_nat (length available) then
    if max_peers <? 0 then None
    else Some (get_peers_response
                 (py_sample available (Z.to_nat max_peers) picks)
                 total_peers)
  else Some (get_peers_response available total_peers).

(** What [_handle_remove_peer] and [_cleanup_inactive_peers] do to the
tables for a registered peer. *)
Definition drop_peer (st : t) (peer_id : string) (peer_info : PeerInfo)
    : t :=
  let file_hash := file_hash peer_info in
  mk (delete peer_id (peers st))
     (match file_peers st !! file_hash with
      | Some group =>
          let group := group ∖ {[ peer_id ]} in
          if bool_decide (group = ∅) then delete file_hash (file_peers st)
          else <[file_hash := group]> (file_peers st)
      | None => file_peers st
      end).

(** [_handle_remove_peer] *)
Definition _handle_remove_peer (st : t) (message : Message)
    : Response * t :=
  let peer_id := msg_peer_id message in
  match peers st !! peer_id with
  | Some peer_info => (remove_response true, drop_peer st peer_id peer_info)
  | None => (remove_response false, st)
  end.

(** [_handle_heartbeat] *)
Definition _handle_heartbeat (st : t) (now : Q) (message : Message)
    : Response * t :=
  let peer_id := msg_peer_id message in
  match peers st !! peer_id with
  | Some i =>
      (heartbeat_response true,
       mk (<[peer_id := mkInfo (TrackerServer.peer_id i) (host i) (port i)
                          (file_hash i) now (initial_blocks i)]> (peers st))
          (file_peers st))
  | None => (heartbeat_response false, st)
  end.

(** One round of [_cleanup_inactive_peers] after the sleep. *)
Definition _cleanup_inactive_peers (st : t) (now : Q) : t :=
  let inactive_peers :=
    map fst (filter (λ kv : string * PeerInfo,
                       is_alive kv.2 now = false)
                    (map_to_list (peers st))) in
  foldl (λ st peer_id,
           match peers st !! peer_id with
           | Some peer_info => drop_peer st peer_id peer_info
           | None => st
           end)
        st inactive_peers.

(** [_process_message]: the reply, if any, and the tables. *)
Definition _process_message (st : t) (now : Q) (message : Message)
    (draw : nat) (picks : list nat) : option Response * t :=
  if String.eqb (type message) "register_peer" then
    match _handle_register_peer st now message draw picks with
    | Some (r, st') => (Some r, st')
    | None => (None, st)
    end
  else if String.eqb (type message) "get_peers" then
    (_handle_get_peers st now message picks, st)
  else if String.eqb (type message) "remove_peer" then
    let r := _handle_remove_peer st message in (Some r.1, r.2)
  else if String.eqb (type message) "heartbeat" then
    let r := _handle_heartbeat st now message in (Some r.1, r.2)
  else (None, st).

(** What happens to a running tracker: a message arrives, or the cleanup
thread wakes up. *)
Inductive event :=
| ev_message (now : Q) (message : Message) (draw : nat) (picks : list nat)
| ev_cleanup (now : Q).

Definition step (st : t) (e : event) : t :=
  match e with
  | ev_message now message draw picks =>
      (_process_message st now message draw picks).2
  | ev_cleanup now => _cleanup_inactive_peers st now
  end.

Definition run (events : list event) : t := foldl step init events.

(** The tables agree: a registered peer is recorded under its own id and
is a member of the group of its file, and no group is empty. *)
Definition consistent (st : t) : Prop :=
  (∀ p info, peers st !! p = Some info →
     peer_id info = p
     ∧ ∃ group, file_peers st !! file_hash info = Some group ∧ p ∈ group)
  ∧ (∀ h group, file_peers st !! h = Some group → group ≠ ∅).

End TrackerServer.

(** ** src/minibit-final/tracker/tracker.py *)
Module FinalTracker.

Definition TRACKER_TIMEOUT : Z := 40.
Definition MAX_UNCHOKED : nat := 4.

(** [active_peers]: port to the time it was last seen. *)
Abbreviation t := (gmap Z Q).

(** One round of [remove_inactive_peers] after the sleep. *)
Definition remove_inactive_peers (active_peers : t) (now : Q) : t :=
  let to_remove :=
    map fst (filter (λ kv : Z * Q,
                       Is_true (Qltb (inject_Z TRACKER_TIMEOUT)
                                     (now - kv.2)))
                    (map_to_list active_peers)) in
  foldl (λ m port, delete port m) active_peers to_remove.

(** [handle_peer_connection]: the list sent back and the new table.
[picks] are the draws of [random.sample]. *)
Definition handle_peer_connection (active_peers : t) (now : Q)
    (peer_port : Z) (picks : list nat) : list Z * t :=
  let active_peers := <[peer_port := now]> active_peers in
  let other_peers := elements (dom active_peers ∖ {[ peer_port ]}) in
  let num_return := (MAX_UNCHOKED `min` length other_peers)%nat in
  (py_sample other_peers num_return picks, active_peers).

End FinalTracker.

(** ** Two peers of minibit-final for the closed examples *)
Module FinalSamples.

(** Peer 0 owns nothing of a one-block file and has unchoked peer 1;
peer 1 owns the block and has unchoked peer 0. *)
Definition requester : FinalPeer.t :=
  FinalPeer.mk 9000 ∅ 1 {[ 9001 ]} {[ 9001 ]} None ∅ ∅.

Definition server : FinalPeer.t :=
  FinalPeer.mk 9001 {[ 0 ]} 1 {[ 9000 ]} {[ 9000 ]} None ∅
    {[ 0 := [x07]%byte ]}.

Definition others : gmap Z FinalPeer.t := {[ 9001 := server ]}.

(** A peer that has not contacted the tracker yet. *)
Definition newcomer : FinalPeer.t :=
  FinalPeer.mk 9002 ∅ 1 ∅ ∅ None ∅ ∅.

End FinalSamples.

(** ** What a restart of the block store can see *)
Module BlockStoreView.
Import BlockManager.

(** The attributes that [_save_state] writes, and the saved document. *)
Definition attrs (st : t) :=
  (peer_id st, blocks_owned st, total_blocks st, block_size st,
   file_name st, file_hash st, state_json st).

(** [state.json] describes the store. *)
Definition saved (st : t) : Prop :=
  state_json st
  = Some (mkSaved (peer_id st) (elements (blocks_owned st))
            (total_blocks st) (block_size st) (file_name st)
            (file_hash st)).

End BlockStoreView.

(** ** src/minibit/src/common/file_utils.py: sizes and [FileInfo] objects *)
Module FileInfoObject.
Section WithHash.
(** [hashlib.sha256(data).hexdigest()] *)
Variable sha256_hex : bytes → string.

(** [FileUtils.get_file_size]; [None] when the file does not exist. *)
Definition get_file_size (fs : files) (file_path : string) : option Z :=
  content ← fs !! file_path;
  Some (Z.of_nat (length content)).

(** [FileUtils.calculate_total_blocks]; [None] when it raises (a missing
file, or a division by zero). *)
Definition calculate_total_blocks (fs : files) (file_path : string)
    (block_size : Z) : option Z :=
  file_size ← get_file_size fs file_path;
  if block_size =? 0 then None
  else Some ((file_size + block_size - 1) `div` block_size).

(** [FileUtils.calculate_file_hash]: the file is fed to one hash object
in chunks of 4096 bytes. *)
Definition calculate_file_hash (fs : files) (file_path : string)
    : option string :=
  content ← fs !! file_path;
  Some (sha256_hex (concat (read_chunks 4096 content))).

(** The attributes of a [FileInfo]. *)
Record t := mk {
  file_path : string;
  file_name : string;
  file_size : Z;
  file_hash : string;
  block_size : Z;
  total_blocks : Z;
  blocks : list bytes;
  block_hashes : list string;
}.

(** [FileInfo.__init__]; [None] when one of the calls raises. *)
Definition init (fs : files) (file_path : string) (block_size : Z)
    : option t :=
  file_size ← get_file_size fs file_path;
  file_hash ← calculate_file_hash fs file_path;
  total_blocks ← calculate_total_blocks fs file_path block_size;
  blocks ← FileUtils.split_file_to_blocks fs file_path block_size;
  Some (mk file_path (basename file_path) file_size file_hash block_size
           total_blocks blocks (sha256_hex <$> blocks)).

(** [FileInfo.get_block_data] *)
Definition get_block_data (fi : t) (block_id : Z) : option bytes :=
  if (0 <=? block_id) && (block_id <? Z.of_nat (length (blocks fi)))
  then blocks fi !! Z.to_nat block_id
  else None.

(** [FileInfo.validate_block] on the object. *)
Definition validate_block (fi : t) (block_id : Z) (block_data : bytes)
    : bool :=
  FileInfo.validate_block sha256_hex (block_hashes fi) block_id block_data.

End WithHash.
End FileInfoObject.

(** ** Dictionaries whose order of insertion matters *)

(** A Python [dict] as the list of its items in insertion order.
[assoc_update f k d] is [d[k] = f(d.get(k))]: an existing key keeps its
place, a new one goes last. *)
Fixpoint assoc_update {K V} `{EqDecision K} (f : option V → V) (k : K)
    (d : list (K * V)) : list (K * V) :=
  match d with
  | [] => [(k, f None)]
  | (k', v) :: d' =>
      if decide (k' = k) then (k, f (Some v)) :: d'
      else (k', v) :: assoc_update f k d'
  end.

(** [d.get(k)] *)
Fixpoint assoc_get {K V} `{EqDecision K} (k : K) (d : list (K * V))
    : option V :=
  match d with
  | [] => None
  | (k', v) :: d' => if decide (k' = k) then Some v else assoc_get k d'
  end.

(** [Counter(items)], also [c[x] += 1] for each item on a
[defaultdict(int)]. *)
Definition py_counter {K} `{EqDecision K} (items : list K) : list (K * Z) :=
  foldl (λ c x, assoc_update (λ o, default 0 o + 1) x c) [] items.

(** [min(x :: l, key=key)]: the first of the least items. *)
Definition py_min_by {A} (key : A → Z) (x : A) (l : list A) : A :=
  foldl (λ m y, if key y <? key m then y else m) x l.

(** The number of times [x] occurs in [l]. *)
Definition occurrences {K} `{EqDecision K} (x : K) (l : list K) : Z :=
  Z.of_nat (length (filter (λ y, y = x) l)).

(** ** src/funcionalidade_peers/peer_algorithms.py *)
Module PeerAlgorithms.

Definition MAX_FIXED_UNCHOKES : nat := 4.

(** An entry of [peers_known]: the fields ["peer_id"] and ["blocks"]. *)
Record PeerEntry := mkEntry { e_peer_id : string; e_blocks : list Z }.

Record t := mk {
  peer_id : string;
  blocks : list Z;
  peers_known : list PeerEntry;
  unchoked_peers : gset string;
  optimistic_peer : option string;
}.

(** [__init__] *)
Definition init (peer_id : string) (blocks : list Z) : t :=
  mk peer_id blocks [] ∅ None.

(** [update_peers] *)
Definition update_peers (st : t) (peers_known : list PeerEntry)
    (current_blocks : list Z) : t :=
  mk (peer_id st) current_blocks peers_known (unchoked_peers st)
     (optimistic_peer st).

(** [todos_blocos] *)
Definition todos_blocos (st : t) : list Z :=
  concat (e_blocks <$> peers_known st).

(** [calcular_blocos_raros] *)
Definition calcular_blocos_raros (st : t) : option Z :=
  let contagem := py_counter (todos_blocos st) in
  let blocos_necessarios :=
    filter (λ b, b ∉ blocks st) (contagem.*1) in
  match blocos_necessarios with
  | [] => None
  | b :: rest =>
      Some (py_min_by (λ b, default 0 (assoc_get b contagem)) b rest)
  end.

(** The dictionary [peer_scores] of a round of [tit_for_tat]. *)
Definition peer_scores (st : t) : list (string * Z) :=
  foldl (λ scores peer,
           let raros := filter (λ b, b ∉ blocks st) (e_blocks peer) in
           assoc_update (λ _, Z.of_nat (length raros)) (e_peer_id peer)
             scores)
        [] (peers_known st).

(** One round of the loop of [tit_for_tat] after the sleep; [pick] is
the draw of [random.choice]. *)
Definition tit_for_tat_round (st : t) (pick : nat) : t :=
  let scores := peer_scores st in
  let get p := default 0 (assoc_get p scores) in
  let top_peers :=
    take MAX_FIXED_UNCHOKES
         (py_sorted (λ a b, get b <=? get a) (scores.*1)) in
  let unchoked : gset string := list_to_set top_peers in
  let restantes := elements (list_to_set (scores.*1) ∖ unchoked) in
  mk (peer_id st) (blocks st) (peers_known st) unchoked
     (restantes !! (pick `mod` length restantes)%nat).

End PeerAlgorithms.

(** ** src/algoritmos_rarest_first_e_tit_for_tat/minibit/peer: the
download side *)
Module AlgoSwarm.
Import AlgoPeer.

(** [heapq.nsmallest(n, items, key=key)]: the first [n] of the stable
sort, and nothing for [n <= 0]. *)
Definition nsmallest {A} (n : Z) (key : A → Z) (items : list A) : list A :=
  if n <=? 0 then []
  else take (Z.to_nat n) (py_sorted (λ a b, key a <=? key b) items).

(** The blocks advertised by the known peers, peer after peer;
[known_peers] is [peer.known_peers.items()], in the order of the
dictionary. *)
Definition advertised_blocks (known_peers : list (string * PeerInfo))
    : list block_entry :=
  concat ((λ kv : string * PeerInfo, info_blocks kv.2) <$> known_peers).

(** [available_peers[block]]: one entry for each time a peer lists the
block. *)
Definition available_peers (known_peers : list (string * PeerInfo))
    (block : block_entry) : list string :=
  concat ((λ kv : string * PeerInfo,
             (λ _, kv.1) <$> filter (λ b, b = block) (info_blocks kv.2))
            <$> known_peers).

(** [RarestFirst.select_blocks], on the two attributes of [peer] it
reads: [peer.known_peers.items()] and [peer.blocks].  [None] stands for
[(None, None)]. *)
Definition select_blocks (known_peers : list (string * PeerInfo))
    (blocks : list block_entry) (count : Z)
    : option (list block_entry * list (block_entry * list string)) :=
  let block_counts := py_counter (advertised_blocks known_peers) in
  let missing := filter (λ b, b ∉ blocks) (block_counts.*1) in
  match missing with
  | [] => None
  | _ =>
      let rarest :=
        nsmallest count (λ x, default 0 (assoc_get x block_counts))
                  missing in
      Some (rarest,
            (λ block, (block, available_peers known_peers block))
              <$> rarest)
  end.

Definition set_active_downloads (v : gmap string Download) (st : t) : t :=
  mk (id st) (blocks st) (total_blocks st) (known_peers st)
     (tit_for_tat st) v (block_files st).

(** [download_block].  [now] is the clock reading; [reply] is what the
exchange with the peer yields: the bytes received until the connection
is closed, [None] when an exception is raised. *)
Definition download_block (st : t) (now : Q) (block_id : Z)
    (peer_id : string) (reply : option bytes) : t :=
  if bool_decide (block_id_entry block_id ∈ blocks st)
     || bool_decide (known_peers st !! peer_id = None)
  then st
  else
    let st :=
      match active_downloads st !! peer_id with
      | Some _ => st
      | None =>
          set_active_downloads
            (<[peer_id := mkDownload true 0%Q]> (active_downloads st)) st
      end in
    let entry := default (mkDownload true 0%Q)
                         (active_downloads st !! peer_id) in
    if dl_choked entry || Qltb (now - last_request entry) 1 then st
    else
      let st :=
        match reply with
        | Some data =>
            if bytes_truthy data then
              mk (id st) (blocks st ++ [block_id_entry block_id])
                 (total_blocks st) (known_peers st)
                 (update_download_rate (tit_for_tat st) peer_id
                    (Z.of_nat (length data)))
                 (active_downloads st)
                 (<[block_id := data]> (block_files st))
            else st
        | None => st
        end in
      set_active_downloads
        (<[peer_id := mkDownload (dl_choked entry) now]>
           (active_downloads st)) st.

(** The attributes of [TitForTat] that time the ticks, beside the peer
that owns the object. *)
Record Clock := mkClock {
  peer : t;
  last_optimistic : Q;
  last_unchoke_update : Q;
  optimistic_interval : Q;
  unchoke_history : gmap string (list Q);
}.

(** [min(self.unchoke_history.get(p, [0]))] *)
Definition first_unchoke (history : gmap string (list Q)) (p : string) : Q :=
  match default [0%Q] (history !! p) with
  | [] => 0%Q
  | x :: l => Qmin_list x l
  end.

(** [all_peers - tried_peers] *)
Definition untried_peers (c : Clock) : gset string :=
  dom (known_peers (peer c)) ∖ dom (unchoke_history c).

(** The candidates of [_update_optimistic_unchoke]. *)
Definition optimistic_candidates (c : Clock) : list string :=
  match elements (untried_peers c) with
  | [] =>
      py_sorted (λ p q, Qle_bool (first_unchoke (unchoke_history c) p)
                                 (first_unchoke (unchoke_history c) q))
                (elements (dom (known_peers (peer c))))
  | candidates => candidates
  end.

(** [_update_optimistic_unchoke]; [pick] is the draw of
[random.choice], [now] the clock reading. *)
Definition _update_optimistic_unchoke (c : Clock) (now : Q) (pick : nat)
    : Clock :=
  let candidates := optimistic_candidates c in
  match candidates !! (pick `mod` length candidates)%nat with
  | None => c
  | Some p =>
      let tft := tit_for_tat (peer c) in
      mkClock
        (set_tit_for_tat
           (mkTft (unchoked tft) (Some p) (upload_rates tft)
                  (download_rates tft)) (peer c))
        (last_optimistic c) (last_unchoke_update c) (optimistic_interval c)
        (<[p := default [] (unchoke_history c !! p) ++ [now]]>
           (unchoke_history c))
  end.

(** Optimistic ticks one after the other, each with its clock reading
and its draw. *)
Definition optimistic_ticks (c : Clock) (ticks : list (Q * nat)) : Clock :=
  foldl (λ c t, _update_optimistic_unchoke c t.1 t.2) c ticks.

End AlgoSwarm.

(** A peer of the variant with nothing yet, that knows two others. *)
Module AlgoSamples.
Import AlgoPeer AlgoSwarm.

Definition leecher : t :=
  mk "a" [] 2
     (<["b" := mkInfo "127.0.0.1" 7001 [block_id_entry 0; block_id_entry 1]]>
        (<["c" := mkInfo "127.0.0.1" 7002 [block_id_entry 1]]> ∅))
     (mkTft ∅ None ∅ []) ∅ ∅.

Definition clock : Clock := mkClock leecher 0 0 30 ∅.

End AlgoSamples.

(** ** src/algoritmos_rarest_first_e_tit_for_tat/minibit/tracker/server.py *)
Module AlgoTracker.
Import AlgoPeer.

(** [active_peers], in insertion order. *)
Abbreviation t := (list (string * PeerInfo)).

(** [register_peer] *)
Definition register_peer (active_peers : t) (peer_id : string)
    (info : PeerInfo) : t :=
  assoc_update (λ _, info) peer_id active_peers.

(** [needed_blocks]: what some peer lists and the requester does not. *)
Definition needed_blocks (active_peers : t) (requesting_blocks
    : list block_entry) : list block_entry :=
  filter (λ b, b ∉ requesting_blocks)
         (remove_dups (concat ((λ kv : string * PeerInfo, info_blocks kv.2)
                                 <$> active_peers))).

(** [common_blocks] of a peer: a set, here without repetitions. *)
Definition common_blocks (needed : list block_entry) (info : PeerInfo)
    : list block_entry :=
  filter (λ b, b ∈ needed) (remove_dups (info_blocks info)).

(** [useful_peers], in insertion order. *)
Definition useful_peers (active_peers : t) (requesting_peer : string)
    (needed : list block_entry) : t :=
  filter (λ kv : string * PeerInfo,
            kv.1 ≠ requesting_peer ∧ common_blocks needed kv.2 ≠ [])
         active_peers.

Section WithFloat.
(** The scores are Python floats: [fzero] is the [0] of
[defaultdict(int)], [frecip n] is [1 / n], [fadd] is [+] and [fle] is
[<=].  [set_order] is the order in which a [set] of blocks is
traversed. *)
Context {F : Type} (fzero : F) (frecip : nat → F) (fadd : F → F → F)
        (fle : F → F → bool)
        (set_order : list block_entry → list block_entry).

(** [block_distribution]: for each common block, the useful peers that
list it. *)
Definition block_distribution (useful : t) (needed : list block_entry)
    : list (block_entry * list string) :=
  foldl (λ dist kv,
           foldl (λ dist block,
                    assoc_update (λ o, default [] o ++ [kv.1]) block dist)
                 dist (set_order (common_blocks needed kv.2)))
        [] useful.

(** [peer_scores] *)
Definition peer_scores (dist : list (block_entry * list string))
    : list (string * F) :=
  foldl (λ scores bp,
           let rarity := frecip (length bp.2) in
           foldl (λ scores p,
                    assoc_update (λ o, fadd (default fzero o) rarity)
                                 p scores)
                 scores bp.2)
        [] dist.

(** [get_peers]: [None] is the answer with status 400;
[requesting_peer] is [request.args.get("peer_id")]. *)
Definition get_peers (active_peers : t) (requesting_peer : option string)
    : option t :=
  match requesting_peer with
  | None => None
  | Some requesting_peer =>
      match assoc_get requesting_peer active_peers with
      | None => None
      | Some info =>
          let needed := needed_blocks active_peers (info_blocks info) in
          let useful := useful_peers active_peers requesting_peer needed in
          let scores := peer_scores (block_distribution useful needed) in
          let score p := default fzero (assoc_get p scores) in
          let sorted_peers :=
            py_sorted (λ a b : string * PeerInfo,
                         fle (score b.1) (score a.1)) useful in
          let max_peers := (50 `min` length sorted_peers)%nat in
          Some (take max_peers sorted_peers)
      end
  end.

End WithFloat.

End AlgoTracker.

(** ** src/minibit/src/peer/communication.py: reading from the socket *)
Module PeerSocket.

(** What a call of [socket.recv] does: it hands over the bytes that have
arrived, at least one and at most [S k] of them, or it raises. *)
Inductive recv_outcome :=
| Deliver (k : nat)
| Raise.

Global Instance recv_outcome_eq_dec : EqDecision recv_outcome.
Proof. solve_decision. Defined.

(** The socket as its reader sees it: the bytes the other side sends
before it closes the connection, and the outcomes of the calls of
[recv] to come.  Once the outcomes are used up, a call hands over all
that it may. *)
Record Socket := mkSocket {
  pending : bytes;
  outcomes : list recv_outcome;
}.

(** [socket.recv(bufsize)]: [None] when it raises, [b''] when the other
side has closed and nothing is left. *)
Definition recv (s : Socket) (bufsize : Z) : option bytes * Socket :=
  match outcomes s with
  | Raise :: rest => (None, mkSocket (pending s) rest)
  | Deliver k :: rest =>
      let n := (Z.to_nat bufsize `min` S k)%nat in
      (Some (take n (pending s)), mkSocket (drop n (pending s)) rest)
  | [] =>
      let n := Z.to_nat bufsize in
      (Some (take n (pending s)), mkSocket (drop n (pending s)) [])
  end.

(** The loop of [_recv_exact]; every turn but the last adds a byte at
least, so [fuel] turns are enough when [fuel] is [size - len(data)]. *)
Fixpoint recv_loop (fuel : nat) (size : Z) (data : bytes) (s : Socket)
    : option bytes * Socket :=
  if Z.of_nat (length data) <? size then
    match fuel with
    | O => (None, s)
    | S fuel =>
        match recv s (size - Z.of_nat (length data)) with
        | (None, s) => (None, s)
        | (Some chunk, s) =>
            if bytes_truthy chunk then recv_loop fuel size (data ++ chunk) s
            else (None, s)
        end
    end
  else (Some data, s).

(** [_recv_exact] *)
Definition _recv_exact (s : Socket) (size : Z) : option bytes * Socket :=
  recv_loop (Z.to_nat size) size [] s.

End PeerSocket.

(** * Properties *)

(** ** Sorting *)
Section PySorted.
Context {A : Type} (leb : A → A → bool).

Lemma sorted_insert_perm x l : sorted_insert leb x l ≡ₚ x :: l.
Proof.
  induction l as [|y l IH]; simpl; [done|].
  destruct (leb x y); [done|]. rewrite IH. apply Permutation_swap.
Qed.

Lemma py_sorted_perm l : py_sorted leb l ≡ₚ l.
Proof.
  induction l as [|x l IH]; simpl; [done|].
  fold (py_sorted leb l). by rewrite sorted_insert_perm, IH.
Qed.

Lemma py_sorted_elem_of x l : x ∈ py_sorted leb l ↔ x ∈ l.
Proof. by rewrite py_sorted_perm. Qed.

Lemma py_sorted_length l : length (py_sorted leb l) = length l.
Proof. by rewrite py_sorted_perm. Qed.

Hypothesis leb_total : ∀ x y, leb x y = true ∨ leb y x = true.
Hypothesis leb_trans :
  ∀ x y z, leb x y = true → leb y z = true → leb x z = true.

Lemma sorted_insert_sorted x l :
  StronglySorted (λ a b, leb a b = true) l →
  StronglySorted (λ a b, leb a b = true) (sorted_insert leb x l).
Proof.
  induction 1 as [|y l Hs IH Hall]; simpl.
  - repeat constructor.
  - destruct (leb x y) eqn:Hxy.
    + constructor; [by constructor|]. constructor; [done|].
      eapply Forall_impl; [exact Hall|]. intros z Hz. by eapply leb_trans.
    + constructor; [done|].
      rewrite sorted_insert_perm. constructor; [|done].
      destruct (leb_total x y); congruence.
Qed.

Lemma py_sorted_sorted l :
  StronglySorted (λ a b, leb a b = true) (py_sorted leb l).
Proof.
  induction l as [|x l IH]; simpl; [constructor|].
  by apply sorted_insert_sorted.
Qed.

(** In a sorted list every item of a prefix goes before every item of
the rest. *)
Lemma py_sorted_take_drop n l x y :
  x ∈ take n (py_sorted leb l) → y ∈ drop n (py_sorted leb l) →
  leb x y = true.
Proof.
  intros Hx Hy. pose proof (py_sorted_sorted l) as Hs.
  rewrite <- (take_drop n (py_sorted leb l)) in Hs.
  by eapply (StronglySorted_app_1_elem_of _ _ _ x y Hs).
Qed.

Lemma py_sorted_take_sorted n l :
  StronglySorted (λ a b, leb a b = true) (take n (py_sorted leb l)).
Proof.
  pose proof (py_sorted_sorted l) as Hs.
  rewrite <- (take_drop n (py_sorted leb l)) in Hs.
  by eapply StronglySorted_app_1_l.
Qed.

End PySorted.



Lemma StronglySorted_impl_elem_of {A} (R R' : relation A) l :
  (∀ x y, x ∈ l → y ∈ l → R x y → R' x y) →
  StronglySorted R l → StronglySorted R' l.
Proof.
  intros Himpl Hs. induction Hs as [|x l Hs IH Hall]; constructor.
  - apply IH. intros a b Ha Hb. apply Himpl; by apply list_elem_of_further.
  - rewrite Forall_forall in *. intros y Hy.
    apply Himpl; [apply list_elem_of_here|by apply list_elem_of_further|].
    by apply Hall.
Qed.

Lemma py_slice_to_take {A} n (l : list A) :
  ∃ m, py_slice_to n l = take m l
       ∧ (0 ≤ n → m = Z.to_nat n).
Proof.
  unfold py_slice_to. destruct (0 <=? n) eqn:Hn.
  - by eexists.
  - eexists. split; [done|]. lia.
Qed.

(** ** The block store *)
Section BlockStore.
Import BlockManager BlockStoreOps.
Variable sha256_hex : bytes → string.

Lemma has_block_true st b : has_block st b = true ↔ b ∈ blocks_owned st.
Proof. unfold has_block. by rewrite bool_decide_eq_true. Qed.

Lemma get_block_stored st b :
  (get_block st b).1 = if has_block st b then stored st b else None.
Proof.
  unfold get_block, stored. destruct (has_block st b); simpl; [|done].
  destruct (blocks_data st !! b); [done|].
  by destruct (block_files st !! b).
Qed.

(** A read changes nothing but the cache, and the cache only by a copy
    of the block file. *)
Lemma get_block_frame st b :
  let st' := (get_block st b).2 in
  blocks_owned st' = blocks_owned st ∧ total_blocks st' = total_blocks st
  ∧ file_name st' = file_name st ∧ file_hash st' = file_hash st
  ∧ block_files st' = block_files st
  ∧ ∀ c, stored st' c = stored st c.
Proof.
  unfold get_block. destruct (has_block st b); simpl; [|done].
  destruct (blocks_data st !! b) eqn:Hd; [done|].
  destruct (block_files st !! b) eqn:Hf; [|done].
  simpl. repeat split. intros c. unfold stored; simpl.
  destruct (decide (b = c)) as [->|Hne].
  - by rewrite lookup_insert_eq, Hd, Hf.
  - by rewrite lookup_insert_ne.
Qed.

Lemma join_blocks_frame ids st written :
  let st' := (join_blocks ids st written).1.2 in
  blocks_owned st' = blocks_owned st ∧ total_blocks st' = total_blocks st
  ∧ block_files st' = block_files st
  ∧ ∀ c, stored st' c = stored st c.
Proof.
  revert st written. induction ids as [|b ids IH]; intros st written;
    simpl; [done|].
  destruct (get_block_frame st b) as (Ho & Ht & _ & _ & Hf & Hs).
  destruct (get_block st b) as [[d|] st1]; simpl in *; [|done].
  destruct (bytes_truthy d); simpl; [|done].
  destruct (IH st1 (written ++ d)) as (Ho' & Ht' & Hf' & Hs').
  repeat split; [congruence..|]. intros c. by rewrite Hs', Hs.
Qed.

(** A read never replaces a cached copy. *)
Lemma get_block_cached st b c d :
  blocks_data st !! c = Some d →
  blocks_data (get_block st b).2 !! c = Some d.
Proof.
  intros Hc. unfold get_block. destruct (has_block st b); simpl; [|done].
  destruct (blocks_data st !! b) eqn:Hd; [done|].
  destruct (block_files st !! b); [|done]. simpl.
  rewrite lookup_insert_ne; [done|]. intros ->. congruence.
Qed.

Lemma join_blocks_cached ids st written c d :
  blocks_data st !! c = Some d →
  blocks_data (join_blocks ids st written).1.2 !! c = Some d.
Proof.
  revert st written. induction ids as [|b ids IH]; intros st written Hc;
    simpl; [done|].
  pose proof (get_block_cached st b c d Hc) as Hg.
  destruct (get_block st b) as [[e|] st1]; simpl in *; [|done].
  destruct (bytes_truthy e); simpl; [|done]. by apply IH.
Qed.

(** The loop that reads while block file [k] is the output: the owned
set stays, cached copies stay, and so does what is stored for every
other block. *)
Lemma join_blocks_over_frame k flushed ids st written :
  let st' := (join_blocks_over k flushed ids st written).1.2 in
  blocks_owned st' = blocks_owned st ∧ total_blocks st' = total_blocks st
  ∧ (∀ c d, blocks_data st !! c = Some d → blocks_data st' !! c = Some d)
  ∧ ∀ c, c ≠ k → stored st' c = stored st c.
Proof.
  revert st written. induction ids as [|b ids IH]; intros st written;
    cbn [join_blocks_over]; [done|].
  set (st0 := set_block_files _ st).
  assert (∀ c, c ≠ k → stored st0 c = stored st c) as H0.
  { intros c Hc. unfold stored, st0. simpl. by rewrite lookup_insert_ne. }
  destruct (get_block_frame st0 b) as (Ho & Ht & _ & _ & _ & Hs).
  pose proof (get_block_cached st0 b) as Hc.
  destruct (get_block st0 b) as [[e|] st1]; cbn [fst snd] in *.
  2:{ repeat split; [done..|]. intros c Hck. by rewrite Hs, H0. }
  destruct (bytes_truthy e); cbn [fst snd].
  2:{ repeat split; [done..|]. intros c Hck. by rewrite Hs, H0. }
  destruct (IH st1 (written ++ e)) as (Ho' & Ht' & Hc' & Hs').
  split; [by rewrite Ho'|]. split; [by rewrite Ht'|]. split.
  - intros c d Hd. by apply Hc', Hc.
  - intros c Hck. by rewrite Hs', Hs, H0.
Qed.

(** [reconstruct_file] keeps the owned set and the cached copies; it
changes what is stored for a block only when its output is that
block's file, and no block file when its output is none. *)
Lemma reconstruct_file_frame st output :
  let st' := (reconstruct_file sha256_hex st output).2 in
  blocks_owned st' = blocks_owned st ∧ total_blocks st' = total_blocks st
  ∧ (∀ c d, blocks_data st !! c = Some d → blocks_data st' !! c = Some d)
  ∧ (∀ c, (∀ flushed, output ≠ own_block_file c flushed) →
          stored st' c = stored st c)
  ∧ ((∀ k flushed, output ≠ own_block_file k flushed) →
     block_files st' = block_files st).
Proof.
  unfold reconstruct_file.
  destruct (negb (owned_count st =? total_blocks st)); [done|].
  destruct (negb (str_truthy (file_name st))); [done|].
  set (ids := seqZ 0 (total_blocks st)).
  set (name := default "" (file_name st)).
  destruct output as [|path|k flushed|parse|]; [| | | |done].
  - destruct (join_blocks_frame ids st []) as (Ho & Ht & Hf & Hs).
    pose proof (join_blocks_cached ids st []) as Hc.
    destruct (join_blocks ids st []) as [[ok st1] written]; simpl in *.
    destruct ok; simpl; [destruct (_ && _)|]; simpl;
      (split; [done|split; [done|split; [done|split; [|done]]]]);
      intros c _; apply Hs.
  - destruct (join_blocks_frame ids st []) as (Ho & Ht & Hf & Hs).
    pose proof (join_blocks_cached ids st []) as Hc.
    destruct (join_blocks ids st []) as [[ok st1] written]; simpl in *.
    destruct ok; simpl; [destruct (_ && _)|]; simpl;
      (split; [done|split; [done|split; [done|split; [|done]]]]);
      intros c _; apply Hs.
  - destruct (join_blocks_over_frame k flushed ids st [])
      as (Ho & Ht & Hc & Hs).
    destruct (join_blocks_over k flushed ids st [])
      as [[ok st1] written]; cbn [fst snd] in *.
    assert (∀ c, (∀ fl, own_block_file k flushed ≠ own_block_file c fl) →
                 stored (write_output name (own_block_file k flushed)
                           written st1) c = stored st c) as Hw.
    { intros c Hne. assert (c ≠ k) as Hck by (intros ->; by eapply Hne).
      rewrite <- Hs by done. unfold stored. simpl.
      by rewrite lookup_insert_ne. }
    assert ((∀ k' fl, own_block_file k flushed ≠ own_block_file k' fl) →
            block_files (write_output name (own_block_file k flushed)
                           written st1) = block_files st) as Hn.
    { intros Hne. by destruct (Hne k flushed). }
    destruct ok; cbn [negb]; [destruct (_ && _)|]; cbn [snd];
      (split; [exact Ho|split; [exact Ht|split; [exact Hc|done]]]).
  - destruct (join_blocks_frame ids st []) as (Ho & Ht & Hf & Hs).
    pose proof (join_blocks_cached ids st []) as Hc.
    destruct (join_blocks ids st []) as [[ok st1] written]; simpl in *.
    destruct ok; simpl; [destruct (_ && _)|]; simpl;
      (split; [done|split; [done|split; [done|split; [|done]]]]);
      intros c _; apply Hs.
Qed.

(** [add_block] on a fresh, valid id: what it returns and records. *)
Lemma add_block_new st b data :
  0 ≤ b < total_blocks st → b ∉ blocks_owned st →
  let r := add_block sha256_hex true st b data in
  r.1 = true
  ∧ blocks_owned r.2 = {[ b ]} ∪ blocks_owned st
  ∧ total_blocks r.2 = total_blocks st
  ∧ block_files r.2 = <[b := data]> (block_files st)
  ∧ stored r.2 b = Some data
  ∧ ∀ c, c ≠ b → stored r.2 c = stored st c.
Proof.
  intros Hrange Hnew. unfold add_block.
  replace ((b <? 0) || (total_blocks st <=? b)) with false
    by (symmetry; apply orb_false_iff; lia).
  replace (has_block st b) with false
    by (symmetry; apply not_true_iff_false; by rewrite has_block_true).
  cbn [negb].
  set (st4 := _save_state _).
  assert (blocks_owned st4 = {[ b ]} ∪ blocks_owned st
          ∧ total_blocks st4 = total_blocks st
          ∧ block_files st4 = <[b := data]> (block_files st)
          ∧ stored st4 b = Some data
          ∧ ∀ c, c ≠ b → stored st4 c = stored st c) as H4.
  { subst st4. unfold stored; simpl. repeat split.
    - by rewrite lookup_insert_eq.
    - intros c Hc. by rewrite !lookup_insert_ne. }
  destruct H4 as (Ho & Ht & Hf & Hs & Hothers).
  destruct (owned_count st4 =? total_blocks st4); cbn [fst snd]; [|done].
  pose proof (reconstruct_file_frame st4 default_output)
    as (Ho' & Ht' & _ & Hs' & Hf').
  rewrite Hf' by done. repeat split; [congruence..| |].
  - by rewrite Hs'.
  - intros c Hc. rewrite Hs' by done. by apply Hothers.
Qed.

(** ... and the copy it keeps in memory. *)
Lemma add_block_new_cached st b data :
  0 ≤ b < total_blocks st → b ∉ blocks_owned st →
  blocks_data (add_block sha256_hex true st b data).2 !! b = Some data.
Proof.
  intros Hrange Hnew. unfold add_block.
  replace ((b <? 0) || (total_blocks st <=? b)) with false
    by (symmetry; apply orb_false_iff; lia).
  replace (has_block st b) with false
    by (symmetry; apply not_true_iff_false; by rewrite has_block_true).
  cbn [negb].
  set (st4 := _save_state _).
  assert (blocks_data st4 !! b = Some data) as H4.
  { subst st4. simpl. by rewrite lookup_insert_eq. }
  destruct (owned_count st4 =? total_blocks st4); cbn [fst snd]; [|done].
  by apply reconstruct_file_frame.
Qed.

(** C9 and C10 share this: the two early exits of [add_block]. *)
Lemma add_block_early st write_ok b data :
  (b < 0 ∨ total_blocks st ≤ b → 
   add_block sha256_hex write_ok st b data = (false, st))
  ∧ (0 ≤ b < total_blocks st → b ∈ blocks_owned st →
     add_block sha256_hex write_ok st b data = (true, st)).
Proof.
  unfold add_block. split.
  - intros H.
    replace ((b <? 0) || (total_blocks st <=? b)) with true; [done|].
    symmetry. apply orb_true_iff. lia.
  - intros H Ho.
    replace ((b <? 0) || (total_blocks st <=? b)) with false
      by (symmetry; apply orb_false_iff; lia).
    apply has_block_true in Ho. by rewrite Ho.
Qed.

(** [add_block] leaves alone the cached copy of every block but the one
it adds. *)
Lemma add_block_cached st write_ok b data c d :
  b ∈ blocks_owned st ∨ c ≠ b →
  blocks_data st !! c = Some d →
  blocks_data (add_block sha256_hex write_ok st b data).2 !! c = Some d.
Proof.
  intros Hcb Hc. unfold add_block.
  destruct ((b <? 0) || (total_blocks st <=? b)); [done|].
  destruct (has_block st b) eqn:Hb; [done|].
  destruct write_ok; cbn [negb]; [|done].
  assert (c ≠ b) as Hne.
  { destruct Hcb as [Ho|?]; [|done]. apply has_block_true in Ho.
    congruence. }
  set (st4 := _save_state _).
  assert (blocks_data st4 !! c = Some d) as H4.
  { subst st4. simpl. by rewrite lookup_insert_ne. }
  destruct (owned_count st4 =? total_blocks st4); cbn [snd]; [|done].
  by apply reconstruct_file_frame.
Qed.

(** What the writing loop of [split_file_into_blocks] touches. *)
Lemma save_blocks_frame items st :
  let st' := foldl save_block st items in
  blocks_owned st ⊆ blocks_owned st'
  ∧ ∀ c, c ∉ items.*1 →
         blocks_data st' !! c = blocks_data st !! c
         ∧ block_files st' !! c = block_files st !! c.
Proof.
  revert st. induction items as [|[k v] items IH]; intros st; simpl.
  - done.
  - destruct (IH (save_block st (k, v))) as [Ho Hc]. split.
    + etrans; [|exact Ho]. simpl. apply union_subseteq_r.
    + intros c Hnot. apply not_elem_of_cons in Hnot as [Hck Hnot].
      destruct (Hc c Hnot) as [-> ->]. simpl.
      by rewrite !lookup_insert_ne.
Qed.

Lemma split_file_into_blocks_frame st file block_size :
  let st' := (split_file_into_blocks sha256_hex st file block_size).2 in
  blocks_owned st ⊆ blocks_owned st'
  ∧ ∀ c, c < 0 ∨ split_count file block_size ≤ c →
         blocks_data st' !! c = blocks_data st !! c
         ∧ block_files st' !! c = block_files st !! c.
Proof.
  unfold split_file_into_blocks, split_count.
  destruct file as [[name content]|]; [|done].
  destruct (py_range_step _ block_size) as [starts|]; [|done].
  cbn [snd]. rewrite length_fmap.
  set (blocks := _ <$> starts).
  set (n := Z.of_nat (length starts)).
  set (st2 := set_total_blocks _ _).
  destruct (save_blocks_frame (zip (seqZ 0 n) blocks) st2) as [Ho Hc].
  split; [exact Ho|]. intros c Hrange. apply (Hc c).
  intros Hin. apply list_elem_of_fmap in Hin as ([k v] & -> & Hin).
  apply elem_of_zip_l, elem_of_seqZ in Hin. simpl in Hrange. lia.
Qed.

(** One operation that is not [set_from_bitfield] keeps every owned
block owned. *)
Lemma run_op_owned st o :
  keeps_blocks o = true →
  blocks_owned st ⊆ blocks_owned (run_op sha256_hex st o).
Proof.
  destruct o as [file size|w b data|b|output|bf total|]; simpl;
    [| | | |done|]; intros _.
  - apply split_file_into_blocks_frame.
  - destruct (decide (0 ≤ b < total_blocks st)) as [Hr|Hr];
      [destruct (decide (b ∈ blocks_owned st)) as [Ho|Ho]|].
    + by rewrite (proj2 (add_block_early st w b data) Hr Ho).
    + destruct w.
      * destruct (add_block_new st b data Hr Ho) as (_ & Ho' & _).
        rewrite Ho'. apply union_subseteq_r.
      * unfold add_block.
        replace ((b <? 0) || (total_blocks st <=? b)) with false
          by (symmetry; apply orb_false_iff; lia).
        replace (has_block st b) with false; [done|].
        symmetry; apply not_true_iff_false. by rewrite has_block_true.
    + rewrite (proj1 (add_block_early st w b data)); [done|lia].
  - destruct (get_block_frame st b) as (Ho & _). by rewrite Ho.
  - destruct (reconstruct_file_frame st output) as (Ho & _). by rewrite Ho.
  - done.
Qed.

(** ... and leaves the cached copy of an owned block [b] as it is,
unless it is a split that cuts a block [b]. *)
Lemma run_op_cached st o b d :
  keeps_cached b o = true → b ∈ blocks_owned st →
  blocks_data st !! b = Some d →
  blocks_data (run_op sha256_hex st o) !! b = Some d.
Proof.
  destruct o as [file size|w c data|c|output|bf total|]; simpl;
    [| | | |done|]; intros Hk Ho Hd.
  - apply orb_true_iff in Hk.
    destruct (split_file_into_blocks_frame st file size) as [_ Hc].
    destruct (Hc b) as [-> _]; [|done]. destruct Hk; lia.
  - apply add_block_cached; [|done].
    destruct (decide (b = c)) as [->|]; [by left|by right].
  - by apply get_block_cached.
  - by apply reconstruct_file_frame.
  - done.
Qed.

(** ... and what is stored for it, in memory or in its file, unless it
also is [cleanup] or a reconstruction over that file. *)
Lemma run_op_stored st o b :
  keeps_file b o = true → b ∈ blocks_owned st →
  stored (run_op sha256_hex st o) b = stored st b.
Proof.
  unfold keeps_file.
  destruct o as [file size|w c data|c|output|bf total|]; simpl;
    [| | | |done|done]; rewrite ?andb_true_r; intros Hk Ho.
  - apply orb_true_iff in Hk.
    destruct (split_file_into_blocks_frame st file size) as [_ Hc].
    unfold stored. destruct (Hc b) as [-> ->]; [|done]. destruct Hk; lia.
  - destruct (decide (0 ≤ c < total_blocks st)) as [Hr|Hr];
      [destruct (decide (c ∈ blocks_owned st)) as [Hc|Hc]|].
    + by rewrite (proj2 (add_block_early st w c data) Hr Hc).
    + destruct w.
      * destruct (add_block_new st c data Hr Hc) as (_ & _ & _ & _ & _ & Hs).
        apply Hs. by intros ->.
      * unfold add_block.
        replace ((c <? 0) || (total_blocks st <=? c)) with false
          by (symmetry; apply orb_false_iff; lia).
        replace (has_block st c) with false; [done|].
        symmetry; apply not_true_iff_false. by rewrite has_block_true.
    + rewrite (proj1 (add_block_early st w c data)); [done|lia].
  - by apply get_block_frame.
  - apply reconstruct_file_frame. intros flushed ->.
    simpl in Hk. rewrite Z.eqb_refl in Hk. done.
Qed.

(** C9 (amended).  A call of [add_block] for a block id that is
    already owned never changes the store (owned set, cached and stored
    bytes, persisted state, hence completion status), whatever bytes are
    supplied.  It returns [True] when the id lies in
    [range(total_blocks)] and [False] when it does not: the range is
    tested before the owned set is looked at.  And once a call has
    succeeded, repeating it succeeds and changes nothing more. *)
Theorem add_block_idempotent_on_owned st write_ok write_ok' b data data' :
  (b ∈ blocks_owned st →
   add_block sha256_hex write_ok st b data
   = (bool_decide (0 ≤ b < total_blocks st), st))
  ∧ (let r := add_block sha256_hex write_ok st b data in
     r.1 = true →
     add_block sha256_hex write_ok' r.2 b data' = (true, r.2)).
Proof.
  split.
  - intros Ho. destruct (decide (0 ≤ b < total_blocks st)) as [Hr|Hr].
    + rewrite bool_decide_eq_true_2 by done. by apply add_block_early.
    + rewrite bool_decide_eq_false_2 by done.
      apply add_block_early. lia.
  - cbv zeta. destruct (decide (0 ≤ b < total_blocks st)) as [Hr|Hr].
    2:{ rewrite (proj1 (add_block_early st write_ok b data)) by lia.
        done. }
    destruct (decide (b ∈ blocks_owned st)) as [Ho|Ho].
    + rewrite (proj2 (add_block_early st write_ok b data) Hr Ho). simpl.
      intros _. by apply add_block_early.
    + destruct write_ok.
      * destruct (add_block_new st b data Hr Ho) as (_ & Ho' & Ht & _).
        intros _. apply add_block_early; [by rewrite Ht|].
        rewrite Ho'. apply elem_of_union. left. by apply elem_of_singleton.
      * unfold add_block.
        replace ((b <? 0) || (total_blocks st <=? b)) with false
          by (symmetry; apply orb_false_iff; lia).
        replace (has_block st b) with false; [done|].
        symmetry; apply not_true_iff_false. by rewrite has_block_true.
Qed.

(** C10 (confirmed).  For a block id outside [0, total_blocks),
    [add_block] returns [False] and the store (owned set, in-memory
    data, files and persisted state, completion status) is exactly the
    one it was called on. *)
Theorem add_block_out_of_range st write_ok b data :
  b < 0 ∨ total_blocks st ≤ b →
  add_block sha256_hex write_ok st b data = (false, st)
  ∧ is_complete (add_block sha256_hex write_ok st b data).2
    = is_complete st.
Proof.
  intros H. by rewrite (proj1 (add_block_early st write_ok b data) H).
Qed.

(** C6 (amended).  Under every sequence of calls of the methods that
    change a block manager, [set_from_bitfield] apart, a block that is
    owned stays owned.  A read of it keeps returning the bytes held in
    memory for it unless one of the calls is a
    [split_file_into_blocks] that cuts a block of that id; and it keeps
    returning what it returned, also for a block that is only in its
    file, unless one of the calls is moreover [cleanup] or a
    [reconstruct_file] whose output is that block file. *)
Theorem owned_blocks_monotone st ops b :
  b ∈ blocks_owned st →
  forallb keeps_blocks ops = true →
  b ∈ blocks_owned (run sha256_hex st ops)
  ∧ (∀ d, blocks_data st !! b = Some d →
          forallb (keeps_cached b) ops = true →
          (get_block (run sha256_hex st ops) b).1 = Some d)
  ∧ (forallb (keeps_file b) ops = true →
     (get_block (run sha256_hex st ops) b).1 = (get_block st b).1).
Proof.
  intros Hb Hops.
  assert (b ∈ blocks_owned (run sha256_hex st ops)) as Hown.
  { revert st Hb Hops. induction ops as [|o ops IH]; intros st Hb Hops;
      simpl in *; [done|].
    apply andb_true_iff in Hops as [Ho Hops].
    apply IH; [|done]. by apply (run_op_owned st o Ho). }
  split; [done|]. split.
  - intros d Hd Hc. rewrite get_block_stored.
    rewrite (proj2 (has_block_true _ b) Hown). unfold stored.
    assert (blocks_data (run sha256_hex st ops) !! b = Some d) as ->;
      [|done].
    clear Hown. revert st Hb Hops Hd Hc.
    induction ops as [|o ops IH]; intros st Hb Hops Hd Hc; simpl in *;
      [done|].
    apply andb_true_iff in Hops as [Ho Hops].
    apply andb_true_iff in Hc as [Hco Hc].
    apply IH; [by apply (run_op_owned st o Ho)|done| |done].
    by apply run_op_cached.
  - intros Hf. rewrite !get_block_stored.
    rewrite (proj2 (has_block_true st b) Hb).
    rewrite (proj2 (has_block_true _ b) Hown).
    clear Hown. revert st Hb Hops Hf.
    induction ops as [|o ops IH]; intros st Hb Hops Hf; simpl in *;
      [done|].
    apply andb_true_iff in Hops as [Ho Hops].
    apply andb_true_iff in Hf as [Hfo Hf].
    rewrite IH by (by try apply (run_op_owned st o Ho)).
    by apply run_op_stored.
Qed.

End BlockStore.

Section BlockStoreExamples.
Import BlockManager BlockStoreOps Samples.

Lemma add_block_idempotent_on_owned_witness :
  add_block digest true leecher_with_0 0 tampered = (true, leecher_with_0).
Proof.
  apply (proj1 (add_block_idempotent_on_owned digest leecher_with_0
                  true true 0 tampered tampered)).
  apply has_block_true. vm_compute. reflexivity.
Defined.

(** C9, counterexample: a file of two blocks is split, then a file of
    one block.  Block 1 of the first file is still owned and still
    read, but it lies beyond [total_blocks], which is now 1, and
    [add_block] with the very bytes stored for it returns [False]. *)
Lemma owned_block_beyond_total_refused :
  total_blocks split_twice = 1
  ∧ bool_decide (1 ∈ blocks_owned split_twice) = true
  ∧ (get_block split_twice 1).1 = Some [x02]%byte
  ∧ add_block digest true split_twice 1 [x02]%byte = (false, split_twice).
Proof. repeat split; vm_compute; reflexivity. Qed.

Lemma add_block_out_of_range_witness :
  add_block digest true leecher 2 genuine = (false, leecher)
  ∧ is_complete (add_block digest true leecher 2 genuine).2
    = is_complete leecher.
Proof.
  apply (add_block_out_of_range digest leecher true 2 genuine).
  right. vm_compute. discriminate.
Defined.

Lemma owned_blocks_monotone_witness :
  0 ∈ blocks_owned
        (run digest leecher_with_0
           [op_add_block true 1 genuine; op_get_block 0;
            op_reconstruct_file default_output; op_cleanup;
            op_split_file_into_blocks None 1])
  ∧ (get_block
       (run digest leecher_with_0
          [op_add_block true 1 genuine; op_get_block 0;
           op_reconstruct_file default_output; op_cleanup;
           op_split_file_into_blocks None 1]) 0).1
    = Some [x00]%byte.
Proof.
  destruct (owned_blocks_monotone digest leecher_with_0
              [op_add_block true 1 genuine; op_get_block 0;
               op_reconstruct_file default_output; op_cleanup;
               op_split_file_into_blocks None 1] 0) as (H1 & H2 & _).
  - apply has_block_true. vm_compute. reflexivity.
  - reflexivity.
  - split; [exact H1|]. apply H2; vm_compute; reflexivity.
Defined.

(** C6, counterexample.  [set_from_bitfield] with an all-zero bitfield
    drops block 0 from the owned set.  The bytes of an owned block
    change in three ways: [split_file_into_blocks] for another file
    overwrites block 0; and for block 1 of [disk_only], which is owned
    and held in its file only, [reconstruct_file] with that file as
    its output truncates it before the loop reads it, and [cleanup]
    removes it. *)
Lemma set_from_bitfield_drops_blocks :
  (bool_decide (0 ∈ blocks_owned leecher_with_0) = true
   ∧ bool_decide
       (0 ∈ blocks_owned
              (run digest leecher_with_0 [op_set_from_bitfield [0] 2]))
     = false)
  ∧ ((get_block leecher_with_0 0).1 = Some [x00]%byte
     ∧ (get_block
          (run digest leecher_with_0
             [op_split_file_into_blocks (Some ("b.bin", [x09]%byte)) 1])
          0).1
       = Some [x09]%byte)
  ∧ (bool_decide (1 ∈ blocks_owned disk_only) = true
     ∧ (get_block disk_only 1).1 = Some [x02]%byte
     ∧ (get_block
          (run digest disk_only
             [op_reconstruct_file (own_block_file 1 (λ _, 0%nat))]) 1).1
       = Some []
     ∧ (get_block (run digest disk_only [op_cleanup]) 1).1 = None).
Proof. repeat split; vm_compute; reflexivity. Qed.

End BlockStoreExamples.

(** ** Integrity of received pieces *)
Section Pieces.
Import Samples.
Variable sha256_hex : bytes → string.

(** A download recorded as failed: the histories and the success
    counters are those of before, the sender's failure counter is one
    higher, and its rate is recomputed from the unchanged history. *)
Lemma record_download_failed (st : Strategies.t) now peer block_id n :
  let st' := Strategies.record_download st now peer block_id n false in
  Strategies.download_history st' = Strategies.download_history st
  ∧ Strategies.upload_history st' = Strategies.upload_history st
  ∧ Strategies.successful_downloads st' = Strategies.successful_downloads st
  ∧ Strategies.counter (Strategies.failed_requests st') peer
    = Strategies.counter (Strategies.failed_requests st) peer + 1
  ∧ (∀ q, q ≠ peer →
       Strategies.failed_requests st' !! q
       = Strategies.failed_requests st !! q)
  ∧ Strategies.peer_download_rates st'
    = <[peer := Strategies.window_rate now
                  (Strategies.recent now 30
                     (Strategies.history_of
                        (Strategies.download_history st) peer))]>
        (Strategies.peer_download_rates st).
Proof.
  simpl. repeat split.
  - unfold Strategies.counter at 1. by rewrite lookup_insert_eq.
  - intros q Hq. by rewrite lookup_insert_ne.
Qed.

(** C1 (amended).  [add_block] checks no hash: for a valid id that is
    not owned yet it stores the supplied bytes, whatever they are, and
    returns [True].  A download recorded as failed leaves the sender's
    transfer history (the rate ledger) and success counter untouched and
    raises that sender's failed-request counter by exactly 1. *)
Theorem piece_stored_unverified (bm : BlockManager.t) (ps : Strategies.t)
    b data now peer n :
  0 ≤ b < BlockManager.total_blocks bm →
  b ∉ BlockManager.blocks_owned bm →
  (let r := BlockManager.add_block sha256_hex true bm b data in
   r.1 = true
   ∧ BlockManager.blocks_owned r.2 = {[ b ]} ∪ BlockManager.blocks_owned bm
   ∧ BlockManager.block_files r.2 !! b = Some data
   ∧ (BlockManager.get_block r.2 b).1 = Some data)
  ∧ (let ps' := Strategies.record_download ps now peer b n false in
     Strategies.download_history ps' = Strategies.download_history ps
     ∧ Strategies.successful_downloads ps'
       = Strategies.successful_downloads ps
     ∧ Strategies.counter (Strategies.failed_requests ps') peer
       = Strategies.counter (Strategies.failed_requests ps) peer + 1
     ∧ ∀ q, q ≠ peer →
         Strategies.failed_requests ps' !! q
         = Strategies.failed_requests ps !! q).
Proof.
  intros Hr Hnew. split.
  - destruct (add_block_new sha256_hex bm b data Hr Hnew)
      as (Hok & Ho & _ & Hf & Hs & _).
    cbv zeta. repeat split; [done|done|by rewrite Hf, lookup_insert_eq|].
    rewrite get_block_stored, Hs.
    replace (BlockManager.has_block _ b) with true; [done|].
    symmetry. apply has_block_true. rewrite Ho.
    apply elem_of_union. left. by apply elem_of_singleton.
  - destruct (record_download_failed ps now peer b n)
      as (H1 & _ & H2 & H3 & H4 & _).
    by repeat split.
Qed.

End Pieces.

Section PiecesExamples.
Import Samples.

Lemma piece_stored_unverified_witness :
  (let r := BlockManager.add_block digest true leecher 0 tampered in
   r.1 = true
   ∧ BlockManager.blocks_owned r.2
     = {[ 0 ]} ∪ BlockManager.blocks_owned leecher
   ∧ BlockManager.block_files r.2 !! 0 = Some tampered
   ∧ (BlockManager.get_block r.2 0).1 = Some tampered)
  ∧ (let ps' :=
       Strategies.record_download (Strategies.init "W" 4 0%Q) 1%Q "Z" 0 1
         false in
     Strategies.download_history ps'
     = Strategies.download_history (Strategies.init "W" 4 0%Q)
     ∧ Strategies.successful_downloads ps'
       = Strategies.successful_downloads (Strategies.init "W" 4 0%Q)
     ∧ Strategies.counter (Strategies.failed_requests ps') "Z"
       = Strategies.counter
           (Strategies.failed_requests (Strategies.init "W" 4 0%Q)) "Z" + 1
     ∧ ∀ q, q ≠ "Z" →
         Strategies.failed_requests ps' !! q
         = Strategies.failed_requests (Strategies.init "W" 4 0%Q) !! q).
Proof.
  apply (piece_stored_unverified digest leecher (Strategies.init "W" 4 0%Q)
           0 tampered 1%Q "Z" 1).
  - vm_compute. split; [discriminate|reflexivity].
  - intros H. apply has_block_true in H. vm_compute in H. discriminate.
Defined.

(** C1, counterexample: the expected digest of block 0 is that of
    [genuine]; the tampered bytes fail [validate_block], yet [add_block]
    returns [True], owns block 0 and serves the tampered bytes. *)
Lemma tampered_piece_accepted :
  FileInfo.validate_block digest [digest genuine] 0 tampered = false
  ∧ (BlockManager.add_block digest true leecher 0 tampered).1 = true
  ∧ bool_decide
      (0 ∈ BlockManager.blocks_owned
             (BlockManager.add_block digest true leecher 0 tampered).2)
    = true
  ∧ (BlockManager.get_block
       (BlockManager.add_block digest true leecher 0 tampered).2 0).1
    = Some tampered.
Proof. repeat split; vm_compute; reflexivity. Qed.

End PiecesExamples.

(** ** The serve path *)
Section Serve.

(** The authorisation test of minibit-final, as a proposition. *)
Lemma final_allowed_true (st : FinalPeer.t) q :
  FinalPeer.allowed st q = true
  ↔ q ∈ FinalPeer.allowed_peers st ∨ FinalPeer.optimistic_peer st = Some q.
Proof.
  unfold FinalPeer.allowed.
  by rewrite orb_true_iff, !bool_decide_eq_true.
Qed.

(** C2 (amended).  In minibit-final a REQUEST from [q] for block [b] is
answered with the content of the block file exactly when [q] is in the
regular unchoke set or is the optimistic peer and [b] is owned (nothing is
sent if that file cannot be read), and with the CHOKED sentinel in every
other case; the handler assigns no attribute of the peer.  In the
algoritmos variant the handler never looks at the unchoke set: it sends
the block and overwrites the upload entry of the sender whenever the id is
in its block list and the file is readable, and otherwise sends nothing
and leaves the state, upload counters included, as it was. *)
Theorem serve_authorisation :
  (∀ (st : FinalPeer.t) q b,
     let authorised :=
       q ∈ FinalPeer.allowed_peers st
       ∨ FinalPeer.optimistic_peer st = Some q in
     (authorised ∧ b ∈ FinalPeer.blocks st →
      FinalPeer._handle_request st (FinalPeer.block_request q b)
      = FinalPeer.reply_bytes <$> FinalPeer.block_files st !! b)
     ∧ (¬ (authorised ∧ b ∈ FinalPeer.blocks st) →
        FinalPeer._handle_request st (FinalPeer.block_request q b)
        = Some (FinalPeer.reply_bytes FinalPeer.CHOKED)))
  ∧ (∀ (st : AlgoPeer.t) q b,
       (∀ data,
          AlgoPeer.block_id_entry b ∈ AlgoPeer.blocks st →
          AlgoPeer.block_files st !! b = Some data →
          AlgoPeer.handle_request st (AlgoPeer.request_block b q)
          = (Some data,
             AlgoPeer.set_tit_for_tat
               (AlgoPeer.update_upload_rate (AlgoPeer.tit_for_tat st) q
                  (Z.of_nat (length data))) st))
       ∧ (AlgoPeer.block_id_entry b ∉ AlgoPeer.blocks st
          ∨ AlgoPeer.block_files st !! b = None →
          AlgoPeer.handle_request st (AlgoPeer.request_block b q)
          = (None, st))).
Proof.
  split.
  - intros st q b authorised. unfold FinalPeer._handle_request. split.
    + intros [Ha Hb]. apply final_allowed_true in Ha. rewrite Ha.
      by rewrite bool_decide_eq_true_2.
    + intros Hn.
      destruct (FinalPeer.allowed st q) eqn:Ha; [|done].
      apply final_allowed_true in Ha.
      rewrite bool_decide_eq_false_2; [done|]. intros Hb. by apply Hn.
  - intros st q b. unfold AlgoPeer.handle_request. split.
    + intros data Hb Hf. by rewrite bool_decide_eq_true_2, Hf.
    + intros [Hb|Hf].
      * by rewrite bool_decide_eq_false_2.
      * rewrite Hf. by destruct (bool_decide _).
Qed.

(** C2, counterexample: peer X of the algoritmos variant has unchoked
nobody.  Right after start-up a request of Y gets no answer at all, not
the CHOKED sentinel; and once X has fetched block 2, a request of Y for
block 2 is answered with the block bytes and X's upload entry for Y is
written. *)
Lemma unauthorised_request_served :
  (AlgoPeer.handle_request Samples.peer_x_fresh
     (AlgoPeer.request_block 1 "Y")).1 = None
  ∧ AlgoPeer.unchoked (AlgoPeer.tit_for_tat Samples.peer_x) = ∅
  ∧ AlgoPeer.optimistic_peer (AlgoPeer.tit_for_tat Samples.peer_x) = None
  ∧ AlgoPeer.upload_rates (AlgoPeer.tit_for_tat Samples.peer_x) !! "Y" = None
  ∧ (AlgoPeer.handle_request Samples.peer_x
       (AlgoPeer.request_block 2 "Y")).1 = Some [x07; x08]%byte
  ∧ AlgoPeer.upload_rates
      (AlgoPeer.tit_for_tat
         (AlgoPeer.handle_request Samples.peer_x
            (AlgoPeer.request_block 2 "Y")).2) !! "Y" = Some 2.
Proof. repeat split; vm_compute; reflexivity. Qed.

Lemma serve_authorisation_witness :
  FinalPeer._handle_request Samples.final_x (FinalPeer.block_request 9001 2)
  = Some (FinalPeer.reply_bytes [x07; x08]%byte)
  ∧ FinalPeer._handle_request Samples.final_x
      (FinalPeer.block_request 9002 2)
    = Some (FinalPeer.reply_bytes FinalPeer.CHOKED).
Proof.
  destruct serve_authorisation as [Hfinal _].
  destruct (Hfinal Samples.final_x 9001 2) as [Hserve _].
  destruct (Hfinal Samples.final_x 9002 2) as [_ Hdeny].
  change (FinalPeer.allowed_peers Samples.final_x)
    with ({[ 9001 ]} : gset Z) in Hserve, Hdeny.
  change (FinalPeer.blocks Samples.final_x)
    with ({[ 2 ]} : gset Z) in Hserve, Hdeny.
  split.
  - apply Hserve. split; [left|]; by apply elem_of_singleton.
  - apply Hdeny. intros [[Hin|Hopt] _].
    + apply elem_of_singleton in Hin. discriminate Hin.
    + discriminate Hopt.
Defined.

End Serve.

(** ** The choke controller: size and disjointness of the slots *)
Section Slots.

Lemma size_list_to_set_le `{Countable A} (l : list A) :
  (size (list_to_set l : gset A) ≤ length l)%nat.
Proof.
  induction l as [|x l IH].
  - rewrite list_to_set_nil, size_empty. simpl. lia.
  - rewrite list_to_set_cons, size_union_alt, size_singleton.
    assert (size (list_to_set l ∖ {[ x ]} : gset A)
            ≤ size (list_to_set l : gset A))%nat
      by (apply subseteq_size, subseteq_difference_l; reflexivity).
    cbn [length]. lia.
Qed.

(** The regular tick of strategies.py: the slots it fills, and what it
leaves alone. *)
Lemma update_unchoked_peers_slots (st : Strategies.t) now connected :
  let st' := (Strategies.update_unchoked_peers st now connected).2 in
  Strategies.max_unchoked st' = Strategies.max_unchoked st
  ∧ Strategies.optimistic_unchoke_peer st'
    = Strategies.optimistic_unchoke_peer st
  ∧ Strategies.interested_peers st' = Strategies.interested_peers st
  ∧ (Strategies.unchoked_peers st' = Strategies.unchoked_peers st
     ∨ (size (Strategies.unchoked_peers st')
        ≤ Z.to_nat (Strategies.max_unchoked st))%nat).
Proof.
  unfold Strategies.update_unchoked_peers.
  destruct (Qltb _ _); [by auto|].
  cbn [Strategies.interested_peers Strategies.set_last_unchoke_update].
  destruct (filter _ connected) as [|p l] eqn:Hf; [by auto|].
  cbn [snd]. repeat split. right.
  cbn [Strategies.unchoked_peers Strategies.set_unchoked_peers
         Strategies.max_unchoked Strategies.set_last_unchoke_update].
  etrans; [apply size_list_to_set_le|].
  rewrite length_map, length_take. lia.
Qed.

(** The optimistic tick of strategies.py. *)
Lemma select_optimistic_unchoke_slots (st : Strategies.t) now connected pick :
  let st' := (Strategies.select_optimistic_unchoke st now connected pick).2 in
  Strategies.max_unchoked st' = Strategies.max_unchoked st
  ∧ Strategies.unchoked_peers st' = Strategies.unchoked_peers st
  ∧ (st' = st
     ∨ Strategies.optimistic_unchoke_peer st' = None
     ∨ ∃ p, Strategies.optimistic_unchoke_peer st' = Some p
            ∧ p ∈ connected
            ∧ p ∈ Strategies.interested_peers st
            ∧ p ∉ Strategies.unchoked_peers st).
Proof.
  unfold Strategies.select_optimistic_unchoke.
  destruct (Qltb _ _); [by auto|].
  cbn [Strategies.interested_peers Strategies.unchoked_peers
         Strategies.set_last_optimistic_update].
  destruct (filter _ connected) as [|p0 l] eqn:Hf; [by auto|].
  cbn [snd]. repeat split. right. right.
  set (sel := default p0 _). exists sel. split; [done|].
  assert (sel ∈ p0 :: l) as Hin.
  { subst sel. destruct ((p0 :: l) !! _) as [p|] eqn:Hl; simpl.
    - by eapply list_elem_of_lookup_2.
    - apply list_elem_of_here. }
  rewrite <- Hf in Hin. apply list_elem_of_filter in Hin as [[? ?] ?].
  done.
Qed.

(** One round of [update_peers_loop] of minibit-final. *)
Lemma update_peers_slots (st : FinalPeer.t) network blocked order pick :
  FinalPeer.peers_known st ≠ ∅ →
  let st' := FinalPeer.update_peers st network blocked order pick in
  (size (FinalPeer.allowed_peers st') ≤ FinalPeer.MAX_UNCHOKED)%nat
  ∧ ∀ p, FinalPeer.optimistic_peer st' = Some p →
         p ∉ FinalPeer.allowed_peers st'.
Proof.
  intros Hk. unfold FinalPeer.update_peers.
  rewrite bool_decide_eq_false_2 by done.
  destruct (FinalPeer._get_blocks_in_network st network)
    as [[counts peer_blocks] st1].
  destruct (bool_decide _);
    cbn [FinalPeer.allowed_peers FinalPeer.optimistic_peer
           FinalPeer.set_unchoke].
  - split; [|done].
    etrans; [apply size_list_to_set_le|]. rewrite length_take. lia.
  - split.
    + etrans; [apply size_list_to_set_le|]. rewrite length_take.
      unfold FinalPeer.MAX_UNCHOKED. lia.
    + intros p Hp. apply list_elem_of_lookup_2 in Hp.
      by apply list_elem_of_filter in Hp as [? ?].
Qed.

(** C5 (amended).  With [K = max_unchoked] (4 by default): both ticks of
strategies.py keep the regular unchoke set within [K] members; the
optimistic tick keeps the optimistic peer outside the regular set, and
when it fires it picks a connected, interested peer outside that set or
nobody; the regular tick leaves the optimistic slot as it is, whatever
the new regular set, so it is not stated to keep the two apart.  In minibit-final every round sets both
slots at once: at most 4 regular peers and an optimistic peer that is not
one of them. *)
Theorem unchoke_slots_invariant :
  (∀ (st : Strategies.t) now connected,
     let st' := (Strategies.update_unchoked_peers st now connected).2 in
     Strategies.optimistic_unchoke_peer st'
     = Strategies.optimistic_unchoke_peer st
     ∧ ((size (Strategies.unchoked_peers st)
         ≤ Z.to_nat (Strategies.max_unchoked st))%nat →
        (size (Strategies.unchoked_peers st')
         ≤ Z.to_nat (Strategies.max_unchoked st'))%nat))
  ∧ (∀ (st : Strategies.t) now connected pick,
       let st' :=
         (Strategies.select_optimistic_unchoke st now connected pick).2 in
       ((size (Strategies.unchoked_peers st)
           ≤ Z.to_nat (Strategies.max_unchoked st))%nat →
        (size (Strategies.unchoked_peers st')
           ≤ Z.to_nat (Strategies.max_unchoked st'))%nat)
       ∧ ((∀ p, Strategies.optimistic_unchoke_peer st = Some p →
                p ∉ Strategies.unchoked_peers st) →
          ∀ p, Strategies.optimistic_unchoke_peer st' = Some p →
               p ∉ Strategies.unchoked_peers st')
       ∧ (Qltb (now - Strategies.last_optimistic_update st)
               (Strategies.optimistic_interval st) = false →
          ∀ p, Strategies.optimistic_unchoke_peer st' = Some p →
               (p ∉ Strategies.unchoked_peers st')
               ∧ p ∈ connected ∧ p ∈ Strategies.interested_peers st))
  ∧ (∀ (st : FinalPeer.t) network blocked order pick,
       FinalPeer.peers_known st ≠ ∅ →
       let st' := FinalPeer.update_peers st network blocked order pick in
       (size (FinalPeer.allowed_peers st') ≤ FinalPeer.MAX_UNCHOKED)%nat
       ∧ ∀ p, FinalPeer.optimistic_peer st' = Some p →
              p ∉ FinalPeer.allowed_peers st').
Proof.
  split; [|split].
  - intros st now connected st'.
    destruct (update_unchoked_peers_slots st now connected)
      as (Hk & Hopt & _ & Hu). fold st' in Hk, Hopt, Hu.
    split; [done|]. intros Hsz. rewrite Hk.
    destruct Hu as [Hu|Hu]; [by rewrite Hu|done].
  - intros st now connected pick st'.
    destruct (select_optimistic_unchoke_slots st now connected pick)
      as (Hk & Hu & Hopt). fold st' in Hk, Hu, Hopt.
    split; [|split].
    + intros Hsz. by rewrite Hk, Hu.
    + intros Hinv p Hp. rewrite Hu.
      destruct Hopt as [Heq|[Hnone|(q & Hq & _ & _ & Hnot)]].
      * rewrite Heq in Hp. by apply Hinv.
      * congruence.
      * congruence.
    + intros Hfire p Hp. rewrite Hu. subst st'.
      unfold Strategies.select_optimistic_unchoke in *.
      rewrite Hfire in *.
      cbn [Strategies.interested_peers Strategies.unchoked_peers
             Strategies.set_last_optimistic_update] in *.
      destruct (filter _ connected) as [|p0 l] eqn:Hf; [done|].
      cbn in Hp. injection Hp as <-.
      set (sel := default p0 _).
      assert (sel ∈ p0 :: l) as Hin.
      { subst sel. destruct ((p0 :: l) !! _) as [p|] eqn:Hl; simpl.
        - by eapply list_elem_of_lookup_2.
        - apply list_elem_of_here. }
      rewrite <- Hf in Hin. apply list_elem_of_filter in Hin as [[? ?] ?].
      done.
  - intros. by apply update_peers_slots.
Qed.

(** C5, counterexample: at 30 s peer A holds the optimistic slot and is
outside the regular set of four; a block from A arrives, and the regular
tick at 40 s ranks A first, so A is then in the regular set while still
being the optimistic peer. *)
Lemma optimistic_peer_joins_regular_set :
  Strategies.optimistic_unchoke_peer Samples.ctl_at_30 = Some "A"
  ∧ bool_decide ("A" ∈ Strategies.unchoked_peers Samples.ctl_at_30) = false
  ∧ size (Strategies.unchoked_peers Samples.ctl_at_30) = 4%nat
  ∧ Strategies.optimistic_unchoke_peer Samples.ctl_at_40 = Some "A"
  ∧ bool_decide ("A" ∈ Strategies.unchoked_peers Samples.ctl_at_40) = true.
Proof. repeat split; vm_compute; reflexivity. Qed.

Lemma unchoke_slots_invariant_witness :
  ("A" ∉ Strategies.unchoked_peers
           (Strategies.select_optimistic_unchoke
              Samples.ctl_before_optimistic 30%Q Samples.swarm 0%nat).2)
  ∧ "A" ∈ Samples.swarm
  ∧ "A" ∈ Strategies.interested_peers Samples.ctl_before_optimistic.
Proof.
  destruct unchoke_slots_invariant as (_ & Hopt & _).
  destruct (Hopt Samples.ctl_before_optimistic 30%Q Samples.swarm 0%nat)
    as (_ & _ & Hfire).
  apply Hfire; vm_compute; reflexivity.
Defined.

End Slots.

(** ** The rarest-first scheduler *)
Section Scheduler.
Import Ranking.

Lemma key_leb_total (a b : Z * Z) :
  Strategies.key_leb a b = true ∨ Strategies.key_leb b a = true.
Proof.
  unfold Strategies.key_leb.
  rewrite !orb_true_iff, !andb_true_iff, !Z.ltb_lt, !Z.eqb_eq, !Z.leb_le.
  lia.
Qed.

Lemma key_leb_trans (a b c : Z * Z) :
  Strategies.key_leb a b = true → Strategies.key_leb b c = true →
  Strategies.key_leb a c = true.
Proof.
  unfold Strategies.key_leb.
  rewrite !orb_true_iff, !andb_true_iff, !Z.ltb_lt, !Z.eqb_eq, !Z.leb_le.
  lia.
Qed.

(** The table built by [_calculate_block_rarity] holds, for each of the
blocks it was given, the number of known peers that advertise it. *)
Lemma block_rarity_lookup (st : Strategies.t) blocks b :
  Strategies._calculate_block_rarity st blocks !! b
  = if decide (b ∈ blocks) then Some (Strategies.holders st b) else None.
Proof.
  unfold Strategies._calculate_block_rarity.
  assert (∀ m : gmap Z Z,
            foldl (λ rarity block_id,
                     <[block_id := Strategies.holders st block_id]> rarity)
                  m blocks !! b
            = if decide (b ∈ blocks) then Some (Strategies.holders st b)
              else m !! b) as Hgen.
  { induction blocks as [|x blocks IH]; intros m.
    - cbn [foldl]. destruct (decide (b ∈ [])) as [Hin|_]; [|done].
      by apply not_elem_of_nil in Hin.
    - cbn [foldl]. rewrite IH.
      destruct (decide (b ∈ blocks)) as [Hin|Hin];
        destruct (decide (b ∈ x :: blocks)) as [Hin'|Hin']; try done.
      + exfalso. apply Hin'. by apply list_elem_of_further.
      + apply elem_of_cons in Hin' as [->|?]; [|done].
        by rewrite lookup_insert_eq.
      + rewrite lookup_insert_ne; [done|]. intros ->.
        apply Hin', list_elem_of_here. }
  rewrite Hgen. by destruct (decide _).
Qed.

Lemma foldl_min_spec x l :
  foldl Z.min x l ∈ x :: l ∧ ∀ y, y ∈ x :: l → foldl Z.min x l ≤ y.
Proof.
  revert x. induction l as [|z l IH]; intros x; simpl.
  - split; [apply list_elem_of_here|].
    intros y Hy. apply list_elem_of_singleton in Hy. lia.
  - destruct (IH (Z.min x z)) as [Hin Hle]. split.
    + apply elem_of_cons in Hin as [Hin|Hin].
      * rewrite Hin. destruct (Z.min_spec x z) as [[_ ->]|[_ ->]].
        -- apply list_elem_of_here.
        -- apply list_elem_of_further, list_elem_of_here.
      * by do 2 apply list_elem_of_further.
    + intros y Hy.
      assert (foldl Z.min (Z.min x z) l ≤ Z.min x z)
        by apply Hle, list_elem_of_here.
      apply elem_of_cons in Hy as [->|Hy]; [lia|].
      apply elem_of_cons in Hy as [->|Hy]; [lia|].
      by apply Hle, list_elem_of_further.
Qed.

(** The scheduler of minibit-final: the block it returns is needed and
has the least count among the needed blocks that are advertised; any
such block can be drawn; nothing is returned exactly when no needed block
is advertised. *)
Lemma select_rarest_block_spec (st : FinalPeer.t) (block_counts : gmap Z Z) :
  let least b c :=
    b ∈ FinalPeer.needed st ∧ block_counts !! b = Some c
    ∧ ∀ b' c', b' ∈ FinalPeer.needed st → block_counts !! b' = Some c' →
               c ≤ c' in
  (∀ pick b,
     FinalPeer._select_rarest_block st block_counts pick = Some b →
     ∃ c, least b c)
  ∧ (∀ b c, least b c →
       ∃ pick, FinalPeer._select_rarest_block st block_counts pick = Some b)
  ∧ (∀ pick,
       FinalPeer._select_rarest_block st block_counts pick = None
       ↔ ∀ b, b ∈ FinalPeer.needed st → block_counts !! b = None).
Proof.
  cbv zeta. unfold FinalPeer._select_rarest_block.
  set (rarity := filter (λ kv : Z * Z, kv.1 ∈ FinalPeer.needed st)
                        block_counts).
  assert (∀ b c, (b, c) ∈ map_to_list rarity
                 ↔ b ∈ FinalPeer.needed st ∧ block_counts !! b = Some c)
    as Hitems.
  { intros b c. rewrite elem_of_map_to_list. unfold rarity.
    rewrite map_lookup_filter_Some. simpl. tauto. }
  destruct (map_to_list rarity) as [|kv rest] eqn:Hl.
  { split; [done|]. split.
    - intros b c (Hb & Hc & _).
      assert ((b, c) ∈ @nil (Z * Z)) as Hin by (by apply Hitems).
      by apply not_elem_of_nil in Hin.
    - intros _. split; [|done]. intros _ b Hb.
      destruct (block_counts !! b) as [c|] eqn:Hc; [|done].
      assert ((b, c) ∈ @nil (Z * Z)) as Hin by (by apply Hitems).
      by apply not_elem_of_nil in Hin. }
  set (items := kv :: rest) in *.
  set (min_count := foldl Z.min kv.2 (map snd rest)).
  destruct (foldl_min_spec kv.2 (map snd rest)) as [Hmin_in Hmin_le].
  fold min_count in Hmin_in, Hmin_le.
  change (kv.2 :: map snd rest) with (map snd items) in Hmin_in, Hmin_le.
  set (candidates := map fst (filter (λ kv : Z * Z, kv.2 = min_count) items)).
  assert (∀ b, b ∈ candidates ↔ (b, min_count) ∈ items) as Hcand.
  { intros b. unfold candidates. rewrite list_elem_of_fmap. split.
    - intros ([b' c'] & -> & Hin). apply list_elem_of_filter in Hin.
      simpl in *. by destruct Hin as [-> ?].
    - intros Hin. exists (b, min_count). split; [done|].
      by apply list_elem_of_filter. }
  assert (candidates ≠ []) as Hne.
  { apply list_elem_of_fmap in Hmin_in as ([b c] & Hc & Hin).
    simpl in Hc. subst c. intros Hnil.
    assert (b ∈ candidates) as Hb by (by apply Hcand).
    rewrite Hnil in Hb. by apply not_elem_of_nil in Hb. }
  split; [|split].
  - intros pick b Hb. apply list_elem_of_lookup_2, Hcand in Hb.
    exists min_count. apply Hitems in Hb as [Hneed Hcount].
    split; [done|]. split; [done|]. intros b' c' Hb' Hc'.
    apply Hmin_le, list_elem_of_fmap. exists (b', c'). split; [done|].
    by apply Hitems.
  - intros b c (Hb & Hc & Hleast).
    assert (c = min_count) as ->.
    { apply Z.le_antisymm.
      - apply list_elem_of_fmap in Hmin_in as ([b' c'] & Hc' & Hin).
        simpl in Hc'. subst c'. apply Hitems in Hin as [Hn' Hc'].
        exact (Hleast b' _ Hn' Hc').
      - apply Hmin_le, list_elem_of_fmap. exists (b, c). split; [done|].
        by apply Hitems. }
    assert (b ∈ candidates) as Hin by (by apply Hcand, Hitems).
    apply list_elem_of_lookup_1 in Hin as [i Hi]. exists i.
    rewrite Nat.mod_small; [done|]. by eapply lookup_lt_Some.
  - intros pick. split.
    + intros Hnone. apply lookup_ge_None in Hnone.
      assert (length candidates ≠ 0%nat) by (by destruct candidates).
      pose proof (Nat.mod_upper_bound pick (length candidates)). lia.
    + intros Hall. exfalso. destruct kv as [b c].
      assert ((b, c) ∈ items) as Hin by apply list_elem_of_here.
      apply Hitems in Hin as [Hb Hc]. rewrite (Hall b Hb) in Hc. done.
Qed.

(** C3 (amended).  [select_rarest_blocks] of strategies.py returns blocks
of the missing list only, ordered by rarity ascending, where the rarity of
a block is the number of known peers advertising it, with ties broken by
ascending block id; every missing block left out ranks after every block
returned; and for a non-negative bound it returns
[min(max_blocks, len(missing))] blocks, so a block advertised by nobody is
not discarded.  [_select_rarest_block] of minibit-final returns a single
needed block: one with the least count among the needed blocks that have
an entry in the counter of advertised blocks, any of the tied ones
according to the draw, and nothing exactly when no needed block has an
entry. *)
Theorem rarest_blocks_selection (st : Strategies.t) missing max_blocks :
  let selected := Strategies.select_rarest_blocks st missing max_blocks in
  (∀ b, b ∈ selected → b ∈ missing)
  ∧ StronglySorted (ranks_before st) selected
  ∧ (∀ a b, a ∈ selected → b ∈ missing → b ∉ selected →
            ranks_before st a b)
  ∧ (0 ≤ max_blocks →
     length selected = (Z.to_nat max_blocks `min` length missing)%nat)
  ∧ (∀ (fp : FinalPeer.t) (block_counts : gmap Z Z),
       let least b c :=
         b ∈ FinalPeer.needed fp ∧ block_counts !! b = Some c
         ∧ ∀ b' c', b' ∈ FinalPeer.needed fp →
                    block_counts !! b' = Some c' → c ≤ c' in
       (∀ pick b,
          FinalPeer._select_rarest_block fp block_counts pick = Some b →
          ∃ c, least b c)
       ∧ (∀ b c, least b c →
            ∃ pick,
              FinalPeer._select_rarest_block fp block_counts pick = Some b)
       ∧ (∀ pick,
            FinalPeer._select_rarest_block fp block_counts pick = None
            ↔ ∀ b, b ∈ FinalPeer.needed fp → block_counts !! b = None)).
Proof.
  cbv zeta.
  cut ((∀ b, b ∈ Strategies.select_rarest_blocks st missing max_blocks →
             b ∈ missing)
       ∧ StronglySorted (ranks_before st)
           (Strategies.select_rarest_blocks st missing max_blocks)
       ∧ (∀ a b,
            a ∈ Strategies.select_rarest_blocks st missing max_blocks →
            b ∈ missing →
            b ∉ Strategies.select_rarest_blocks st missing max_blocks →
            ranks_before st a b)
       ∧ (0 ≤ max_blocks →
          length (Strategies.select_rarest_blocks st missing max_blocks)
          = (Z.to_nat max_blocks `min` length missing)%nat)).
  { intros (H1 & H2 & H3 & H4). repeat (split; [done|]).
    intros fp block_counts. apply (select_rarest_block_spec fp). }
  unfold Strategies.select_rarest_blocks.
  destruct missing as [|b0 missing'].
  { cbv zeta. repeat split; try done; [constructor|].
    intros. cbn [length]. lia. }
  cbv iota. remember (b0 :: missing') as missing eqn:Hm. clear Hm b0 missing'.
  set (key := λ b, (default 0 (Strategies._calculate_block_rarity st missing
                                 !! b), b)).
  set (cmp := λ a b, Strategies.key_leb (key a) (key b)).
  assert (∀ a b, a ∈ missing → b ∈ missing → cmp a b = true →
                 ranks_before st a b) as Hcmp.
  { intros a b Ha Hb. unfold cmp, key, Strategies.key_leb, ranks_before.
    rewrite !block_rarity_lookup, !decide_True by done. simpl.
    rewrite !orb_true_iff, !andb_true_iff, !Z.ltb_lt, !Z.eqb_eq, !Z.leb_le.
    done. }
  assert (∀ x y, cmp x y = true ∨ cmp y x = true) as Htot
    by (intros; apply key_leb_total).
  assert (∀ x y z, cmp x y = true → cmp y z = true → cmp x z = true)
    as Htrans by (intros x y z; apply key_leb_trans).
  match goal with
  | |- context [py_sorted ?f missing] => change f with cmp
  end.
  destruct (py_slice_to_take max_blocks (py_sorted cmp missing))
    as (m & -> & Hlen).
  cbv zeta.
  assert (∀ b, b ∈ take m (py_sorted cmp missing) → b ∈ missing) as Hsub.
  { intros b Hb. apply (py_sorted_elem_of cmp).
    by eapply subseteq_take. }
  repeat split.
  - done.
  - eapply StronglySorted_impl_elem_of;
      [|by apply py_sorted_take_sorted].
    intros x y Hx Hy. apply Hcmp; by apply Hsub.
  - intros a b Ha Hb Hnot. apply Hcmp; [by apply Hsub|done|].
    eapply (py_sorted_take_drop cmp Htot Htrans m missing); [done|].
    apply (py_sorted_elem_of cmp) in Hb.
    rewrite <- (take_drop m (py_sorted cmp missing)) in Hb.
    apply elem_of_app in Hb as [Hb|Hb]; done.
  - intros Hn. rewrite length_take, py_sorted_length, (Hlen Hn). done.
Qed.

(** C3, counterexample: block 0 is advertised by nobody and block 1 by
peer P; the scheduler returns block 0 first instead of discarding it. *)
Lemma unavailable_block_selected :
  Strategies.holders Samples.one_peer_has_1 0 = 0
  ∧ Strategies.select_rarest_blocks Samples.one_peer_has_1 [0; 1]
      Strategies.default_max_blocks = [0; 1].
Proof. split; vm_compute; reflexivity. Qed.

Lemma rarest_blocks_selection_witness :
  length
    (Strategies.select_rarest_blocks Samples.one_peer_has_1 [0; 1]
       Strategies.default_max_blocks) = 2%nat.
Proof.
  destruct (rarest_blocks_selection Samples.one_peer_has_1 [0; 1]
              Strategies.default_max_blocks) as (_ & _ & _ & Hlen & _).
  apply Hlen. unfold Strategies.default_max_blocks. lia.
Defined.

End Scheduler.

(** ** The place of an item in a sorted list *)
Section Places.
Context {A : Type} (leb : A → A → bool).
Hypothesis leb_total : ∀ x y, leb x y = true ∨ leb y x = true.
Hypothesis leb_trans :
  ∀ x y z, leb x y = true → leb y z = true → leb x z = true.









End Places.

(** ** The regular unchoke tick *)
Section RegularTick.
Import Ranking.

Lemma ascii_compare_refl c : Ascii.compare c c = Eq.
Proof. unfold Ascii.compare. apply N.compare_refl. Qed.











(** At 110 s the score of A is [3.0 * 0.1] and that of B is
[3 / 10.0].  The two are one tenth of three, but as floats the first
is the larger, and the tick unchokes A; at equal scores it would have
been B, whose id is the larger. *)
Lemma regular_tick_rounds_as_floats :
  (Strategies._calculate_tit_for_tat_score Samples.rounding_pair 110 "B"
   < Strategies._calculate_tit_for_tat_score Samples.rounding_pair 110 "A")%Q
  ∧ Strategies.unchoked_peers
      (Strategies.update_unchoked_peers Samples.rounding_pair 110
         ["A"; "B"]).2
    = {[ "A" ]}.
Proof.
  split; [by vm_compute|]. vm_compute. reflexivity.
Qed.


End RegularTick.

(** ** Splitting and assembling *)
Section RoundTrip.

Lemma file_read_app size rest :
  (file_read size rest).1 ++ (file_read size rest).2 = rest.
Proof.
  unfold file_read. destruct (size <? 0); simpl.
  - apply app_nil_r.
  - apply take_drop.
Qed.

Lemma file_read_empty size rest :
  size ≠ 0 → (file_read size rest).1 = [] → rest = [].
Proof.
  unfold file_read. intros Hsize. destruct (size <? 0) eqn:Hneg; simpl.
  - done.
  - apply Z.ltb_ge in Hneg. destruct rest as [|b rest]; [done|].
    destruct (Z.to_nat size) eqn:Hn; [lia|done].
Qed.

Lemma file_read_pos size rest :
  0 < size →
  file_read size rest
  = (take (Z.to_nat size) rest, drop (Z.to_nat size) rest).
Proof.
  intros Hsize. unfold file_read.
  by replace (size <? 0) with false by (symmetry; lia).
Qed.

(** The chunks of a file, put end to end, are the file. *)
Lemma read_chunks_concat size rest :
  size ≠ 0 → concat (read_chunks size rest) = rest.
Proof.
  intros Hsize. funelim (read_chunks size rest).
  - symmetry. apply (file_read_empty size); [done|]. by rewrite e.
  - simpl. rewrite H by done.
    pose proof (file_read_app size rest) as Happ. by rewrite Heq in Happ.
Qed.

(** Chunk [i] is the slice of [size] bytes that starts at [i * size]; it
is never empty, and never longer than [size]. *)
Lemma read_chunks_lookup size rest (i : nat) chunk :
  0 < size → read_chunks size rest !! i = Some chunk →
  chunk = take (Z.to_nat size) (drop (i * Z.to_nat size) rest)
  ∧ chunk ≠ [].
Proof.
  intros Hsize. revert i. funelim (read_chunks size rest); intros i Hi.
  - done.
  - pose proof Heq as Heq'. rewrite file_read_pos in Heq' by done.
    injection Heq' as Hc <-. symmetry in Hc.
    destruct i as [|i]; simpl in Hi.
    + injection Hi as <-. split; [exact Hc|done].
    + destruct (H chunk Hsize i Hi) as [Hch Hne]. split; [|done].
      rewrite Hch, drop_drop. by do 2 f_equal.
Qed.

(** The number of chunks is [ceil(S / size)]. *)
Lemma read_chunks_length size rest :
  0 < size →
  Z.of_nat (length (read_chunks size rest))
  = (Z.of_nat (length rest) + size - 1) `div` size.
Proof.
  intros Hsize. funelim (read_chunks size rest).
  - assert (rest = []) as ->.
    { apply (file_read_empty size); [lia|]. by rewrite e. }
    simpl. symmetry. apply Z.div_small. lia.
  - pose proof Heq as Heq'. rewrite file_read_pos in Heq' by done.
    injection Heq' as Hc <-. symmetry in Hc.
    cbn [length]. rewrite Nat2Z.inj_succ, H by done.
    rewrite length_drop.
    assert (length rest ≠ 0%nat) as Hrest.
    { destruct rest; [|done]. by rewrite take_nil in Hc. }
    destruct (decide (Z.of_nat (length rest) ≤ size)) as [Hle|Hgt].
    + replace (length rest - Z.to_nat size)%nat with 0%nat by lia.
      change (Z.of_nat 0) with 0.
      rewrite (Z.div_small (0 + size - 1)) by lia.
      change (Z.succ 0) with 1.
      apply (Z.div_unique _ _ 1 (Z.of_nat (length rest) - 1)); lia.
    + rewrite Nat2Z.inj_sub, Z2Nat.id by lia.
      replace (Z.of_nat (length rest) + size - 1)
        with ((Z.of_nat (length rest) - size + size - 1) + 1 * size) by lia.
      rewrite Z.div_add by lia. lia.
Qed.



















End RoundTrip.

Section RoundTripExamples.
Import Samples.


End RoundTripExamples.

(** ** Bitfields *)
Section Bitfields.















End Bitfields.

(** ** The choke controller under sequences of calls *)
Section Choke.
Import Strategies ChokeOps.

Lemma run_op_quiet st p o :
  declares_interest p o = false → quiet st p → quiet (run_op st o) p.
Proof.
  intros Ho [[Hi Hu] Hopt]. unfold quiet. destruct o as
    [now connected|now connected pick|now peer b n success|now peer b n
    |peer blocks|peer b|peer flag|now peer b|peer]; simpl.
  - unfold update_unchoked_peers. destruct (Qltb _ _); [done|].
    cbn [interested_peers set_last_unchoke_update].
    destruct (filter _ connected) as [|e l] eqn:He; [done|].
    rewrite <- He. clear He. split; [|done]. split; [done|].
    cbn [snd unchoked_peers set_unchoked_peers].
    rewrite elem_of_list_to_set, list_elem_of_fmap.
    intros ([s q] & -> & Hin). simpl in Hi.
    apply subseteq_take in Hin.
    unfold sort_scores in Hin. apply py_sorted_elem_of in Hin.
    apply list_elem_of_fmap in Hin as (q' & [= _ ->] & Hq).
    apply list_elem_of_filter in Hq as [Hq _]. done.
  - unfold select_optimistic_unchoke. destruct (Qltb _ _); [done|].
    cbn [interested_peers unchoked_peers set_last_optimistic_update].
    destruct (filter _ connected) as [|e l] eqn:He; [done|].
    split; [done|].
    cbn [snd optimistic_unchoke_peer set_optimistic_unchoke_peer].
    intros [= Hsel].
    assert (p ∈ e :: l) as Hin.
    { rewrite <- Hsel. destruct (_ !! _) as [x|] eqn:Hx; simpl.
      - by eapply list_elem_of_lookup_2.
      - apply list_elem_of_here. }
    rewrite <- He in Hin.
    apply list_elem_of_filter in Hin as [[Hin _] _]. done.
  - unfold record_download, _update_download_rate. destruct success; cbn; done.
  - unfold record_upload, _update_upload_rate. cbn. done.
  - done.
  - done.
  - destruct flag; simpl in Ho.
    + apply bool_decide_eq_false in Ho.
      split; [|done]. split; [|done]. simpl.
      rewrite elem_of_union, elem_of_singleton.
      intros [->|?]; done.
    + split; [|done]. split; [|done]. simpl.
      rewrite elem_of_difference. tauto.
  - unfold should_request_from_peer.
    destruct (negb _); [by repeat split|].
    destruct (_ && _); [by repeat split|].
    destruct (Qltb _ _); [by repeat split|].
    destruct (_ && _); by repeat split.
  - split; [split|]; simpl.
    + rewrite elem_of_difference. tauto.
    + rewrite elem_of_difference. tauto.
    + case_bool_decide; done.
Qed.


Lemma remove_peer_quiet st p : quiet (remove_peer st p) p.
Proof.
  split; [split|]; simpl.
  - rewrite elem_of_difference, elem_of_singleton. tauto.
  - rewrite elem_of_difference, elem_of_singleton. tauto.
  - case_bool_decide; [done|]. done.
Qed.

(** X1.  After [remove_peer(p)], and whatever the node calls next short of
[set_peer_interested(p, True)], peer [p] is in no unchoke slot: it is not
in the regular set, it is not the optimistic peer, and neither tick run
on the state reached selects it. *)
Theorem removed_peer_stays_choked (st : t) (p : string) (ops : list op) :
  Forall (λ o, declares_interest p o = false) ops →
  let st' := run (remove_peer st p) ops in
  (p ∉ unchoked_peers st')
  ∧ optimistic_unchoke_peer st' ≠ Some p
  ∧ (∀ now connected,
       p ∉ unchoked_peers (update_unchoked_peers st' now connected).2)
  ∧ (∀ now connected pick,
       (select_optimistic_unchoke st' now connected pick).1 ≠ Some p).
Proof.
  intros Hops. cbv zeta.
  assert (quiet (run (remove_peer st p) ops) p) as Hq.
  { unfold run. pose proof (remove_peer_quiet st p) as H0.
    revert H0. generalize (remove_peer st p).
    induction Hops as [|o ops Ho Hops IH]; intros s Hs; [done|].
    simpl. apply IH. by apply run_op_quiet. }
  split; [apply Hq|]. split; [apply Hq|]. split.
  - intros now connected.
    apply (run_op_quiet _ p (op_regular_tick now connected) eq_refl Hq).
  - intros now connected pick.
    pose proof (run_op_quiet _ p (op_optimistic_tick now connected pick)
                  eq_refl Hq) as [[Hi _] Ho].
    cbn [run_op] in Ho, Hi. revert Ho Hi.
    unfold select_optimistic_unchoke. destruct (Qltb _ _); [done|].
    destruct (filter _ connected); done.
Qed.

Lemma half_le s t :
  0 < t → Qltb (inject_Z s / inject_Z t) (1 # 2) = false ↔ t ≤ 2 * s.
Proof.
  intros Ht. unfold Qltb. rewrite negb_false_iff, Qle_bool_iff.
  destruct t as [|t|t]; [lia| |lia].
  unfold Qle, Qdiv, Qmult, Qinv, inject_Z. simpl.
  rewrite Pos.mul_1_l. lia.
Qed.

(** [should_request_from_peer] answers [True] exactly when the peer
advertises the block, holds an unchoke slot, was last asked at least a
second ago, and has at most five recorded requests or a success rate of
at least one half. *)
Lemma should_request_from_peer_spec (st : t) now p b :
  let r := should_request_from_peer st now p b in
  let successes := counter (successful_downloads st) p in
  let total := successes + counter (failed_requests st) p in
  (r.1 = true ↔
     (∃ blocks, peer_blocks st !! p = Some blocks ∧ b ∈ blocks)
     ∧ (p ∈ unchoked_peers st ∨ optimistic_unchoke_peer st = Some p)
     ∧ (1 <= now - default 0%Q (peer_last_request st !! p))%Q
     ∧ (total ≤ 5 ∨ total ≤ 2 * successes)).
Proof.
  cbv zeta. unfold should_request_from_peer, advertises.
  destruct (peer_blocks st !! p) as [blocks|] eqn:Hpb; cbn [negb]; cycle 1.
  { split; [done|]. by intros [(? & ? & _) _]. }
  case_bool_decide as Hb; cbn [negb]; cycle 1.
  { split; [done|]. intros [(? & [= <-] & ?) _]. done. }
  case_bool_decide as Hu; case_bool_decide as Ho; cbn [negb andb].
  4:{ split; [done|]. intros (_ & [?|?] & _); done. }
  all: unfold Qltb at 1; destruct (Qle_bool 1 _) eqn:Hlast; cbn [negb].
  all: try (split; [done|]; intros (_ & _ & Hl & _);
            apply Qle_bool_iff in Hl; congruence).
  all: apply Qle_bool_iff in Hlast.
  all: destruct (5 <? _) eqn:H5; cbn [andb fst].
  all: try (apply Z.ltb_ge in H5; split; [intros _|done];
            split; [by eexists|]; split; [tauto|]; split; [done|]; by left).
  all: apply Z.ltb_lt in H5.
  all: destruct (Qltb (_ / _) _) eqn:Hhalf; cbn [fst].
  all: try (apply half_le in Hhalf; [|lia]; split; [intros _|done];
            split; [by eexists|]; split; [tauto|]; split; [done|]; by right).
  all: split; [done|]; intros (_ & _ & _ & [?|Hh]); [lia|].
  all: apply half_le in Hh; [congruence|lia].
Qed.

Lemma counter_insert (d : gmap string Z) p q v :
  counter (<[p := v]> d) q = if bool_decide (q = p) then v else counter d q.
Proof.
  unfold counter. case_bool_decide as Hq.
  - subst. by rewrite lookup_insert_eq.
  - by rewrite lookup_insert_ne.
Qed.

Lemma record_failures_counters (st : t) p (fails : list (Q * Z * Z)) :
  let st' := foldl (λ s e, record_download s e.1.1 p e.1.2 e.2 false)
                   st fails in
  counter (successful_downloads st') p = counter (successful_downloads st) p
  ∧ counter (failed_requests st') p
    = counter (failed_requests st) p + Z.of_nat (length fails).
Proof.
  cbv zeta. revert st. induction fails as [|e fails IH]; intros st.
  - simpl. lia.
  - cbn [foldl length]. destruct (IH (record_download st e.1.1 p e.1.2 e.2 false))
      as [-> ->].
    unfold record_download, _update_download_rate.
    cbn [successful_downloads failed_requests set_peer_download_rates
         set_failed_requests].
    rewrite counter_insert, bool_decide_eq_true_2 by done. lia.
Qed.

(** X2.  Once more than five requests to a peer are on record and fewer
than half of them succeeded, further failures keep the peer out:
[should_request_from_peer] answers [False] for every block, at any time,
whatever slot the peer holds. *)
Theorem failing_peer_not_requested (st : t) p (fails : list (Q * Z * Z))
    now b :
  let st' := foldl (λ s e, record_download s e.1.1 p e.1.2 e.2 false)
                   st fails in
  let successes := counter (successful_downloads st) p in
  let total := successes + counter (failed_requests st) p
               + Z.of_nat (length fails) in
  5 < total → 2 * successes < total →
  (should_request_from_peer st' now p b).1 = false.
Proof.
  cbv zeta. intros H5 Hhalf.
  destruct (record_failures_counters st p fails) as [Hs Hf].
  destruct (should_request_from_peer _ now p b).1 eqn:Hr; [|done].
  apply should_request_from_peer_spec in Hr as (_ & _ & _ & Hc).
  rewrite Hs, Hf in Hc. lia.
Qed.

Lemma history_cap (h : list (Q * Z)) e :
  let h1 := h ++ [e] in
  let h' := if (10 <? length h1)%nat then drop (length h1 - 10)%nat h1 else h1 in
  (length h' ≤ 10)%nat ∧ last h' = Some e ∧ h' `suffix_of` h1.
Proof.
  cbv zeta. destruct (10 <? length (h ++ [e]))%nat eqn:Hlen.
  - apply Nat.ltb_lt in Hlen. split; [rewrite length_drop; lia|]. split.
    + rewrite drop_app_le by (rewrite length_app in *; simpl in *; lia).
      apply last_snoc.
    + apply suffix_drop.
  - apply Nat.ltb_ge in Hlen. split; [done|]. split; [apply last_snoc|done].
Qed.

Lemma history_of_insert (d : gmap string (list (Q * Z))) p q h :
  history_of (<[p := h]> d) q = if bool_decide (q = p) then h else history_of d q.
Proof.
  unfold history_of. case_bool_decide as Hq.
  - subst. by rewrite lookup_insert_eq.
  - by rewrite lookup_insert_ne.
Qed.

(** X3.  A successful [record_download] and a [record_upload] leave at
most ten entries in the history of the peer, the new entry last, the
others being the most recent ones of the old history; the histories of
the other peers are untouched. *)
Theorem history_bounded (st : t) now p b n :
  let hd := history_of (download_history (record_download st now p b n true)) in
  let hu := history_of (upload_history (record_upload st now p b n)) in
  ((length (hd p) ≤ 10)%nat ∧ last (hd p) = Some (now, n)
   ∧ hd p `suffix_of` (history_of (download_history st) p ++ [(now, n)])
   ∧ ∀ q, q ≠ p → hd q = history_of (download_history st) q)
  ∧ ((length (hu p) ≤ 10)%nat ∧ last (hu p) = Some (now, n)
     ∧ hu p `suffix_of` (history_of (upload_history st) p ++ [(now, n)])
     ∧ ∀ q, q ≠ p → hu q = history_of (upload_history st) q).
Proof.
  cbv zeta. split.
  - unfold record_download, _update_download_rate.
    cbn [download_history set_peer_download_rates set_download_history
         set_successful_downloads].
    rewrite history_of_insert, bool_decide_eq_true_2 by done.
    destruct (history_cap (history_of (download_history st) p) (now, n))
      as (H1 & H2 & H3).
    split; [exact H1|]. split; [exact H2|]. split; [exact H3|].
    intros q Hq. by rewrite history_of_insert, bool_decide_eq_false_2.
  - unfold record_upload, _update_upload_rate.
    cbn [upload_history set_peer_upload_rates set_upload_history].
    rewrite history_of_insert, bool_decide_eq_true_2 by done.
    destruct (history_cap (history_of (upload_history st) p) (now, n))
      as (H1 & H2 & H3).
    split; [exact H1|]. split; [exact H2|]. split; [exact H3|].
    intros q Hq. by rewrite history_of_insert, bool_decide_eq_false_2.
Qed.

Lemma removed_peer_stays_choked_witness :
  "A" ∉ unchoked_peers
          (run (remove_peer knows_a "A") [op_regular_tick 10%Q ["A"]]).
Proof.
  apply (removed_peer_stays_choked knows_a "A" [op_regular_tick 10%Q ["A"]]).
  repeat constructor.
Defined.

Lemma failing_peer_not_requested_witness :
  (should_request_from_peer
     (foldl (λ s e, record_download s e.1.1 "A" e.1.2 e.2 false)
            knows_a six_failures) 7%Q "A" 0).1 = false.
Proof.
  apply (failing_peer_not_requested knows_a "A" six_failures 7%Q 0);
    vm_compute; reflexivity.
Defined.

End Choke.

(** ** Choosing whom to ask *)
Section Requests.
Import Strategies.

Lemma score_candidates_peers (st : t) noise l :
  map snd (score_candidates st noise l).1 = l.
Proof.
  unfold score_candidates.
  assert (∀ acc, map snd (foldl (λ acc peer,
           let r := _calculate_peer_download_score acc.2 peer (noise peer) in
           (acc.1 ++ [(r.1, peer)], r.2)) acc l).1 = map snd acc.1 ++ l) as H.
  { induction l as [|p l IH]; intros acc; simpl.
    - by rewrite app_nil_r.
    - rewrite IH. simpl. rewrite map_app. simpl. by rewrite <- app_assoc. }
  by rewrite H.
Qed.

(** X4.  [select_download_peers] returns distinct peers, each of which
advertises the block and is interested, at most [max_peers] of them for a
non-negative bound; with a positive bound the answer is empty only when
no interested peer advertises the block. *)
Theorem select_download_peers_spec (st : t) b max_peers noise :
  let selected := (select_download_peers st b max_peers noise).1 in
  let candidate p :=
    (∃ blocks, peer_blocks st !! p = Some blocks ∧ b ∈ blocks)
    ∧ p ∈ interested_peers st in
  NoDup selected
  ∧ (∀ p, p ∈ selected → candidate p)
  ∧ (0 ≤ max_peers → Z.of_nat (length selected) ≤ max_peers)
  ∧ (0 < max_peers → selected = [] → ∀ p, ¬ candidate p).
Proof.
  cbv zeta. unfold select_download_peers.
  set (cands := map fst (filter _ (map_to_list (peer_blocks st)))).
  assert (NoDup cands) as Hnd.
  { unfold cands.
    eapply sublist_NoDup; [apply (NoDup_fst_map_to_list (peer_blocks st))|].
    apply fmap_sublist, sublist_filter. }
  assert (∀ p, p ∈ cands ↔
            (∃ blocks, peer_blocks st !! p = Some blocks ∧ b ∈ blocks)
            ∧ p ∈ interested_peers st) as Hc.
  { intros p. unfold cands. rewrite list_elem_of_fmap. split.
    - intros ([q blocks] & -> & Hin).
      apply list_elem_of_filter in Hin as [[Hb Hi] Hin].
      apply elem_of_map_to_list in Hin. simpl in *. split; [|done].
      by exists blocks.
    - intros [(blocks & Hp & Hb) Hi]. exists (p, blocks). split; [done|].
      apply list_elem_of_filter. split; [done|].
      by apply elem_of_map_to_list. }
  destruct cands as [|c0 cs] eqn:Hcs.
  { cbn [fst]. split; [constructor|]. split.
    - intros p Hp. by apply not_elem_of_nil in Hp.
    - split; [simpl; lia|]. intros _ _ p Hp. apply Hc in Hp.
      by apply not_elem_of_nil in Hp. }
  rewrite <- Hcs in *. cbn [fst].
  set (scored := (score_candidates st noise cands).1).
  assert (map snd scored = cands) as Hsnd by apply score_candidates_peers.
  destruct (py_slice_to_take max_peers (sort_scores scored)) as (m & -> & Hm).
  assert (map snd (sort_scores scored) ≡ₚ cands) as Hperm.
  { rewrite <- Hsnd. apply fmap_Permutation. unfold sort_scores.
    apply py_sorted_perm. }
  assert (map snd (take m (sort_scores scored))
          `sublist_of` map snd (sort_scores scored)) as Hsub
    by apply fmap_sublist, sublist_take.
  split; [|split; [|split]].
  - eapply sublist_NoDup; [|exact Hsub]. by rewrite Hperm.
  - intros p Hp. apply Hc. rewrite <- Hperm.
    eapply elem_of_sublist; [exact Hp|exact Hsub].
  - intros Hpos. rewrite length_map, length_take, (Hm Hpos). lia.
  - intros Hpos Hnil p Hp. apply Hc in Hp.
    assert (length (take m (sort_scores scored)) = 0%nat) as Hlen
      by (by rewrite <- (length_map snd), Hnil).
    rewrite length_take, Hm in Hlen by lia.
    unfold sort_scores in Hlen. rewrite py_sorted_length in Hlen.
    rewrite <- (length_map snd), Hsnd, Hcs in Hlen. simpl in Hlen. lia.
Qed.

Lemma holders_perm (st st' : t) b :
  map_to_list (peer_blocks st') ≡ₚ map_to_list (peer_blocks st) →
  holders st' b = holders st b.
Proof. unfold holders. by intros ->. Qed.

(** X5.  [add_peer_block(p, b)] raises the number of known holders of [b]
by one when [p] did not advertise [b] yet, and changes the count of no
other block. *)
Theorem add_peer_block_rarity (st : t) p b b' :
  holders (add_peer_block st p b) b'
  = holders st b'
    + (if bool_decide (b' = b) && negb (advertises st p b) then 1 else 0).
Proof.
  unfold holders, add_peer_block, advertises.
  cbn [peer_blocks set_peer_blocks].
  destruct (peer_blocks st !! p) as [blocks|] eqn:Hp; cbn [default].
  - rewrite <- (insert_delete_eq (peer_blocks st)).
    rewrite map_to_list_insert by apply lookup_delete_eq.
    rewrite <- (map_to_list_delete (peer_blocks st) p blocks Hp).
    rewrite !filter_cons. cbn [snd].
    destruct (decide (b' = b)) as [->|Hne].
    + rewrite (bool_decide_eq_true_2 (b = b)) by done. cbn [andb].
      rewrite decide_True by (apply elem_of_union_l, elem_of_singleton; done).
      case_bool_decide as Hb; cbn [negb].
      * rewrite decide_True by done. cbn [length]. lia.
      * rewrite decide_False by done. cbn [length]. lia.
    + rewrite (bool_decide_eq_false_2 (b' = b)) by done. cbn [andb].
      destruct (decide (b' ∈ blocks)) as [Hin|Hin].
      * rewrite decide_True by (by apply elem_of_union_r). cbn [length]. lia.
      * rewrite decide_False; [lia|].
        rewrite elem_of_union, elem_of_singleton. tauto.
  - rewrite map_to_list_insert by done.
    rewrite filter_cons. cbn [snd negb].
    rewrite union_empty_r_L, andb_true_r.
    case_bool_decide as Hb.
    + subst. rewrite decide_True by (by apply elem_of_singleton).
      cbn [length]. lia.
    + rewrite decide_False by (by rewrite elem_of_singleton). lia.
Qed.

End Requests.

(** ** Random draws *)
Section Sampling.
Context {A : Type}.

Lemma delete_sublist (l : list A) i : delete i l `sublist_of` l.
Proof.
  revert i. induction l as [|x l IH]; intros [|i]; simpl.
  - done.
  - done.
  - by apply sublist_cons.
  - by apply sublist_skip.
Qed.

Lemma NoDup_delete_lookup (l : list A) i x :
  NoDup l → l !! i = Some x → x ∉ delete i l.
Proof.
  intros Hnd Hi. rewrite delete_take_drop.
  rewrite <- (take_drop_middle l i x Hi) in Hnd.
  apply NoDup_app in Hnd as (_ & Hdisj & Hnd).
  apply NoDup_cons in Hnd as [Hx _].
  rewrite elem_of_app. intros [Hin|Hin]; [|done].
  apply (Hdisj x Hin), list_elem_of_here.
Qed.

Lemma py_sample_elem_of (population : list A) k picks x :
  x ∈ py_sample population k picks → x ∈ population.
Proof.
  revert population picks. induction k as [|k IH]; intros l picks; simpl.
  - intros H. by apply not_elem_of_nil in H.
  - destruct (l !! _) as [y|] eqn:Hy.
    + intros [->|Hin]%elem_of_cons.
      * by eapply list_elem_of_lookup_2.
      * apply IH in Hin. eapply elem_of_sublist; [exact Hin|].
        apply delete_sublist.
    + intros H. by apply not_elem_of_nil in H.
Qed.

Lemma py_sample_NoDup (population : list A) k picks :
  NoDup population → NoDup (py_sample population k picks).
Proof.
  revert population picks. induction k as [|k IH]; intros l picks Hnd; simpl.
  - constructor.
  - destruct (l !! _) as [y|] eqn:Hy; [|constructor].
    constructor.
    + intros Hin. apply py_sample_elem_of in Hin.
      by eapply NoDup_delete_lookup.
    + apply IH. eapply sublist_NoDup; [exact Hnd|apply delete_sublist].
Qed.

Lemma py_sample_length (population : list A) k picks :
  (k ≤ length population)%nat →
  length (py_sample population k picks) = k.
Proof.
  revert population picks. induction k as [|k IH]; intros l picks Hk; simpl.
  - done.
  - destruct l as [|a l]; [simpl in Hk; lia|].
    assert (hd 0%nat picks `mod` length (a :: l) < length (a :: l))%nat
      as Hlt by (apply Nat.mod_upper_bound; simpl; lia).
    destruct (lookup_lt_is_Some_2 _ _ Hlt) as [y Hy]. rewrite Hy. simpl.
    f_equal. apply IH. rewrite length_delete by eauto. simpl in *. lia.
Qed.

End Sampling.

Lemma py_sample_fmap {A B} (f : A → B) (population : list A) k picks :
  f <$> py_sample population k picks = py_sample (f <$> population) k picks.
Proof.
  revert population picks. induction k as [|k IH]; intros l picks; simpl.
  - done.
  - rewrite length_fmap, list_lookup_fmap.
    destruct (l !! _) as [y|] eqn:Hy; simpl; [|done].
    f_equal. rewrite IH. f_equal.
    generalize (hd 0%nat picks `mod` length l)%nat. clear.
    intros i. revert i. induction l as [|x l IH]; intros [|i]; simpl;
      try done. by rewrite IH.
Qed.

(** ** The tracker *)
Section Tracker.
Import TrackerServer.

Lemma generate_initial_blocks_some (total_blocks : Z) draw picks :
  1 ≤ total_blocks →
  is_Some (_generate_initial_blocks total_blocks draw picks).
Proof.
  intros Hpos. unfold _generate_initial_blocks, py_randint.
  set (lo := Z.max 1 (total_blocks `div` 5)).
  set (hi := Z.max lo (total_blocks `div` 2)).
  pose proof (Z.mod_pos_bound (Z.of_nat draw) (hi - lo + 1)) as Hmod.
  assert (total_blocks `div` 5 ≤ total_blocks `div` 2) as H52.
  { apply Z.div_le_compat_l; lia. }
  assert (total_blocks `div` 2 ≤ total_blocks) as H2.
  { apply Z.div_le_upper_bound; lia. }
  rewrite length_seqZ.
  rewrite (proj2 (Z.ltb_ge _ 0)) by lia.
  rewrite (proj2 (Z.ltb_ge _ _)) by lia. by eexists.
Qed.

(** X6.  [_generate_initial_blocks] fails for a file without blocks
([random.sample] raises, so the registration is dropped); for a file of
at least one block it hands out distinct block ids of the file, at least
[max(1, total // 5)] and at most [max(1, total // 2)] of them. *)
Theorem generate_initial_blocks_spec (total_blocks : Z) draw picks :
  (total_blocks ≤ 0 →
   _generate_initial_blocks total_blocks draw picks = None)
  ∧ (1 ≤ total_blocks →
     ∃ blocks,
       _generate_initial_blocks total_blocks draw picks = Some blocks
       ∧ NoDup blocks
       ∧ (∀ b, b ∈ blocks → 0 ≤ b < total_blocks)
       ∧ Z.max 1 (total_blocks `div` 5) ≤ Z.of_nat (length blocks)
       ∧ Z.of_nat (length blocks) ≤ Z.max 1 (total_blocks `div` 2)).
Proof.
  unfold _generate_initial_blocks, py_randint.
  set (lo := Z.max 1 (total_blocks `div` 5)).
  set (hi := Z.max lo (total_blocks `div` 2)).
  assert (lo ≤ hi) as Hlh by lia.
  pose proof (Z.mod_pos_bound (Z.of_nat draw) (hi - lo + 1)) as Hmod.
  set (num := lo + Z.of_nat draw `mod` (hi - lo + 1)) in *.
  assert (lo ≤ num ≤ hi) as Hnum by lia.
  rewrite length_seqZ. split.
  - intros Hle. rewrite (proj2 (Z.ltb_ge num 0)) by lia.
    rewrite (proj2 (Z.ltb_lt _ num)) by lia. done.
  - intros Hpos.
    assert (total_blocks `div` 5 ≤ total_blocks `div` 2) as H52.
    { apply Z.div_le_compat_l; lia. }
    assert (total_blocks `div` 2 ≤ total_blocks) as H2.
    { apply Z.div_le_upper_bound; lia. }
    assert (hi = Z.max 1 (total_blocks `div` 2)) as Hhi by lia.
    rewrite (proj2 (Z.ltb_ge num 0)) by lia.
    rewrite (proj2 (Z.ltb_ge _ num)) by lia.
    cbn [orb]. eexists. split; [done|]. split; [|split].
    + apply py_sample_NoDup, NoDup_seqZ.
    + intros b Hb. apply py_sample_elem_of, elem_of_seqZ in Hb. lia.
    + rewrite py_sample_length by (rewrite length_seqZ; lia). lia.
Qed.


Lemma drop_peer_consistent (st : t) p info :
  consistent st → peers st !! p = Some info →
  consistent (drop_peer st p info).
Proof.
  intros [Hreg Hne] Hp.
  destruct (Hreg p info Hp) as (_ & g & Hg & Hpg).
  unfold drop_peer. rewrite Hg. split.
  - intros q info' Hq. cbn [peers] in Hq.
    apply lookup_delete_Some in Hq as [Hpq Hq].
    destruct (Hreg q info' Hq) as (Hid & g' & Hg' & Hqg'). split; [done|].
    cbn [file_peers].
    destruct (decide (file_hash info' = file_hash info)) as [Heq|Hneq].
    + rewrite Heq in *. assert (g' = g) as -> by congruence.
      assert (q ∈ g ∖ {[p]}) as Hin.
      { apply elem_of_difference. split; [done|].
        rewrite elem_of_singleton. congruence. }
      rewrite bool_decide_eq_false_2.
      * exists (g ∖ {[p]}). by rewrite lookup_insert_eq.
      * intros Hempty. rewrite Hempty in Hin. by apply not_elem_of_empty in Hin.
    + exists g'. split; [|done]. case_bool_decide.
      * by rewrite lookup_delete_ne.
      * by rewrite lookup_insert_ne.
  - intros h g'. cbn [file_peers]. case_bool_decide as Hempty.
    + intros [_ Hh]%lookup_delete_Some. by eapply Hne.
    + destruct (decide (h = file_hash info)) as [->|Hneq].
      * rewrite lookup_insert_eq. by intros [= <-].
      * rewrite lookup_insert_ne by done. apply Hne.
Qed.

Lemma register_consistent (st st' : t) now message draw picks r :
  consistent st →
  _handle_register_peer st now message draw picks = Some (r, st') →
  consistent st'.
Proof.
  intros [Hreg Hne]. unfold _handle_register_peer.
  destruct (_generate_initial_blocks _ _ _) as [blocks|]; [|done].
  cbn [mbind option_bind]. intros [= _ <-].
  set (p := msg_peer_id message).
  set (h := default "default" (d_file_hash (data message))). split.
  - intros q info. cbn [peers file_peers].
    destruct (decide (q = p)) as [->|Hq].
    + rewrite lookup_insert_eq. intros [= <-]. cbn [peer_id file_hash].
      split; [done|]. eexists. rewrite lookup_insert_eq. split; [done|].
      apply elem_of_union_l. by apply elem_of_singleton.
    + rewrite lookup_insert_ne by done. intros Hin.
      destruct (Hreg q info Hin) as (Hid & g & Hg & Hqg). split; [done|].
      destruct (decide (file_hash info = h)) as [Heq|Hneq].
      * rewrite Heq in *. rewrite lookup_insert_eq. eexists. split; [done|].
        rewrite Hg. cbn [from_option id]. by apply elem_of_union_r.
      * exists g. by rewrite lookup_insert_ne.
  - intros h' g. cbn [file_peers]. destruct (decide (h' = h)) as [->|Hneq].
    + rewrite lookup_insert_eq. intros [= <-] Hempty.
      assert (p ∈ ({[p]} ∪ default ∅ (file_peers st !! h) : gset string))
        as Hin by (apply elem_of_union_l; by apply elem_of_singleton).
      rewrite Hempty in Hin. by apply not_elem_of_empty in Hin.
    + rewrite lookup_insert_ne by done. apply Hne.
Qed.

Lemma heartbeat_consistent (st : t) now message :
  consistent st → consistent (_handle_heartbeat st now message).2.
Proof.
  intros [Hreg Hne]. unfold _handle_heartbeat.
  destruct (peers st !! msg_peer_id message) as [i|] eqn:Hi; [|done].
  cbn [snd]. split; [|exact Hne].
  intros q info. cbn [peers file_peers].
  destruct (decide (q = msg_peer_id message)) as [->|Hq].
  - rewrite lookup_insert_eq. intros [= <-]. cbn [peer_id file_hash].
    apply (Hreg _ _ Hi).
  - rewrite lookup_insert_ne by done. apply Hreg.
Qed.

Lemma cleanup_consistent (st : t) now :
  consistent st → consistent (_cleanup_inactive_peers st now).
Proof.
  unfold _cleanup_inactive_peers. generalize (map fst
    (filter (λ kv : string * PeerInfo, is_alive kv.2 now = false)
       (map_to_list (peers st)))). intros l. revert st.
  induction l as [|p l IH]; intros st Hst; [done|].
  cbn [foldl]. apply IH. destruct (peers st !! p) eqn:Hp; [|done].
  by apply drop_peer_consistent.
Qed.

Lemma step_consistent (st : t) e : consistent st → consistent (step st e).
Proof.
  intros Hst. destruct e as [now message draw picks|now]; cbn [step].
  - unfold _process_message.
    destruct (String.eqb _ "register_peer").
    { destruct (_handle_register_peer _ _ _ _ _) as [[r st']|] eqn:Hr;
        [|done]. by eapply register_consistent. }
    destruct (String.eqb _ "get_peers"); [done|].
    destruct (String.eqb _ "remove_peer").
    { cbn [snd]. unfold _handle_remove_peer.
      destruct (peers st !! _) eqn:Hp; [|done].
      by apply drop_peer_consistent. }
    destruct (String.eqb _ "heartbeat"); [|done].
    by apply heartbeat_consistent.
  - by apply cleanup_consistent.
Qed.

(** X7.  Whatever messages arrive and whenever the cleanup runs, the
tables of the tracker agree: every registered peer is recorded under its
own id and is a member of the group of its file, and no group is
empty. *)
Theorem tracker_tables_consistent (events : list event) :
  consistent (run events).
Proof.
  unfold run. assert (consistent init) as H0.
  { split; intros ??; cbn; by rewrite lookup_empty. }
  revert H0. generalize init.
  induction events as [|e events IH]; intros st Hst; [done|].
  cbn [foldl]. apply IH. by apply step_consistent.
Qed.

Lemma available_peers_spec (st : t) now requester h e :
  e ∈ available_peers st now requester h ↔
    e_peer_id e ≠ requester
    ∧ (∃ group, file_peers st !! h = Some group ∧ e_peer_id e ∈ group)
    ∧ ∃ info, peers st !! e_peer_id e = Some info
              ∧ is_alive info now = true
              ∧ e_host e = host info ∧ e_port e = port info.
Proof.
  unfold available_peers. destruct (file_peers st !! h) as [g|] eqn:Hg.
  - rewrite list_elem_of_omap. split.
    + intros (p & Hp & He). apply elem_of_elements in Hp.
      case_bool_decide as Hne; [|done].
      destruct (peers st !! p) as [info|] eqn:Hi; [|done].
      destruct (is_alive info now) eqn:Ha; [|done].
      injection He as <-. cbn. split; [done|]. split; [by exists g|].
      by exists info.
    + intros (Hne & (g' & [= <-] & Hin) & info & Hi & Ha & Hh & Hp).
      exists (e_peer_id e). split; [by apply elem_of_elements|].
      rewrite bool_decide_eq_true_2, Hi, Ha by done.
      destruct e; cbn in *; by subst.
  - split; [intros H; by apply not_elem_of_nil in H|].
    by intros (_ & (? & ? & _) & _).
Qed.

Lemma available_peers_NoDup (st : t) now requester h :
  NoDup (e_peer_id <$> available_peers st now requester h).
Proof.
  unfold available_peers. destruct (file_peers st !! h) as [g|];
    [|constructor].
  pose proof (NoDup_elements g) as Hnd. revert Hnd.
  generalize (elements g). intros l. induction 1 as [|p l Hp Hnd IH].
  - constructor.
  - cbn [omap list_omap]. case_bool_decide; [|exact IH].
    destruct (peers st !! p) as [info|]; [|exact IH].
    destruct (is_alive info now); [|exact IH].
    cbn [fmap list_fmap e_peer_id]. constructor; [|exact IH].
    rewrite list_elem_of_fmap. intros (e & He & Hin).
    apply list_elem_of_omap in Hin as (q & Hq & Hsome).
    case_bool_decide; [|done]. destruct (peers st !! q) as [i|]; [|done].
    destruct (is_alive i now); [|done]. injection Hsome as <-.
    cbn in He. by subst.
Qed.

Lemma handle_get_peers_entries (st : t) now message picks l total e :
  _handle_get_peers st now message picks
  = Some (get_peers_response l total) →
  e ∈ l →
  e ∈ available_peers st now (msg_peer_id message)
        (default "default" (d_file_hash (data message))).
Proof.
  unfold _handle_get_peers. destruct (_ <? Z.of_nat _).
  - destruct (_ <? 0); [done|]. intros [= <- _] He.
    by apply py_sample_elem_of in He.
  - by intros [= <- _].
Qed.

(** X8.  The answer to [get_peers] never names the requester, names no
peer twice, and has at most [TRACKER_MAX_PEERS_RETURNED] entries; every
entry is a registered member of the file's group whose last heartbeat is
less than 60 s old, with the host and port it registered.
['total_peers'] is the size of the group.  When a negative [max_peers]
is asked for, [random.sample] raises and no answer is sent; otherwise
there is one. *)
Theorem get_peers_listing (st : t) now message picks :
  let requester := msg_peer_id message in
  let h := default "default" (d_file_hash (data message)) in
  match _handle_get_peers st now message picks with
  | Some (get_peers_response l total_peers) =>
      NoDup (e_peer_id <$> l)
      ∧ Z.of_nat (length l) ≤ TRACKER_MAX_PEERS_RETURNED
      ∧ (∀ m, d_max_peers (data message) = Some m →
              0 ≤ m ∧ Z.of_nat (length l) ≤ m)
      ∧ total_peers = Z.of_nat (size (default ∅ (file_peers st !! h)))
      ∧ ∀ e, e ∈ l →
          e_peer_id e ≠ requester
          ∧ (∃ group, file_peers st !! h = Some group ∧ e_peer_id e ∈ group)
          ∧ ∃ info, peers st !! e_peer_id e = Some info
                    ∧ is_alive info now = true
                    ∧ e_host e = host info ∧ e_port e = port info
  | Some _ => False
  | None => ∃ m, d_max_peers (data message) = Some m ∧ m < 0
  end.
Proof.
  cbv zeta. unfold _handle_get_peers.
  set (avail := available_peers st now _ _).
  set (mx := Z.min _ _).
  assert (mx ≤ TRACKER_MAX_PEERS_RETURNED) as Hmx by (unfold mx; lia).
  assert (∀ m, d_max_peers (data message) = Some m → mx ≤ m) as Hm.
  { intros m Hd. unfold mx. rewrite Hd. cbn [from_option id]. lia. }
  destruct (mx <? Z.of_nat (length avail)) eqn:Hlen.
  - apply Z.ltb_lt in Hlen. destruct (mx <? 0) eqn:Hneg.
    + apply Z.ltb_lt in Hneg.
      clear Hm. destruct (d_max_peers (data message)) as [m|] eqn:Hd;
          subst mx; cbn [from_option id] in Hneg;
          unfold TRACKER_MAX_PEERS_RETURNED in *;
          [exists m; split; [done|lia] | lia].
    + apply Z.ltb_ge in Hneg.
      assert (length (py_sample avail (Z.to_nat mx) picks) = Z.to_nat mx)
        as Hl by (apply py_sample_length; lia).
      split; [|split; [|split; [|split]]].
      * rewrite py_sample_fmap. apply py_sample_NoDup.
        apply available_peers_NoDup.
      * lia.
      * intros m Hd. specialize (Hm m Hd). lia.
      * done.
      * intros e He. apply py_sample_elem_of in He.
        by apply available_peers_spec in He.
  - apply Z.ltb_ge in Hlen. split; [|split; [|split; [|split]]].
    + apply available_peers_NoDup.
    + lia.
    + intros m Hd. specialize (Hm m Hd). lia.
    + done.
    + intros e He. by apply available_peers_spec in He.
Qed.

Lemma cleanup_peers_lookup (st : t) now p :
  peers (_cleanup_inactive_peers st now) !! p
  = match peers st !! p with
    | Some info => if is_alive info now then Some info else None
    | None => None
    end.
Proof.
  unfold _cleanup_inactive_peers.
  set (l := map fst (filter _ (map_to_list (peers st)))).
  assert (∀ q, q ∈ l ↔ ∃ info, peers st !! q = Some info
                                ∧ is_alive info now = false) as Hl.
  { intros q. unfold l. rewrite list_elem_of_fmap. split.
    - intros ([q' info] & -> & Hin).
      apply list_elem_of_filter in Hin as [Ha Hin].
      apply elem_of_map_to_list in Hin. by exists info.
    - intros (info & Hq & Ha). exists (q, info). split; [done|].
      apply list_elem_of_filter. split; [done|].
      by apply elem_of_map_to_list. }
  assert (∀ (l : list string) (st : t),
            peers (foldl (λ st peer_id,
                            match peers st !! peer_id with
                            | Some peer_info => drop_peer st peer_id peer_info
                            | None => st
                            end) st l) !! p
            = if bool_decide (p ∈ l) then None else peers st !! p) as Hfold.
  { clear. induction l as [|q l IH]; intros st.
    - by rewrite bool_decide_eq_false_2 by apply not_elem_of_nil.
    - cbn [foldl]. rewrite IH.
      destruct (decide (p = q)) as [->|Hpq].
      + rewrite (bool_decide_eq_true_2 (q ∈ q :: l))
          by apply list_elem_of_here.
        case_bool_decide; [done|].
        destruct (peers st !! q) eqn:Hq; [|done].
        cbn [drop_peer peers]. by rewrite lookup_delete_eq.
      + assert (bool_decide (p ∈ q :: l) = bool_decide (p ∈ l)) as ->.
        { apply bool_decide_ext. rewrite elem_of_cons. tauto. }
        case_bool_decide; [done|].
        destruct (peers st !! q) eqn:Hq; [|done].
        cbn [drop_peer peers]. by rewrite lookup_delete_ne. }
  rewrite Hfold. destruct (peers st !! p) as [info|] eqn:Hp.
  - destruct (is_alive info now) eqn:Ha.
    + rewrite bool_decide_eq_false_2; [done|].
      intros (info' & Hq' & Ha')%Hl. rewrite Hp in Hq'.
      injection Hq' as <-. congruence.
    + rewrite bool_decide_eq_true_2; [done|]. apply Hl. by exists info.
  - by case_bool_decide.
Qed.

(** X9.  A round of the cleanup thread removes from the peer table
exactly the peers whose last heartbeat is 60 s old or older: the others
keep their record unchanged.  A peer whose heartbeat was just accepted
survives every round that runs less than 60 s later. *)
Theorem cleanup_removes_dead_peers (st : t) now :
  (∀ p, peers (_cleanup_inactive_peers st now) !! p
        = match peers st !! p with
          | Some info => if is_alive info now then Some info else None
          | None => None
          end)
  ∧ (∀ t0 message later,
       let beat := _handle_heartbeat st t0 message in
       beat.1 = heartbeat_response true →
       (later - t0 < 60)%Q →
       is_Some (peers (_cleanup_inactive_peers beat.2 later)
                  !! msg_peer_id message)).
Proof.
  split; [apply cleanup_peers_lookup|].
  intros t0 message later. cbv zeta. unfold _handle_heartbeat.
  destruct (peers st !! msg_peer_id message) as [i|] eqn:Hi; [|done].
  cbn [fst snd]. intros _ Hlt. rewrite cleanup_peers_lookup.
  cbn [peers]. rewrite lookup_insert_eq.
  unfold is_alive, Qltb. cbn [last_heartbeat].
  destruct (Qle_bool _ _) eqn:Hle; [|done].
  apply Qle_bool_iff in Hle. exfalso.
  apply (Qlt_irrefl 60). eapply Qle_lt_trans; [|exact Hlt].
  exact Hle.
Qed.

(** X10.  A registration fails only for a file declared with no blocks.
Once it is accepted, the peer is discoverable: for 60 s every other
peer that asks for the same file finds it among the available peers,
with the host and port it registered, and receives the whole list of
available peers when that list does not exceed the number asked for. *)
Theorem registration_makes_discoverable (st : t) t0 reg draw picks :
  let h := default "default" (d_file_hash (data reg)) in
  match _handle_register_peer st t0 reg draw picks with
  | Some (r, st') =>
      ∀ now ask picks',
        msg_peer_id ask ≠ msg_peer_id reg →
        default "default" (d_file_hash (data ask)) = h →
        (now - t0 < 60)%Q →
        let avail := available_peers st' now (msg_peer_id ask) h in
        mkEntry (msg_peer_id reg) (d_host (data reg)) (d_port (data reg))
          ∈ avail
        ∧ (Z.of_nat (length avail)
           ≤ Z.min (default TRACKER_MAX_PEERS_RETURNED
                      (d_max_peers (data ask)))
                   TRACKER_MAX_PEERS_RETURNED →
           ∃ total, _handle_get_peers st' now ask picks'
                    = Some (get_peers_response avail total))
  | None => default 10 (d_total_blocks (data reg)) ≤ 0
  end.
Proof.
  cbv zeta. unfold _handle_register_peer.
  destruct (_generate_initial_blocks _ _ _) as [blocks|] eqn:Hgen;
    cbn [mbind option_bind].
  - intros now ask picks' Hne Hh Hlt. cbv zeta. split.
    + apply available_peers_spec. cbn [e_peer_id e_host e_port]. split.
      { congruence. }
      split.
      { eexists. cbn [file_peers]. rewrite lookup_insert_eq. split; [done|].
        apply elem_of_union_l. by apply elem_of_singleton. }
      eexists. cbn [peers]. rewrite lookup_insert_eq. split; [done|].
      cbn [host port]. split; [|done].
      unfold is_alive, Qltb. cbn [last_heartbeat].
      destruct (Qle_bool _ _) eqn:Hle; [|done].
      apply Qle_bool_iff in Hle. exfalso.
      apply (Qlt_irrefl 60). eapply Qle_lt_trans; [exact Hle|exact Hlt].
    + intros Hlen. unfold _handle_get_peers. rewrite Hh.
      rewrite (proj2 (Z.ltb_ge _ _)) by exact Hlen. by eexists.
  - destruct (Z_le_gt_dec (default 10 (d_total_blocks (data reg))) 0)
      as [Hle|Hgt]; [done|].
    destruct (generate_initial_blocks_some
                (default 10 (d_total_blocks (data reg))) draw picks)
      as [b Hb]; [lia|]. congruence.
Qed.

(** X11.  After [remove_peer] the peer is unknown to the tracker: its
record is gone, its heartbeats and a second removal are refused and
change nothing, no answer to [get_peers] names it, and it has left the
group of the file it was registered for. *)
Theorem removed_peer_is_forgotten (st : t) (message : Message) :
  let p := msg_peer_id message in
  let st' := (_handle_remove_peer st message).2 in
  peers st' !! p = None
  ∧ (∀ now, _handle_heartbeat st' now message
            = (heartbeat_response false, st'))
  ∧ _handle_remove_peer st' message = (remove_response false, st')
  ∧ (∀ now ask picks l total,
       _handle_get_peers st' now ask picks
       = Some (get_peers_response l total) →
       p ∉ e_peer_id <$> l)
  ∧ (∀ info group,
       peers st !! p = Some info →
       file_peers st' !! file_hash info = Some group → p ∉ group).
Proof.
  cbv zeta. set (p := msg_peer_id message).
  assert (peers (_handle_remove_peer st message).2 !! p = None) as Hgone.
  { unfold _handle_remove_peer. fold p.
    destruct (peers st !! p) eqn:Hp; cbn [snd]; [|done].
    cbn [drop_peer peers]. apply lookup_delete_eq. }
  split; [done|]. split; [|split; [|split]].
  - intros now. unfold _handle_heartbeat. fold p. by rewrite Hgone.
  - unfold _handle_remove_peer at 1. fold p. by rewrite Hgone.
  - intros now ask picks l total Hr Hin.
    apply list_elem_of_fmap in Hin as (e & He & Hin).
    eapply handle_get_peers_entries in Hin; [|exact Hr].
    apply available_peers_spec in Hin as (_ & _ & info & Hi & _).
    rewrite <- He in Hi. congruence.
  - intros info group Hp. unfold _handle_remove_peer. fold p. rewrite Hp.
    cbn [snd drop_peer file_peers].
    destruct (file_peers st !! file_hash info) as [g|] eqn:Hg.
    + case_bool_decide.
      * by rewrite lookup_delete_eq.
      * rewrite lookup_insert_eq. intros [= <-].
        rewrite elem_of_difference, elem_of_singleton. tauto.
    + by rewrite Hg.
Qed.

End Tracker.

(** ** minibit-final: the tracker and a download round *)
Section FinalSwarm.
Import FinalPeer.

Lemma foldl_delete_lookup (l : list Z) (m : gmap Z Q) p :
  foldl (λ m port, delete port m) m l !! p
  = if bool_decide (p ∈ l) then None else m !! p.
Proof.
  revert m. induction l as [|q l IH]; intros m.
  - by rewrite bool_decide_eq_false_2 by apply not_elem_of_nil.
  - cbn [foldl]. rewrite IH. destruct (decide (p = q)) as [->|Hpq].
    + rewrite (bool_decide_eq_true_2 (q ∈ q :: l))
        by apply list_elem_of_here.
      case_bool_decide; [done|]. apply lookup_delete_eq.
    + assert (bool_decide (p ∈ q :: l) = bool_decide (p ∈ l)) as ->.
      { apply bool_decide_ext. rewrite elem_of_cons. tauto. }
      case_bool_decide; [done|]. by apply lookup_delete_ne.
Qed.

Lemma remove_inactive_peers_lookup (active_peers : gmap Z Q) now p :
  FinalTracker.remove_inactive_peers active_peers now !! p
  = match active_peers !! p with
    | Some last_seen =>
        if Qltb (inject_Z FinalTracker.TRACKER_TIMEOUT) (now - last_seen)
        then None else Some last_seen
    | None => None
    end.
Proof.
  unfold FinalTracker.remove_inactive_peers. rewrite foldl_delete_lookup.
  set (l := map fst _).
  assert (p ∈ l ↔ ∃ last_seen, active_peers !! p = Some last_seen
            ∧ Qltb (inject_Z FinalTracker.TRACKER_TIMEOUT) (now - last_seen)
              = true) as Hl.
  { unfold l. rewrite list_elem_of_fmap. split.
    - intros ([q ls] & -> & Hin).
      apply list_elem_of_filter in Hin as [Ha Hin].
      apply elem_of_map_to_list in Hin. exists ls. split; [done|].
      by apply Is_true_true.
    - intros (ls & Hq & Ha). exists (p, ls). split; [done|].
      apply list_elem_of_filter. split; [by apply Is_true_true|].
      by apply elem_of_map_to_list. }
  destruct (active_peers !! p) as [ls|] eqn:Hp.
  - destruct (Qltb _ (now - ls)) eqn:Ha.
    + rewrite bool_decide_eq_true_2; [done|]. apply Hl. by exists ls.
    + rewrite bool_decide_eq_false_2; [done|].
      intros (ls' & [= <-] & Ha')%Hl. congruence.
  - by case_bool_decide.
Qed.

(** X12.  The tracker of minibit-final records the caller as seen now and
answers with distinct ports of other peers it has on record, never the
caller's own: four of them, or all of them when fewer are on record. *)
Theorem tracker_answer_spec (active_peers : gmap Z Q) now peer_port picks :
  let r := FinalTracker.handle_peer_connection active_peers now peer_port
             picks in
  NoDup r.1
  ∧ (peer_port ∉ r.1)
  ∧ (∀ p, p ∈ r.1 → is_Some (active_peers !! p))
  ∧ length r.1
    = (4 `min` size (dom active_peers ∖ {[ peer_port ]}))%nat
  ∧ r.2 !! peer_port = Some now
  ∧ (∀ q, q ≠ peer_port → r.2 !! q = active_peers !! q).
Proof.
  cbv zeta. unfold FinalTracker.handle_peer_connection. cbn [fst snd].
  set (others := elements _).
  assert (∀ p, p ∈ others ↔ p ≠ peer_port ∧ is_Some (active_peers !! p))
    as Ho.
  { intros p. unfold others.
    rewrite elem_of_elements, elem_of_difference, elem_of_singleton.
    rewrite elem_of_dom. destruct (decide (p = peer_port)) as [->|Hp].
    - tauto.
    - rewrite lookup_insert_ne by done. tauto. }
  assert (length others = size (dom active_peers ∖ {[ peer_port ]})) as Hlen.
  { unfold others. rewrite dom_insert_L.
    assert (({[peer_port]} ∪ dom active_peers) ∖ {[peer_port]}
            = dom active_peers ∖ {[peer_port]}) as ->; [|done].
    apply set_eq. intros x.
    rewrite !elem_of_difference, elem_of_union, elem_of_singleton. tauto. }
  split; [|split; [|split; [|split; [|split]]]].
  - apply py_sample_NoDup, NoDup_elements.
  - intros Hin. apply py_sample_elem_of, Ho in Hin. tauto.
  - intros p Hin. apply py_sample_elem_of, Ho in Hin. tauto.
  - rewrite py_sample_length by lia. rewrite Hlen.
    unfold FinalTracker.MAX_UNCHOKED. done.
  - apply lookup_insert_eq.
  - intros q Hq. by apply lookup_insert_ne.
Qed.

(** X13.  A sweep of [remove_inactive_peers] drops exactly the ports last
seen more than [TRACKER_TIMEOUT] = 40 s ago and leaves the other entries
as they are; a peer that has just called in is still on record after
every sweep that runs at most 40 s later. *)
Theorem tracker_sweep_spec (active_peers : gmap Z Q) now :
  (∀ p, FinalTracker.remove_inactive_peers active_peers now !! p
        = match active_peers !! p with
          | Some last_seen =>
              if Qltb 40 (now - last_seen) then None else Some last_seen
          | None => None
          end)
  ∧ (∀ t0 peer_port picks,
       (now - t0 <= 40)%Q →
       FinalTracker.remove_inactive_peers
         (FinalTracker.handle_peer_connection active_peers t0 peer_port
            picks).2 now !! peer_port = Some t0).
Proof.
  split; [apply remove_inactive_peers_lookup|].
  intros t0 peer_port picks Hle. rewrite remove_inactive_peers_lookup.
  unfold FinalTracker.handle_peer_connection. cbn [snd].
  rewrite lookup_insert_eq. unfold Qltb.
  apply Qle_bool_iff in Hle.
  change (inject_Z FinalTracker.TRACKER_TIMEOUT) with 40%Q.
  by rewrite Hle.
Qed.

(** X14.  A peer of minibit-final that does not list itself as known
still does not after it contacted the tracker: what it learns are at
most four ports the tracker has on record, none of them its own, and it
forgets none it knew. *)
Theorem contact_tracker_never_self (st : t) (active_peers : gmap Z Q)
    now picks :
  port st ∉ peers_known st →
  let reply := (FinalTracker.handle_peer_connection active_peers now
                  (port st) picks).1 in
  let st' := contact_tracker st (Some reply) in
  (port st ∉ peers_known st')
  ∧ peers_known st ⊆ peers_known st'
  ∧ (∀ p, p ∈ peers_known st' → p ∈ peers_known st
                                 ∨ is_Some (active_peers !! p))
  ∧ (size (peers_known st') ≤ size (peers_known st) + 4)%nat.
Proof.
  intros Hself. cbv zeta.
  unfold contact_tracker, FinalTracker.handle_peer_connection.
  cbn [fst peers_known set_peers_known].
  set (others := elements _).
  assert (∀ p, p ∈ others → p ≠ port st ∧ is_Some (active_peers !! p))
    as Ho.
  { intros p. unfold others.
    rewrite elem_of_elements, elem_of_difference, elem_of_singleton.
    rewrite elem_of_dom. intros [Hin Hp]. split; [done|].
    by rewrite lookup_insert_ne in Hin. }
  set (k := (FinalTracker.MAX_UNCHOKED `min` length others)%nat).
  split; [|split; [|split]].
  - rewrite elem_of_union, elem_of_list_to_set.
    intros [?|Hin]; [done|]. apply py_sample_elem_of, Ho in Hin. tauto.
  - apply union_subseteq_l.
  - intros p. rewrite elem_of_union, elem_of_list_to_set.
    intros [?|Hin]; [by left|]. right.
    apply py_sample_elem_of, Ho in Hin. tauto.
  - rewrite size_union_alt.
    assert (size (list_to_set (py_sample others k picks)
                  ∖ peers_known st : gset Z) ≤ 4)%nat; [|lia].
    etrans; [apply subseteq_size, subseteq_difference_l; reflexivity|].
    etrans; [apply size_list_to_set_le|].
    rewrite py_sample_length by (unfold k; lia).
    unfold k, FinalTracker.MAX_UNCHOKED. lia.
Qed.

(** What [_get_blocks_in_network] touches and what it collects. *)
Lemma get_blocks_in_network_spec (st : t) network :
  let r := _get_blocks_in_network st network in
  (port r.2 = port st ∧ blocks r.2 = blocks st
   ∧ total_blocks r.2 = total_blocks st
   ∧ allowed_peers r.2 = allowed_peers st
   ∧ optimistic_peer r.2 = optimistic_peer st
   ∧ blocked_by r.2 = blocked_by st ∧ block_files r.2 = block_files st)
  ∧ peers_known r.2 ⊆ peers_known st
  ∧ ∀ p h, (p, h) ∈ r.1.2 →
      p ≠ port st ∧ p ∈ peers_known st
      ∧ ∃ l, network p = Some l ∧ h = list_to_set l.
Proof.
  cbv zeta. unfold _get_blocks_in_network.
  set (f := λ (acc : gmap Z Z * list (Z * gset Z) * t) (peer_port : Z), _).
  set (inv := λ acc : gmap Z Z * list (Z * gset Z) * t,
         (port acc.2 = port st ∧ blocks acc.2 = blocks st
          ∧ total_blocks acc.2 = total_blocks st
          ∧ allowed_peers acc.2 = allowed_peers st
          ∧ optimistic_peer acc.2 = optimistic_peer st
          ∧ blocked_by acc.2 = blocked_by st
          ∧ block_files acc.2 = block_files st)
         ∧ peers_known acc.2 ⊆ peers_known st
         ∧ ∀ p h, (p, h) ∈ acc.1.2 →
             p ≠ port st ∧ p ∈ peers_known st
             ∧ ∃ l, network p = Some l ∧ h = list_to_set l).
  assert (∀ l acc, (∀ p, p ∈ l → p ∈ peers_known st) → inv acc →
                   inv (foldl f acc l)) as Hfold.
  { induction l as [|q l IH]; intros acc Hl Hacc; [done|].
    cbn [foldl]. apply IH.
    { intros p Hp. apply Hl. by apply list_elem_of_further. }
    destruct acc as [[counts pb] s]. destruct Hacc as (Hf & Hk & Hpb).
    unfold f. cbn [fst snd] in *.
    destruct (q =? port s) eqn:Hq; [done|].
    apply Z.eqb_neq in Hq.
    destruct (network q) as [bl|] eqn:Hn.
    - split; [done|]. split; [done|]. cbn [fst snd].
      intros p h [Hin|Hin]%elem_of_app; [by apply Hpb|].
      apply list_elem_of_singleton in Hin as [= -> ->].
      split; [destruct Hf as [<- _]; done|].
      split; [apply Hl, list_elem_of_here|]. by exists bl.
    - split; [done|]. split; [|done]. cbn [snd peers_known set_peers_known].
      etrans; [|exact Hk]. apply subseteq_difference_l. reflexivity. }
  apply Hfold.
  - intros p Hp. by apply elem_of_elements.
  - split; [done|]. split; [done|]. intros p h Hin.
    by apply not_elem_of_nil in Hin.
Qed.

Lemma advertised_true (peer_blocks : list (Z * gset Z)) p b :
  advertised peer_blocks p b = true →
  ∃ h, (p, h) ∈ peer_blocks ∧ b ∈ h.
Proof.
  unfold advertised.
  destruct (list_find _ _) as [[i [q h]]|] eqn:Hf; [|done].
  apply list_find_Some in Hf as (Hi & Hq & _). cbn in Hq. subst.
  intros Hb%bool_decide_eq_true. exists h. split; [|done].
  by eapply list_elem_of_lookup_2.
Qed.

Lemma try_candidates_spec (st : t) peer_blocks target request cands :
  let r := try_candidates st peer_blocks target request cands in
  (port r.2 = port st ∧ total_blocks r.2 = total_blocks st
   ∧ peers_known r.2 = peers_known st
   ∧ allowed_peers r.2 = allowed_peers st
   ∧ optimistic_peer r.2 = optimistic_peer st)
  ∧ blocked_by st ⊆ blocked_by r.2
  ∧ (∀ p, p ∈ blocked_by r.2 → p ∈ blocked_by st
          ∨ (p ∈ cands ∧ request p target = Some CHOKED))
  ∧ (if r.1 then
       ∃ peer_port result,
         peer_port ∈ cands
         ∧ advertised peer_blocks peer_port target = true
         ∧ request peer_port target = Some result
         ∧ result ≠ [] ∧ result ≠ CHOKED
         ∧ blocks r.2 = {[ target ]} ∪ blocks st
         ∧ block_files r.2 = <[target := result]> (block_files st)
     else blocks r.2 = blocks st ∧ block_files r.2 = block_files st).
Proof.
  cbv zeta. revert st. induction cands as [|q rest IH]; intros st.
  - cbn [try_candidates fst snd]. split; [done|]. split; [done|].
    split; [by left|done].
  - cbn [try_candidates].
    assert (∀ s : t,
              port s = port st → total_blocks s = total_blocks st →
              peers_known s = peers_known st →
              allowed_peers s = allowed_peers st →
              optimistic_peer s = optimistic_peer st →
              blocks s = blocks st → block_files s = block_files st →
              blocked_by st ⊆ blocked_by s →
              (∀ p, p ∈ blocked_by s → p ∈ blocked_by st
                    ∨ (p = q ∧ request q target = Some CHOKED)) →
              let r := try_candidates s peer_blocks target request rest in
              (port r.2 = port st ∧ total_blocks r.2 = total_blocks st
               ∧ peers_known r.2 = peers_known st
               ∧ allowed_peers r.2 = allowed_peers st
               ∧ optimistic_peer r.2 = optimistic_peer st)
              ∧ blocked_by st ⊆ blocked_by r.2
              ∧ (∀ p, p ∈ blocked_by r.2 → p ∈ blocked_by st
                      ∨ (p ∈ q :: rest ∧ request p target = Some CHOKED))
              ∧ (if r.1 then
                   ∃ peer_port result,
                     peer_port ∈ q :: rest
                     ∧ advertised peer_blocks peer_port target = true
                     ∧ request peer_port target = Some result
                     ∧ result ≠ [] ∧ result ≠ CHOKED
                     ∧ blocks r.2 = {[ target ]} ∪ blocks st
                     ∧ block_files r.2 = <[target := result]> (block_files st)
                 else blocks r.2 = blocks st
                      ∧ block_files r.2 = block_files st)) as Hrest.
    { intros s H1 H2 H3 H4 H5 H6 H7 H8 H9. cbv zeta.
      destruct (IH s) as ((I1 & I2 & I3 & I4 & I5) & I6 & I7 & I8).
      split; [by rewrite I1, I2, I3, I4, I5|].
      split; [by etrans|]. split.
      - intros p Hp. destruct (I7 p Hp) as [Hin|[Hin Hr]].
        + destruct (H9 p Hin) as [?|[-> ?]]; [by left|right].
          split; [apply list_elem_of_here|done].
        + right. split; [by apply list_elem_of_further|done].
      - destruct (try_candidates s _ _ _ rest).1.
        + destruct I8 as (pp & res & J1 & J2 & J3 & J4 & J5 & J6 & J7).
          exists pp, res. rewrite <- H6, <- H7.
          split; [by apply list_elem_of_further|done].
        + by rewrite <- H6, <- H7. }
    destruct (advertised peer_blocks q target) eqn:Hadv; cycle 1.
    { apply Hrest; try done. by left. }
    destruct (request q target) as [result|] eqn:Hreq; cycle 1.
    { apply Hrest; try done. by left. }
    destruct (bytes_truthy result) eqn:Ht; cbn [andb].
    + case_bool_decide as Hc; cbn [negb].
      * apply Hrest; try done.
        -- cbn. apply union_subseteq_r.
        -- intros p. cbn. rewrite elem_of_union, elem_of_singleton.
           intros [->|?]; [right|left]; [|done]. by rewrite <- Hc.
      * cbn [fst snd]. split; [done|]. split; [done|].
        split; [by left|]. exists q, result.
        split; [apply list_elem_of_here|]. split; [done|].
        split; [done|]. split; [|done]. by destruct result.
    + case_bool_decide as Hc.
      * subst. done.
      * apply Hrest; try done. by left.
Qed.

Lemma download_round_success (st : t) network request pick shuffle :
  let r := download_round st network request pick shuffle in
  r.1 = true →
  ∃ target peer_port result,
    (peer_port ∈ allowed_peers st ∨ optimistic_peer st = Some peer_port)
    ∧ request peer_port target = Some result
    ∧ result ≠ CHOKED
    ∧ blocks r.2 = {[ target ]} ∪ blocks st
    ∧ block_files r.2 = <[target := result]> (block_files st).
Proof.
  cbv zeta. unfold download_round.
  pose proof (get_blocks_in_network_spec st network) as Hnet.
  cbv zeta in Hnet.
  destruct (_get_blocks_in_network st network) as [[counts pb] st1].
  cbn [fst snd] in Hnet.
  destruct Hnet as ((N1 & N2 & N3 & N4 & N5 & N6 & N7) & _).
  destruct (_select_rarest_block st1 counts pick) as [target|]; [|done].
  pose proof (try_candidates_spec st1 pb target request
                (py_sample (candidates st1) (length (candidates st1))
                   shuffle)) as Htry.
  cbv zeta in Htry.
  destruct (try_candidates st1 pb target request _) as [ok st2].
  cbn [fst snd] in *. intros ->.
  destruct Htry as (_ & _ & _ & pp & res & J1 & _ & J3 & _ & J5 & J6 & J7).
  exists target, pp, res. rewrite <- N2, <- N7.
  split; [|done].
  apply py_sample_elem_of in J1. unfold candidates in J1.
  rewrite N4, N5 in J1. apply elem_of_app in J1 as [J1|J1].
  - left. by apply elem_of_elements.
  - right. destruct (optimistic_peer st) as [o|]; cycle 1.
    { by apply not_elem_of_nil in J1. }
    destruct (o =? 0).
    { by apply not_elem_of_nil in J1. }
    apply list_elem_of_singleton in J1. by subst.
Qed.

(** X15.  A round of the download loop of minibit-final never loses a
block or an entry of [blocked_by].  When it downloads, it adds exactly
one block: one the peer needed, fetched from a peer that holds one of
its own unchoke slots and that had just listed the block, and the bytes
stored are that peer's reply, which is neither empty nor the sentinel
[b'CHOKED'].  When it does not, the blocks and their files are as
before.  A port is added to [blocked_by] only when it answered
[b'CHOKED']. *)
Theorem download_round_spec (st : t) network request pick shuffle :
  let r := download_round st network request pick shuffle in
  blocked_by st ⊆ blocked_by r.2
  ∧ (∀ p, p ∈ blocked_by r.2 → p ∈ blocked_by st
          ∨ ∃ b, request p b = Some CHOKED)
  ∧ (if r.1 then
       ∃ target peer_port result l,
         target ∈ needed st
         ∧ (peer_port ∈ allowed_peers st
            ∨ optimistic_peer st = Some peer_port)
         ∧ network peer_port = Some l ∧ target ∈ l
         ∧ request peer_port target = Some result
         ∧ result ≠ [] ∧ result ≠ CHOKED
         ∧ blocks r.2 = {[ target ]} ∪ blocks st
         ∧ block_files r.2 = <[target := result]> (block_files st)
     else blocks r.2 = blocks st ∧ block_files r.2 = block_files st).
Proof.
  cbv zeta. unfold download_round.
  pose proof (get_blocks_in_network_spec st network) as Hnet.
  cbv zeta in Hnet.
  destruct (_get_blocks_in_network st network) as [[counts pb] st1].
  cbn [fst snd] in Hnet.
  destruct Hnet as ((N1 & N2 & N3 & N4 & N5 & N6 & N7) & N8 & N9).
  destruct (_select_rarest_block st1 counts pick) as [target|] eqn:Hsel.
  - pose proof (try_candidates_spec st1 pb target request
                  (py_sample (candidates st1) (length (candidates st1))
                     shuffle)) as Htry.
    cbv zeta in Htry.
    destruct (try_candidates st1 pb target request _) as [ok st2].
    cbn [fst snd] in *.
    destruct Htry as ((T1 & T2 & T3 & T4 & T5) & T6 & T7 & T8).
    split; [by rewrite <- N6|]. split.
    + intros p Hp. destruct (T7 p Hp) as [?|[_ ?]].
      * left. by rewrite <- N6.
      * right. by exists target.
    + destruct ok.
      * destruct T8 as (pp & res & J1 & J2 & J3 & J4 & J5 & J6 & J7).
        apply advertised_true in J2 as (h & Hh & Hth).
        destruct (N9 pp h Hh) as (_ & _ & l & Hl & ->).
        exists target, pp, res, l.
        split.
        { destruct (select_rarest_block_spec st1 counts) as (Hs & _).
          destruct (Hs pick target Hsel) as (c & Hneed & _).
          revert Hneed. unfold needed. by rewrite N2, N3. }
        split.
        { apply py_sample_elem_of in J1. unfold candidates in J1.
          rewrite N4, N5 in J1. apply elem_of_app in J1 as [J1|J1].
          - left. by apply elem_of_elements.
          - right. destruct (optimistic_peer st) as [o|]; cycle 1.
            { by apply not_elem_of_nil in J1. }
            destruct (o =? 0).
            { by apply not_elem_of_nil in J1. }
            apply list_elem_of_singleton in J1. by subst. }
        split; [done|]. split; [by apply elem_of_list_to_set in Hth|].
        rewrite <- N2, <- N7. done.
      * rewrite <- N2, <- N7. done.
  - cbn [fst snd]. rewrite N6, N2, N7. split; [done|]. split; [by left|done].
Qed.

(** X16.  Between peers of minibit-final a block changes hands only under
a mutual unchoke: when a round against the other peers downloads a
block, the peer that served it holds an unchoke slot of the requester
and had given the requester one of its own; it owns the block, and the
bytes stored are the content of its block file. *)
Theorem download_needs_mutual_unchoke (st : t) (swarm : gmap Z t) pick
    shuffle :
  let r := download_round st (list_answer swarm)
             (block_answer swarm (port st)) pick shuffle in
  r.1 = true →
  ∃ target peer_port srv data,
    swarm !! peer_port = Some srv
    ∧ (peer_port ∈ allowed_peers st ∨ optimistic_peer st = Some peer_port)
    ∧ (port st ∈ allowed_peers srv ∨ optimistic_peer srv = Some (port st))
    ∧ target ∈ blocks srv
    ∧ block_files srv !! target = Some data
    ∧ blocks r.2 = {[ target ]} ∪ blocks st
    ∧ block_files r.2 !! target = Some data.
Proof.
  cbv zeta. intros Hok.
  destruct (download_round_success st (list_answer swarm)
              (block_answer swarm (port st)) pick shuffle Hok)
    as (target & pp & res & H2 & H5 & H7 & H8 & H9).
  unfold block_answer in H5.
  destruct (swarm !! pp) as [srv|] eqn:Hsrv; [|done].
  cbn [mbind option_bind] in H5.
  cbn [_handle_request] in H5.
  destruct (allowed srv (port st) && bool_decide (target ∈ blocks srv))
    eqn:Hall; cycle 1.
  { cbn in H5. congruence. }
  apply andb_prop in Hall as [Ha Hb].
  destruct (block_files srv !! target) as [d|] eqn:Hd; [|done].
  cbn in H5. injection H5 as <-.
  exists target, pp, srv, d. split; [done|]. split; [done|].
  split.
  { unfold allowed in Ha. apply orb_prop in Ha as [Ha|Ha].
    - left. by apply bool_decide_eq_true in Ha.
    - right. by apply bool_decide_eq_true in Ha. }
  split; [by apply bool_decide_eq_true in Hb|].
  split; [done|]. split; [done|]. rewrite H9. apply lookup_insert_eq.
Qed.

Lemma contact_tracker_never_self_witness :
  port FinalSamples.newcomer
  ∉ peers_known
      (contact_tracker FinalSamples.newcomer
         (Some (FinalTracker.handle_peer_connection {[ 9001 := 0%Q ]} 1%Q
                  (port FinalSamples.newcomer) []).1)).
Proof.
  apply (contact_tracker_never_self FinalSamples.newcomer
           {[ 9001 := 0%Q ]} 1%Q []).
  apply not_elem_of_empty.
Defined.

Lemma download_needs_mutual_unchoke_witness :
  ∃ target peer_port srv data,
    FinalSamples.others !! peer_port = Some srv
    ∧ (peer_port ∈ allowed_peers FinalSamples.requester
       ∨ optimistic_peer FinalSamples.requester = Some peer_port)
    ∧ (port FinalSamples.requester ∈ allowed_peers srv
       ∨ optimistic_peer srv = Some (port FinalSamples.requester))
    ∧ target ∈ blocks srv
    ∧ block_files srv !! target = Some data
    ∧ blocks (download_round FinalSamples.requester
                (list_answer FinalSamples.others)
                (block_answer FinalSamples.others
                   (port FinalSamples.requester)) 0 []).2
      = {[ target ]} ∪ blocks FinalSamples.requester
    ∧ block_files (download_round FinalSamples.requester
                     (list_answer FinalSamples.others)
                     (block_answer FinalSamples.others
                        (port FinalSamples.requester)) 0 []).2 !! target
      = Some data.
Proof.
  apply (download_needs_mutual_unchoke FinalSamples.requester
           FinalSamples.others 0 []).
  vm_compute. reflexivity.
Defined.

End FinalSwarm.

(** ** The block store: splitting, restarting *)
Section BlockStoreFiles.
Import BlockManager BlockStoreOps BlockStoreView.
Variable sha256_hex : bytes → string.

Lemma slices_concat (content : bytes) (bs n : nat) :
  concat ((λ k, take bs (drop (k * bs) content)) <$> seq 0 n)
  = take (n * bs) content.
Proof.
  induction n as [|n IH]; [done|].
  rewrite seq_S, fmap_app, concat_app, IH. cbn [fmap list_fmap concat].
  rewrite app_nil_r, take_take_drop. f_equal. lia.
Qed.

Lemma split_blocks_eq (content : bytes) (bs n : Z) :
  0 < bs →
  (λ i, take (Z.to_nat bs) (drop (Z.to_nat i) content))
    <$> ((λ k, k * bs) <$> seqZ 0 n)
  = (λ k, take (Z.to_nat bs) (drop (k * Z.to_nat bs) content))
      <$> seq 0 (Z.to_nat n).
Proof.
  intros Hbs. rewrite <- list_fmap_compose.
  apply list_eq. intros i. rewrite !list_lookup_fmap.
  destruct (decide (Z.of_nat i < n)) as [Hi|Hi].
  - rewrite lookup_seqZ_lt by done. rewrite lookup_seq_lt by lia.
    cbn. do 3 f_equal. lia.
  - rewrite lookup_seqZ_ge by lia. rewrite lookup_seq_ge by lia. done.
Qed.

Lemma save_blocks_spec (st : t) (blocks : list bytes) :
  let st' := foldl save_block st
               (zip (seqZ 0 (Z.of_nat (length blocks))) blocks) in
  (∀ i, i ∈ blocks_owned st'
        ↔ i ∈ blocks_owned st ∨ 0 ≤ i < Z.of_nat (length blocks))
  ∧ (∀ i d, blocks !! i = Some d → stored st' (Z.of_nat i) = Some d)
  ∧ total_blocks st' = total_blocks st
  ∧ block_size st' = block_size st
  ∧ file_name st' = file_name st ∧ file_hash st' = file_hash st
  ∧ peer_id st' = peer_id st.
Proof.
  cbv zeta. induction blocks as [|d blocks IH] using rev_ind.
  - cbn. split; [intros i; split; [by left|intros [?|?]; [done|lia]]|].
    split; [done|]. done.
  - rewrite length_app. cbn [length].
    replace (length blocks + 1)%nat with (S (length blocks)) by lia.
    rewrite seqZ_S.
    rewrite (zip_with_app pair (seqZ 0 (Z.of_nat (length blocks))) _ blocks)
      by (by rewrite length_seqZ, Nat2Z.id).
    rewrite foldl_app. cbn [zip_with foldl].
    fold (zip (seqZ 0 (Z.of_nat (length blocks))) blocks).
    set (st1 := foldl save_block st _) in *.
    destruct IH as (Ho & Hs & Ht & Hb & Hn & Hh & Hp).
    unfold save_block. cbn [fst snd].
    split; [|split].
    + intros i.
      cbn [blocks_owned set_blocks_owned set_blocks_data set_block_files].
      rewrite elem_of_union, elem_of_singleton, Ho, Nat2Z.inj_succ.
      intuition lia.
    + intros i d' Hi. unfold stored.
      cbn [blocks_data block_files set_blocks_owned set_blocks_data
           set_block_files].
      destruct (decide (i = length blocks)) as [->|Hne].
      * rewrite list_lookup_middle in Hi by done. injection Hi as <-.
        by rewrite Z.add_0_l, lookup_insert_eq.
      * assert (i < length blocks)%nat as Hlt.
        { apply lookup_lt_Some in Hi. rewrite length_app in Hi.
          cbn in Hi. lia. }
        rewrite lookup_app_l in Hi by done.
        rewrite !lookup_insert_ne by lia. by apply Hs.
    + done.
Qed.

Lemma join_blocks_all (ids : list Z) (ds : list bytes) (st : t) written :
  length ids = length ds →
  (∀ k id d, ids !! k = Some id → ds !! k = Some d →
             id ∈ blocks_owned st ∧ stored st id = Some d ∧ d ≠ []) →
  (join_blocks ids st written).1.1 = true
  ∧ (join_blocks ids st written).2 = written ++ concat ds.
Proof.
  revert ds st written. induction ids as [|id ids IH]; intros ds st w Hl Hall.
  - destruct ds; [|done]. cbn. by rewrite app_nil_r.
  - destruct ds as [|d ds]; [done|]. cbn [join_blocks].
    destruct (Hall 0%nat id d eq_refl eq_refl) as (Ho & Hs & Hd).
    pose proof (get_block_stored st id) as Hg.
    pose proof (get_block_frame st id) as (Fo & _ & _ & _ & _ & Fs).
    rewrite (proj2 (has_block_true st id) Ho), Hs in Hg.
    destruct (get_block st id) as [[d'|] st1]; cbn in Hg; [|done].
    injection Hg as ->. cbn [fst snd] in *.
    destruct d as [|x d]; [done|]. cbn [bytes_truthy].
    destruct (IH ds st1 (w ++ x :: d)) as [I1 I2].
    { cbn in Hl. lia. }
    { intros k id' d' Hk Hd'. destruct (Hall (S k) id' d' Hk Hd')
        as (H1 & H2 & H3). rewrite Fo, Fs. done. }
    split; [done|]. rewrite I2. cbn [concat]. by rewrite <- app_assoc.
Qed.

(** X17.  Splitting a non-empty file with a positive block size, on a store
that owns no block beyond the new range, yields [ceil(len / size)] blocks
and a complete store with nothing missing; reconstructing it right away
succeeds and writes back exactly the content that was split. *)
Theorem split_then_reconstruct (st : t) (name : string) (content : bytes)
    (block_size : Z) :
  let n := (Z.of_nat (length content) + block_size - 1) `div` block_size in
  let r := split_file_into_blocks sha256_hex st (Some (name, content))
             block_size in
  let rec := reconstruct_file sha256_hex r.2 default_output in
  0 < block_size → content ≠ [] → name ≠ "" →
  (∀ b, b ∈ blocks_owned st → 0 ≤ b < n) →
  r.1 = Some n
  ∧ is_complete r.2 = true
  ∧ get_missing_blocks r.2 = []
  ∧ rec.1 = true
  ∧ output_files rec.2 !! default_output_path name = Some content.
Proof.
  cbv zeta. intros Hbs Hne Hname Hold.
  set (len := Z.of_nat (length content)).
  set (n := (len + block_size - 1) `div` block_size).
  assert (0 < len) as Hlen by (subst len; destruct content; [done|cbn; lia]).
  assert (0 < n ∧ (n - 1) * block_size < len ∧ len ≤ n * block_size)
    as (Hn & Hlo & Hhi).
  { subst n. pose proof (Z.div_mod (len + block_size - 1) block_size).
    pose proof (Z.mod_pos_bound (len + block_size - 1) block_size). nia. }
  unfold split_file_into_blocks, py_range_step. fold len.
  rewrite (proj2 (Z.eqb_neq block_size 0)) by lia.
  rewrite (proj2 (Z.ltb_ge block_size 0)) by lia. fold n.
  rewrite split_blocks_eq by done.
  set (bsn := Z.to_nat block_size).
  set (blocks := (λ k, take bsn (drop (k * bsn) content))
                   <$> seq 0 (Z.to_nat n)).
  assert (length blocks = Z.to_nat n) as Hlb
    by (unfold blocks; by rewrite length_fmap, length_seq).
  assert (concat blocks = content) as Hcat.
  { unfold blocks. rewrite slices_concat. apply take_ge.
    subst bsn len. nia. }
  assert (∀ i d, blocks !! i = Some d → d ≠ []) as Hnonempty.
  { intros i d Hi. unfold blocks in Hi. rewrite list_lookup_fmap in Hi.
    destruct (seq 0 (Z.to_nat n) !! i) as [k|] eqn:Hk; [|done].
    apply lookup_seq in Hk as [-> Hk]. cbn in Hi. injection Hi as <-.
    intros Hd. apply (f_equal length) in Hd.
    rewrite length_take, length_drop in Hd. cbn in Hd.
    subst bsn len. nia. }
  cbn [fst snd].
  set (st1 := mk _ _ _ _ _ _ _ _ _ _).
  set (st2 := set_total_blocks _ st1).
  pose proof (save_blocks_spec st2 blocks) as Hsave. cbv zeta in Hsave.
  set (st3 := foldl save_block st2 _) in *.
  destruct Hsave as (So & Ss & St & _ & Sn & Sh & _).
  assert (blocks_owned st3 = list_to_set (seqZ 0 n)) as Howned.
  { apply set_eq. intros i. rewrite So, elem_of_list_to_set, elem_of_seqZ.
    cbn. rewrite Hlb. split; [|lia]. intros [Hi|Hi]; [|lia].
    apply Hold in Hi. fold len n in Hi. lia. }
  assert (owned_count (_save_state st3) = n) as Hcount.
  { unfold owned_count. cbn. rewrite Howned.
    rewrite size_list_to_set by apply NoDup_seqZ.
    rewrite length_seqZ. lia. }
  assert (total_blocks (_save_state st3) = n) as Htot.
  { cbn. rewrite St. cbn. rewrite Hlb. lia. }
  split; [by rewrite Hlb, Z2Nat.id by lia|]. split.
  { unfold is_complete. rewrite Hcount, Htot, Z.eqb_refl.
    by rewrite (proj2 (Z.ltb_lt 0 n)). }
  split.
  { unfold get_missing_blocks. rewrite Htot.
    rewrite (proj2 (Z.eqb_neq n 0)) by lia.
    destruct (filter _ (seqZ 0 n)) as [|x l] eqn:Hf; [done|].
    assert (x ∈ filter (λ b, b ∉ blocks_owned (_save_state st3)) (seqZ 0 n))
      as Hx by (rewrite Hf; apply list_elem_of_here).
    apply list_elem_of_filter in Hx as [Hx1 Hx2]. destruct Hx1.
    cbn. rewrite Howned. by apply elem_of_list_to_set. }
  unfold reconstruct_file. rewrite Hcount, Htot, Z.eqb_refl. cbn [negb].
  assert (file_name (_save_state st3) = Some name) as Hfn by (cbn; by rewrite Sn).
  assert (file_hash (_save_state st3) = Some (sha256_hex content)) as Hfh
    by (cbn; by rewrite Sh).
  rewrite Hfn, Hfh.
  assert (str_truthy (Some name) = true) as ->
    by (destruct name; [done|reflexivity]).
  cbn [negb str_truthy from_option id].
  destruct (join_blocks_all (seqZ 0 n) blocks (_save_state st3) []) as [J1 J2].
  { by rewrite length_seqZ. }
  { intros k id d Hk Hd. apply lookup_seqZ in Hk as [-> Hk].
    rewrite Z.add_0_l. split; [|split].
    - cbn. rewrite Howned. apply elem_of_list_to_set, elem_of_seqZ. lia.
    - apply (Ss k d Hd).
    - by eapply Hnonempty. }
  destruct (join_blocks (seqZ 0 n) (_save_state st3) []) as [[ok st4] written].
  cbn [fst snd] in J1, J2. subst ok. rewrite app_nil_l in J2. subst written.
  cbn [negb]. rewrite Hcat, String.eqb_refl, andb_false_r.
  cbn [fst snd output_files set_output_files write_output].
  split; [done|]. apply lookup_insert_eq.
Qed.

Lemma load_cache_spec (ids : list Z) (st : t) :
  let st' := foldl (λ acc block_id,
                      match block_files acc !! block_id with
                      | Some d => set_blocks_data (insert block_id d) acc
                      | None => acc
                      end) st ids in
  (peer_id st' = peer_id st ∧ blocks_owned st' = blocks_owned st
   ∧ total_blocks st' = total_blocks st ∧ block_size st' = block_size st
   ∧ file_name st' = file_name st ∧ file_hash st' = file_hash st
   ∧ block_files st' = block_files st)
  ∧ ∀ c, blocks_data st' !! c
         = match block_files st !! c with
           | Some d => if bool_decide (c ∈ ids) then Some d
                       else blocks_data st !! c
           | None => blocks_data st !! c
           end.
Proof.
  cbv zeta. revert st. induction ids as [|b ids IH]; intros st.
  - cbn [foldl]. split; [done|]. intros c.
    rewrite bool_decide_eq_false_2 by apply not_elem_of_nil.
    by destruct (block_files st !! c).
  - cbn [foldl]. destruct (block_files st !! b) as [d|] eqn:Hb.
    + destruct (IH (set_blocks_data (insert b d) st)) as (Hf & Hc).
      split; [exact Hf|]. intros c. rewrite Hc.
      cbn [block_files blocks_data set_blocks_data].
      destruct (block_files st !! c) as [d'|] eqn:Hfc.
      * destruct (decide (c = b)) as [->|Hne].
        -- rewrite (bool_decide_eq_true_2 (b ∈ b :: ids))
             by apply list_elem_of_here.
           rewrite lookup_insert_eq.
           assert (d' = d) as -> by congruence. by case_bool_decide.
        -- rewrite lookup_insert_ne by done.
           assert (bool_decide (c ∈ b :: ids) = bool_decide (c ∈ ids)) as ->;
             [|done].
           apply bool_decide_ext. rewrite elem_of_cons. tauto.
      * destruct (decide (c = b)) as [->|Hne]; [congruence|].
        by rewrite lookup_insert_ne.
    + destruct (IH st) as (Hf & Hc). split; [exact Hf|].
      intros c. rewrite Hc. destruct (block_files st !! c) eqn:Hfc; [|done].
      destruct (decide (c = b)) as [->|Hne]; [congruence|].
      assert (bool_decide (c ∈ b :: ids) = bool_decide (c ∈ ids)) as ->;
        [|done].
      apply bool_decide_ext. rewrite elem_of_cons. tauto.
Qed.

Lemma get_block_attrs (st : t) c : attrs (get_block st c).2 = attrs st.
Proof.
  unfold get_block. destruct (negb _); [done|].
  destruct (blocks_data st !! c); [done|].
  by destruct (block_files st !! c).
Qed.

Lemma join_blocks_attrs ids (st : t) written :
  attrs (join_blocks ids st written).1.2 = attrs st.
Proof.
  revert st written. induction ids as [|c ids IH]; intros st w; [done|].
  cbn [join_blocks]. pose proof (get_block_attrs st c) as Hg.
  destruct (get_block st c) as [[d|] st1]; cbn [snd] in Hg; [|done].
  destruct (bytes_truthy d); [|done]. by rewrite IH.
Qed.

Lemma reconstruct_file_attrs (st : t) :
  attrs (reconstruct_file sha256_hex st default_output).2 = attrs st.
Proof.
  unfold reconstruct_file. destruct (negb _); [done|].
  destruct (negb _); [done|].
  pose proof (join_blocks_attrs (seqZ 0 (total_blocks st)) st []) as Hj.
  destruct (join_blocks _ st []) as [[ok st1] written]. cbn [fst snd] in Hj.
  destruct (negb ok); [done|]. by destruct (_ && _).
Qed.

Lemma attrs_saved (st st' : t) : attrs st' = attrs st → saved st → saved st'.
Proof. unfold attrs, saved. intros [= -> -> -> -> -> -> ->]. done. Qed.

Lemma reopen_saved (st : t) :
  saved st →
  let st' := reopen st in
  blocks_owned st' = blocks_owned st ∧ total_blocks st' = total_blocks st
  ∧ block_size st' = block_size st ∧ file_name st' = file_name st
  ∧ file_hash st' = file_hash st
  ∧ ∀ c, c ∈ blocks_owned st → (get_block st' c).1 = block_files st !! c.
Proof.
  intros Hs. cbv zeta. unfold reopen, _load_state.
  cbn [state_json]. rewrite Hs.
  cbn [saved_blocks_owned saved_total_blocks saved_block_size
       saved_file_name saved_file_hash peer_id blocks_data block_files
       output_files].
  set (st1 := mk _ _ _ _ _ _ _ _ _ _).
  destruct (load_cache_spec (elements (blocks_owned st1)) st1)
    as ((_ & Lo & Lt & Lb & Ln & Lh & Lf) & Lc).
  set (st2 := foldl _ st1 _) in *.
  assert (blocks_owned st1 = blocks_owned st) as Ho1.
  { cbn. apply list_to_set_elements_L. }
  rewrite Lo, Lt, Lb, Ln, Lh. split; [done|].
  split; [done|]. split; [done|]. split; [done|]. split; [done|].
  intros c Hc. rewrite get_block_stored.
  rewrite (proj2 (has_block_true st2 c)) by (by rewrite Lo, Ho1).
  unfold stored. rewrite Lc, Lf. cbn [block_files blocks_data st1].
  destruct (block_files st !! c) as [d|]; [|by rewrite lookup_empty].
  rewrite bool_decide_eq_true_2; [done|].
  apply elem_of_elements. by rewrite Ho1.
Qed.

(** X18.  What a peer stores survives a restart.  After [add_block] has
stored a new block, a block manager started afresh over the files left
behind owns the same blocks, has the same totals, file name and hash,
hands back the bytes of the new block, and finds every owned block
whose file exists. *)
Theorem restart_recovers_blocks (st : t) (b : Z) (data : bytes) :
  0 ≤ b < total_blocks st → b ∉ blocks_owned st →
  let st1 := (add_block sha256_hex true st b data).2 in
  let st2 := reopen st1 in
  blocks_owned st2 = {[ b ]} ∪ blocks_owned st
  ∧ total_blocks st2 = total_blocks st
  ∧ block_size st2 = block_size st ∧ file_name st2 = file_name st
  ∧ file_hash st2 = file_hash st
  ∧ (get_block st2 b).1 = Some data
  ∧ ∀ c, c ∈ blocks_owned st1 → (get_block st2 c).1 = block_files st1 !! c.
Proof.
  intros Hrange Hnew. cbv zeta.
  destruct (add_block_new sha256_hex st b data Hrange Hnew)
    as (_ & Ho & Ht & Hf & _ & _).
  set (st4 := _save_state
                (set_blocks_owned (union {[ b ]})
                   (set_blocks_data (insert b data)
                      (set_block_files (insert b data) st)))).
  assert (attrs (add_block sha256_hex true st b data).2 = attrs st4) as Ha.
  { unfold add_block.
    replace ((b <? 0) || (total_blocks st <=? b)) with false
      by (symmetry; apply orb_false_iff; lia).
    replace (has_block st b) with false
      by (symmetry; apply not_true_iff_false; by rewrite has_block_true).
    cbn [negb snd]. fold st4.
    destruct (owned_count st4 =? total_blocks st4); [|done].
    apply reconstruct_file_attrs. }
  assert (saved (add_block sha256_hex true st b data).2) as Hsaved.
  { eapply attrs_saved; [exact Ha|]. done. }
  destruct (reopen_saved _ Hsaved) as (Ro & Rt & Rb & Rn & Rh & Rg).
  injection Ha as _ _ _ Hb Hn Hh _.
  rewrite Ro, Rt, Rb, Rn, Rh, Ho, Ht, Hb, Hn, Hh.
  split; [done|]. split; [done|].
  split; [done|]. split; [done|]. split; [done|]. split.
  - rewrite Rg by (rewrite Ho; apply elem_of_union_l; by apply elem_of_singleton).
    rewrite Hf. apply lookup_insert_eq.
  - intros c Hc. apply Rg. by rewrite Ho.
Qed.

Lemma join_blocks_empty ids (st : t) written b :
  b ∈ ids → stored st b = Some [] →
  (join_blocks ids st written).1.1 = false.
Proof.
  revert st written. induction ids as [|c ids IH]; intros st w Hin Hb.
  - by apply not_elem_of_nil in Hin.
  - cbn [join_blocks]. pose proof (get_block_stored st c) as Hg.
    pose proof (get_block_frame st c) as (_ & _ & _ & _ & _ & Fs).
    destruct (get_block st c) as [[d|] st1]; cbn [fst snd] in *; [|done].
    destruct (bytes_truthy d) eqn:Hd; [|done].
    apply elem_of_cons in Hin as [->|Hin].
    + destruct (has_block st c); [|done]. rewrite Hb in Hg.
      injection Hg as ->. done.
    + apply IH; [done|]. by rewrite Fs.
Qed.

Lemma join_blocks_over_empty k flushed ids (st : t) written b :
  b ∈ ids → blocks_data st !! b = Some [] →
  (join_blocks_over k flushed ids st written).1.1 = false.
Proof.
  revert st written. induction ids as [|c ids IH]; intros st w Hin Hb.
  - by apply not_elem_of_nil in Hin.
  - cbn [join_blocks_over]. set (st0 := set_block_files _ st).
    assert (blocks_data st0 !! b = Some []) as Hb0 by done.
    pose proof (get_block_stored st0 c) as Hg.
    pose proof (get_block_cached st0 c b [] Hb0) as Hc.
    destruct (get_block st0 c) as [[d|] st1]; cbn [fst snd] in *; [|done].
    destruct (bytes_truthy d) eqn:Hd; [|done].
    apply elem_of_cons in Hin as [->|Hin].
    + destruct (has_block st0 c); [|done]. unfold stored in Hg.
      rewrite Hb0 in Hg. injection Hg as ->. done.
    + by apply IH.
Qed.

(** X19.  An empty piece poisons the store.  [add_block] accepts empty
data for a block it does not own yet; from then on it keeps that copy,
whatever is offered for the block, and [reconstruct_file] fails, wherever
it is asked to write. *)
Theorem empty_block_poisons_store (st : t) (b : Z) :
  0 ≤ b < total_blocks st → b ∉ blocks_owned st →
  let r := add_block sha256_hex true st b [] in
  r.1 = true
  ∧ (∀ write_ok data,
       add_block sha256_hex write_ok r.2 b data = (true, r.2))
  ∧ (∀ output, (reconstruct_file sha256_hex r.2 output).1 = false).
Proof.
  intros Hrange Hnew. cbv zeta.
  destruct (add_block_new sha256_hex st b [] Hrange Hnew)
    as (Hr & Ho & Ht & _ & Hs & _).
  pose proof (add_block_new_cached sha256_hex st b [] Hrange Hnew) as Hd.
  split; [done|]. split.
  - intros write_ok data.
    apply (add_block_early sha256_hex); [by rewrite Ht|].
    rewrite Ho. apply elem_of_union_l. by apply elem_of_singleton.
  - intros output. unfold reconstruct_file.
    destruct (negb (owned_count _ =? _)); [done|].
    destruct (negb (str_truthy _)); [done|].
    set (r := (add_block sha256_hex true st b []).2) in *.
    assert (b ∈ seqZ 0 (total_blocks r)) as Hin
      by (rewrite Ht; apply elem_of_seqZ; lia).
    pose proof (join_blocks_empty (seqZ 0 (total_blocks r)) r [] b Hin Hs)
      as Hj.
    destruct output as [|path|k flushed|parse|]; [| | | |done].
    + destruct (join_blocks _ _ []) as [[ok st1] written].
      cbn [fst snd] in Hj. by rewrite Hj.
    + destruct (join_blocks _ _ []) as [[ok st1] written].
      cbn [fst snd] in Hj. by rewrite Hj.
    + pose proof (join_blocks_over_empty k flushed
                    (seqZ 0 (total_blocks r)) r [] b Hin Hd) as Hk.
      destruct (join_blocks_over _ _ _ _ []) as [[ok st1] written].
      cbn [fst snd] in Hk. by rewrite Hk.
    + destruct (join_blocks _ _ []) as [[ok st1] written].
      cbn [fst snd] in Hj. by rewrite Hj.
Qed.

Lemma add_block_owned (st : t) (b : Z) (data : bytes) :
  0 ≤ b < total_blocks st →
  blocks_owned (add_block sha256_hex true st b data).2
  = {[ b ]} ∪ blocks_owned st
  ∧ total_blocks (add_block sha256_hex true st b data).2 = total_blocks st.
Proof.
  intros Hrange. destruct (decide (b ∈ blocks_owned st)) as [Hin|Hnew].
  - destruct (add_block_early sha256_hex st true b data) as [_ Hearly].
    rewrite (Hearly Hrange Hin). cbn [snd]. split; [|done].
    apply set_eq. intros x. rewrite elem_of_union, elem_of_singleton.
    split; [tauto|]. intros [->|?]; done.
  - by destruct (add_block_new sha256_hex st b data Hrange Hnew)
      as (_ & Ho & Ht & _).
Qed.

(** X20.  Downloading completes the store.  When every owned block lies
within the file and the pieces received, in any order and with
repetitions, cover what [get_missing_blocks] lists, the store ends up
complete with nothing missing. *)
Theorem adding_missing_blocks_completes (st : t)
    (pieces : list (Z * bytes)) :
  0 < total_blocks st →
  (∀ b, b ∈ blocks_owned st → 0 ≤ b < total_blocks st) →
  (∀ p, p ∈ pieces → 0 ≤ p.1 < total_blocks st) →
  (∀ b, b ∈ get_missing_blocks st → b ∈ pieces.*1) →
  let st' := foldl (λ s p, (add_block sha256_hex true s p.1 p.2).2) st
                   pieces in
  is_complete st' = true ∧ get_missing_blocks st' = [].
Proof.
  intros Hpos Hold Hin Hcover. cbv zeta.
  assert (∀ (l : list (Z * bytes)) (s : t),
            (∀ p, p ∈ l → 0 ≤ p.1 < total_blocks s) →
            blocks_owned
              (foldl (λ s p, (add_block sha256_hex true s p.1 p.2).2) s l)
            = list_to_set l.*1 ∪ blocks_owned s
            ∧ total_blocks
                (foldl (λ s p, (add_block sha256_hex true s p.1 p.2).2) s l)
              = total_blocks s) as Hfold.
  { induction l as [|p l IH]; intros s Hl.
    - cbn. split; [|done]. by rewrite union_empty_l_L.
    - cbn [foldl].
      destruct (add_block_owned s p.1 p.2) as [Ho Ht].
      { apply Hl, list_elem_of_here. }
      destruct (IH (add_block sha256_hex true s p.1 p.2).2) as [Io It].
      { intros q Hq. rewrite Ht. apply Hl. by apply list_elem_of_further. }
      rewrite Io, It, Ho, Ht. split; [|done].
      rewrite fmap_cons, list_to_set_cons.
      apply set_eq. intros x. rewrite !elem_of_union. tauto. }
  destruct (Hfold pieces st Hin) as [Ho Ht].
  set (st' := foldl _ st pieces) in *.
  assert (blocks_owned st' = list_to_set (seqZ 0 (total_blocks st)))
    as Hall.
  { apply set_eq. intros x.
    rewrite Ho, elem_of_union, !elem_of_list_to_set, elem_of_seqZ. split.
    - intros [Hx|Hx]; [|by apply Hold].
      apply list_elem_of_fmap in Hx as (p & -> & Hp). by apply Hin.
    - intros Hx. destruct (decide (x ∈ blocks_owned st)); [by right|left].
      apply Hcover. unfold get_missing_blocks.
      rewrite (proj2 (Z.eqb_neq _ 0)) by lia.
      apply list_elem_of_filter. split; [done|]. apply elem_of_seqZ. lia. }
  assert (owned_count st' = total_blocks st) as Hcount.
  { unfold owned_count. rewrite Hall.
    rewrite size_list_to_set by apply NoDup_seqZ. rewrite length_seqZ. lia. }
  split.
  - unfold is_complete. rewrite Hcount, Ht, Z.eqb_refl.
    by rewrite (proj2 (Z.ltb_lt 0 _)).
  - unfold get_missing_blocks. rewrite Ht.
    rewrite (proj2 (Z.eqb_neq _ 0)) by lia.
    destruct (filter _ _) as [|x l] eqn:Hf; [done|].
    assert (x ∈ filter (λ b, b ∉ blocks_owned st')
                       (seqZ 0 (total_blocks st)))
      as Hx by (rewrite Hf; apply list_elem_of_here).
    apply list_elem_of_filter in Hx as [Hx1 Hx2]. destruct Hx1.
    rewrite Hall. by apply elem_of_list_to_set.
Qed.

End BlockStoreFiles.

Section BlockStoreFilesExamples.
Import BlockManager BlockStoreOps Samples.

Lemma split_then_reconstruct_witness :
  (reconstruct_file digest
     (split_file_into_blocks digest (init "W") (Some ("f.bin", five_bytes))
        2).2 default_output).1 = true.
Proof.
  apply (split_then_reconstruct digest (init "W") "f.bin" five_bytes 2).
  - lia.
  - discriminate.
  - discriminate.
  - intros b Hb. by apply not_elem_of_empty in Hb.
Defined.

Lemma restart_recovers_blocks_witness :
  (get_block (reopen (add_block digest true leecher 0 genuine).2) 0).1
  = Some genuine.
Proof.
  destruct (restart_recovers_blocks digest leecher 0 genuine)
    as (_ & _ & _ & _ & _ & Hget & _); [| |exact Hget].
  - vm_compute. split; [discriminate|reflexivity].
  - intros H. apply has_block_true in H. vm_compute in H. discriminate.
Defined.

Lemma empty_block_poisons_store_witness :
  (reconstruct_file digest (add_block digest true leecher 0 []).2
     default_output).1
  = false.
Proof.
  destruct (empty_block_poisons_store digest leecher 0)
    as (_ & _ & Hrec); [| |apply Hrec].
  - vm_compute. split; [discriminate|reflexivity].
  - intros H. apply has_block_true in H. vm_compute in H. discriminate.
Defined.

Lemma adding_missing_blocks_completes_witness :
  is_complete
    (foldl (λ s p, (add_block digest true s p.1 p.2).2) leecher
           [(1, tampered); (0, genuine)]) = true.
Proof.
  apply (adding_missing_blocks_completes digest leecher
           [(1, tampered); (0, genuine)]).
  - vm_compute. reflexivity.
  - intros b H. apply has_block_true in H. vm_compute in H. discriminate.
  - intros p Hp. apply elem_of_cons in Hp as [->|Hp].
    { vm_compute. split; [discriminate|reflexivity]. }
    apply list_elem_of_singleton in Hp as ->.
    vm_compute. split; [discriminate|reflexivity].
  - intros b Hb.
    assert (get_missing_blocks leecher = [0; 1]) as Hm
      by (vm_compute; reflexivity).
    rewrite Hm in Hb. apply elem_of_cons in Hb as [->|Hb].
    { apply list_elem_of_further, list_elem_of_here. }
    apply list_elem_of_singleton in Hb as ->. apply list_elem_of_here.
Defined.

End BlockStoreFilesExamples.

(** ** File descriptions *)
Section FileDescriptions.
Import FileInfoObject.
Variable sha256_hex : bytes → string.

(** X21.  For a positive block size the two ways of counting agree:
[calculate_total_blocks], which divides the size of the file, gives the
number of blocks that [split_file_to_blocks] returns; every block but
the last holds exactly [block_size] bytes, and the last holds between 1
and [block_size]. *)
Theorem total_blocks_matches_split (fs : files) (file_path : string)
    (block_size : Z) (content : bytes) :
  fs !! file_path = Some content → 0 < block_size →
  ∃ blocks,
    FileUtils.split_file_to_blocks fs file_path block_size = Some blocks
    ∧ calculate_total_blocks fs file_path block_size
      = Some (Z.of_nat (length blocks))
    ∧ concat blocks = content
    ∧ ∀ (i : nat) d, blocks !! i = Some d →
        0 < Z.of_nat (length d) ≤ block_size
        ∧ ((S i < length blocks)%nat → Z.of_nat (length d) = block_size).
Proof.
  intros Hf Hbs. exists (read_chunks block_size content).
  unfold FileUtils.split_file_to_blocks, calculate_total_blocks,
    get_file_size. rewrite Hf. cbn [mbind option_bind].
  rewrite (proj2 (Z.eqb_neq block_size 0)) by lia.
  rewrite read_chunks_length by done.
  split; [done|]. split; [done|].
  split; [apply read_chunks_concat; lia|].
  intros i d Hi.
  pose proof (lookup_lt_Some _ _ _ Hi) as Hlt.
  pose proof (read_chunks_length block_size content Hbs) as Hlen.
  destruct (read_chunks_lookup block_size content i d Hbs Hi) as [-> Hne].
  assert (length (take (Z.to_nat block_size)
                    (drop (i * Z.to_nat block_size) content)) ≠ 0%nat)
    as Hpos by (by destruct (take _ _)).
  rewrite length_take, length_drop in *. split; [lia|].
  intros Hnext.
  assert (Z.of_nat (S i) * block_size < Z.of_nat (length content)); [|lia].
  pose proof (Z.div_mod (Z.of_nat (length content) + block_size - 1)
                block_size) as Hdm.
  pose proof (Z.mod_pos_bound (Z.of_nat (length content) + block_size - 1)
                block_size) as Hmb.
  nia.
Qed.

(** X22.  A [FileInfo] built for an existing file with a positive block
size describes it: the size and the hash are those of the content, the
blocks put end to end are the content, and [total_blocks] counts them.
Every block it hands out passes its own [validate_block]; outside
[range(total_blocks)] it hands out nothing and validates nothing. *)
Theorem file_info_describes_file (fs : files) (file_path : string)
    (bs : Z) (content : bytes) :
  fs !! file_path = Some content → 0 < bs →
  ∃ fi,
    init sha256_hex fs file_path bs = Some fi
    ∧ file_size fi = Z.of_nat (length content)
    ∧ file_hash fi = sha256_hex content
    ∧ total_blocks fi = Z.of_nat (length (blocks fi))
    ∧ concat (blocks fi) = content
    ∧ (∀ i, 0 ≤ i < total_blocks fi →
         ∃ d, get_block_data fi i = Some d
              ∧ validate_block sha256_hex fi i d = true)
    ∧ (∀ i, i < 0 ∨ total_blocks fi ≤ i →
         get_block_data fi i = None
         ∧ ∀ d, validate_block sha256_hex fi i d = false).
Proof.
  intros Hf Hbs. unfold init, calculate_file_hash, calculate_total_blocks,
    get_file_size, FileUtils.split_file_to_blocks.
  rewrite Hf. cbn [mbind option_bind].
  rewrite (proj2 (Z.eqb_neq bs 0)) by lia. cbn [mbind option_bind].
  eexists. split; [done|].
  cbn [file_size file_hash total_blocks blocks].
  rewrite <- read_chunks_length by done.
  rewrite !read_chunks_concat by lia.
  split; [done|]. split; [done|]. split; [done|]. split; [done|].
  unfold get_block_data, validate_block, FileInfo.validate_block.
  cbn [blocks block_hashes]. rewrite length_fmap.
  set (chunks := read_chunks bs content). split.
  - intros i Hi.
    rewrite (proj2 (Z.leb_le 0 i)), (proj2 (Z.ltb_lt i _)) by lia.
    cbn [andb].
    destruct (lookup_lt_is_Some_2 chunks (Z.to_nat i)) as [d Hd]; [lia|].
    exists d. split; [done|].
    rewrite list_lookup_fmap, Hd. cbn. apply String.eqb_refl.
  - intros i Hi.
    assert ((0 <=? i) && (i <? Z.of_nat (length chunks)) = false) as ->.
    { apply andb_false_iff. rewrite Z.leb_gt, Z.ltb_ge. lia. }
    done.
Qed.

End FileDescriptions.

Section FileDescriptionsExamples.
Import FileInfoObject Samples.

Lemma total_blocks_matches_split_witness :
  ∃ blocks,
    FileUtils.split_file_to_blocks disk "data/f.bin" 2 = Some blocks
    ∧ calculate_total_blocks disk "data/f.bin" 2
      = Some (Z.of_nat (length blocks))
    ∧ concat blocks = five_bytes
    ∧ ∀ (i : nat) d, blocks !! i = Some d →
        0 < Z.of_nat (length d) ≤ 2
        ∧ ((S i < length blocks)%nat → Z.of_nat (length d) = 2).
Proof.
  apply (total_blocks_matches_split disk "data/f.bin" 2 five_bytes).
  - reflexivity.
  - lia.
Defined.

Lemma file_info_describes_file_witness :
  ∃ fi,
    init digest disk "data/f.bin" 2 = Some fi
    ∧ file_size fi = Z.of_nat (length five_bytes)
    ∧ file_hash fi = digest five_bytes
    ∧ total_blocks fi = Z.of_nat (length (blocks fi))
    ∧ concat (blocks fi) = five_bytes
    ∧ (∀ i, 0 ≤ i < total_blocks fi →
         ∃ d, get_block_data fi i = Some d
              ∧ validate_block digest fi i d = true)
    ∧ (∀ i, i < 0 ∨ total_blocks fi ≤ i →
         get_block_data fi i = None
         ∧ ∀ d, validate_block digest fi i d = false).
Proof.
  apply (file_info_describes_file digest disk "data/f.bin" 2 five_bytes).
  - reflexivity.
  - lia.
Defined.

End FileDescriptionsExamples.

(** ** Ordered dictionaries and counters *)
Section Assoc.
Context {K V : Type} `{EqDecision K}.
Implicit Types (d : list (K * V)) (k : K).

Lemma assoc_get_update (f : option V → V) k k' d :
  assoc_get k' (assoc_update f k d)
  = if decide (k' = k) then Some (f (assoc_get k d)) else assoc_get k' d.
Proof.
  induction d as [|[k0 v] d IH]; cbn [assoc_update assoc_get].
  - destruct (decide (k = k')), (decide (k' = k)); congruence.
  - destruct (decide (k0 = k)) as [->|H0]; cbn [assoc_get].
    + destruct (decide (k = k')), (decide (k' = k)); congruence.
    + rewrite IH. destruct (decide (k0 = k')) as [->|H1]; [|done].
      by rewrite decide_False.
Qed.

Lemma assoc_get_Some k d :
  is_Some (assoc_get k d) ↔ k ∈ d.*1.
Proof.
  induction d as [|[k0 v] d IH]; cbn [assoc_get fmap list_fmap].
  - split; [by intros [? ?]|]. intros Hin. by apply not_elem_of_nil in Hin.
  - rewrite elem_of_cons. cbn. destruct (decide (k0 = k)) as [->|H0].
    + split; [by left|by eexists].
    + rewrite IH. split; [by right|]. intros [?|?]; [congruence|done].
Qed.

Lemma assoc_update_keys (f : option V → V) k k' d :
  k' ∈ (assoc_update f k d).*1 ↔ k' = k ∨ k' ∈ d.*1.
Proof.
  rewrite <- !assoc_get_Some, assoc_get_update.
  destruct (decide (k' = k)) as [->|Hne].
  - split; [by left|by eexists].
  - split; [by right|]. intros [?|?]; [congruence|done].
Qed.

Lemma assoc_update_NoDup (f : option V → V) k d :
  NoDup d.*1 → NoDup (assoc_update f k d).*1.
Proof.
  induction d as [|[k0 v] d IH]; cbn [assoc_update fmap list_fmap].
  - intros _. cbn. apply NoDup_singleton.
  - cbn. intros [Hk0 Hd]%NoDup_cons. destruct (decide (k0 = k)) as [->|H0].
    + cbn. by apply NoDup_cons.
    + cbn. apply NoDup_cons. split; [|by apply IH].
      rewrite assoc_update_keys. intros [?|?]; [congruence|done].
Qed.

End Assoc.

Section Counters.
Context {K : Type} `{EqDecision K}.

Lemma occurrences_cons (x y : K) l :
  occurrences x (y :: l)
  = (if decide (y = x) then 1 else 0) + occurrences x l.
Proof.
  unfold occurrences. rewrite filter_cons.
  destruct (decide (y = x)); cbn [length]; lia.
Qed.

Lemma occurrences_pos (x : K) l : 0 < occurrences x l ↔ x ∈ l.
Proof.
  induction l as [|y l IH].
  - unfold occurrences. rewrite filter_nil. cbn [length].
    split; [lia|]. intros Hin. by apply not_elem_of_nil in Hin.
  - rewrite occurrences_cons, elem_of_cons.
    assert (0 ≤ occurrences x l) by (unfold occurrences; lia).
    destruct (decide (y = x)) as [->|Hne].
    + split; [by left|lia].
    + rewrite Z.add_0_l, IH. split; [by right|].
      intros [?|?]; [congruence|done].
Qed.

Lemma counter_fold_get (l : list K) (c : list (K * Z)) x :
  assoc_get x (foldl (λ c y, assoc_update (λ o, default 0 o + 1) y c) c l)
  = if decide (x ∈ l)
    then Some (default 0 (assoc_get x c) + occurrences x l)
    else assoc_get x c.
Proof.
  revert c. induction l as [|y l IH]; intros c.
  - cbn [foldl]. rewrite decide_False by apply not_elem_of_nil. done.
  - cbn [foldl]. rewrite IH, assoc_get_update, occurrences_cons.
    destruct (decide (x = y)) as [->|Hne].
    + rewrite (decide_True (P := y ∈ y :: l)) by apply list_elem_of_here.
      rewrite (decide_True (P := y = y)) by done.
      destruct (decide (y ∈ l)) as [Hin|Hin]; cbn [default from_option id].
      * f_equal. lia.
      * f_equal. apply (not_iff_compat (occurrences_pos y l)) in Hin.
        assert (0 ≤ occurrences y l) by (unfold occurrences; lia). lia.
    + rewrite (decide_False (P := y = x)) by congruence.
      destruct (decide (x ∈ l)) as [Hin|Hin].
      * rewrite decide_True by (by apply list_elem_of_further).
        by rewrite Z.add_0_l.
      * rewrite decide_False; [done|].
        rewrite elem_of_cons. intros [?|?]; done.
Qed.

Lemma py_counter_get (l : list K) x :
  assoc_get x (py_counter l)
  = if decide (x ∈ l) then Some (occurrences x l) else None.
Proof.
  unfold py_counter. rewrite counter_fold_get. cbn [assoc_get].
  destruct (decide (x ∈ l)); [|done]. f_equal.
Qed.

Lemma py_counter_keys (l : list K) x : x ∈ (py_counter l).*1 ↔ x ∈ l.
Proof.
  rewrite <- assoc_get_Some, py_counter_get.
  destruct (decide (x ∈ l)); [split; [done|by eexists]|].
  split; [by intros [? ?]|done].
Qed.

End Counters.

Lemma py_min_by_spec {A} (key : A → Z) (x : A) (l : list A) :
  py_min_by key x l ∈ x :: l
  ∧ ∀ y, y ∈ x :: l → key (py_min_by key x l) ≤ key y.
Proof.
  unfold py_min_by. revert x. induction l as [|z l IH]; intros x.
  - cbn. split; [apply list_elem_of_here|].
    intros y Hy. apply list_elem_of_singleton in Hy as ->. lia.
  - cbn [foldl]. destruct (key z <? key x) eqn:Hlt.
    + apply Z.ltb_lt in Hlt. destruct (IH z) as [Hin Hmin]. split.
      * by apply list_elem_of_further.
      * intros y [->|Hy]%elem_of_cons.
        -- specialize (Hmin z (list_elem_of_here _ _)). lia.
        -- by apply Hmin.
    + apply Z.ltb_ge in Hlt. destruct (IH x) as [Hin Hmin]. split.
      * apply elem_of_cons in Hin as [->|Hin]; [apply list_elem_of_here|].
        by do 2 apply list_elem_of_further.
      * intros y [->|[->|Hy]%elem_of_cons]%elem_of_cons.
        -- apply Hmin, list_elem_of_here.
        -- specialize (Hmin x (list_elem_of_here _ _)). lia.
        -- apply Hmin. by apply list_elem_of_further.
Qed.

Lemma elem_of_concat {A} (x : A) (ls : list (list A)) :
  x ∈ concat ls ↔ ∃ l, x ∈ l ∧ l ∈ ls.
Proof.
  induction ls as [|l0 ls IH]; cbn [concat].
  - split; [intros H; by apply not_elem_of_nil in H|].
    intros (l & _ & H). by apply not_elem_of_nil in H.
  - rewrite elem_of_app, IH. split.
    + intros [H|(l & H1 & H2)].
      * exists l0. split; [done|apply list_elem_of_here].
      * exists l. split; [done|by apply list_elem_of_further].
    + intros (l & H1 & [->|H2]%elem_of_cons); [by left|right].
      by exists l.
Qed.

(** ** funcionalidade_peers: what to fetch and whom to unchoke *)
Section PeerFunctions.
Import PeerAlgorithms.

(** X23.  [calcular_blocos_raros] answers [None] exactly when every block
some known peer lists is already held.  Otherwise it names a block that
some known peer lists and that is not held, and no such block is listed
fewer times over all peers. *)
Theorem calcular_blocos_raros_spec (st : t) :
  let listed b := ∃ e, e ∈ peers_known st ∧ b ∈ e_blocks e in
  match calcular_blocos_raros st with
  | None => ∀ b, listed b → b ∈ blocks st
  | Some b =>
      listed b ∧ (b ∉ blocks st)
      ∧ ∀ b', listed b' → b' ∉ blocks st →
          occurrences b (todos_blocos st) ≤ occurrences b' (todos_blocos st)
  end.
Proof.
  cbv zeta. unfold calcular_blocos_raros.
  set (todos := todos_blocos st).
  assert (∀ b, b ∈ todos ↔ ∃ e, e ∈ peers_known st ∧ b ∈ e_blocks e)
    as Hlisted.
  { intros b. unfold todos, todos_blocos. rewrite elem_of_concat.
    split.
    - intros (l & Hb & Hl). apply list_elem_of_fmap in Hl as (e & -> & He).
      by exists e.
    - intros (e & He & Hb). exists (e_blocks e). split; [done|].
      apply list_elem_of_fmap. by exists e. }
  set (needed := filter (λ b, b ∉ blocks st) (py_counter todos).*1).
  assert (∀ b, b ∈ needed ↔ b ∈ todos ∧ b ∉ blocks st) as Hneeded.
  { intros b. unfold needed. rewrite list_elem_of_filter, py_counter_keys.
    tauto. }
  destruct needed as [|b0 rest] eqn:Hn.
  - intros b Hb. apply Hlisted in Hb.
    destruct (decide (b ∈ blocks st)) as [|Hnot]; [done|].
    assert (b ∈ []) as Habs by (by apply Hneeded).
    by apply not_elem_of_nil in Habs.
  - set (key := λ b, default 0 (assoc_get b (py_counter todos))).
    destruct (py_min_by_spec key b0 rest) as [Hin Hmin].
    assert (∀ b, b ∈ todos → key b = occurrences b todos) as Hkey.
    { intros b Hb. unfold key. rewrite py_counter_get.
      by rewrite decide_True. }
    apply Hneeded in Hin as [Hin Hnot]. split; [by apply Hlisted|].
    split; [done|]. intros b' Hb' Hnot'. apply Hlisted in Hb'.
    rewrite <- !Hkey by done. apply Hmin. apply Hneeded. done.
Qed.

Lemma peer_scores_keys (st : t) p :
  p ∈ (peer_scores st).*1 ↔ ∃ e, e ∈ peers_known st ∧ e_peer_id e = p.
Proof.
  unfold peer_scores. generalize (peers_known st). intros l.
  assert (∀ acc : list (string * Z),
            p ∈ (foldl (λ scores peer,
                          assoc_update
                            (λ _, Z.of_nat (length (filter (λ b, b ∉ blocks st)
                                                      (e_blocks peer))))
                            (e_peer_id peer) scores) acc l).*1
            ↔ p ∈ acc.*1 ∨ ∃ e, e ∈ l ∧ e_peer_id e = p) as H.
  { induction l as [|e l IH]; intros acc; cbn [foldl].
    - split; [by left|]. intros [?|(e & He & _)]; [done|].
      by apply not_elem_of_nil in He.
    - rewrite IH, assoc_update_keys. split.
      + intros [[->|?]|(e' & He' & Hp)].
        * right. exists e. split; [apply list_elem_of_here|done].
        * by left.
        * right. exists e'. split; [by apply list_elem_of_further|done].
      + intros [?|(e' & [->|He']%elem_of_cons & Hp)].
        * left. by right.
        * left. by left.
        * right. by exists e'. }
  rewrite H. split; [|by right]. intros [Hin|?]; [|done].
  by apply not_elem_of_nil in Hin.
Qed.

(** X24.  A round of [tit_for_tat] unchokes at most four known peers and
picks the optimistic peer among the known peers it left choked, so the
two never overlap; there is no optimistic peer exactly when every known
peer is unchoked.  The peers are ranked by the number of blocks they
list that are not held: no peer left out scores higher than an unchoked
one. *)
Theorem tit_for_tat_round_spec (st : t) (pick : nat) :
  let st' := tit_for_tat_round st pick in
  let known p := ∃ e, e ∈ peers_known st ∧ e_peer_id e = p in
  (size (unchoked_peers st') ≤ 4)%nat
  ∧ (∀ p, p ∈ unchoked_peers st' → known p)
  ∧ (∀ p, optimistic_peer st' = Some p →
          known p ∧ p ∉ unchoked_peers st')
  ∧ (optimistic_peer st' = None ↔ ∀ p, known p → p ∈ unchoked_peers st')
  ∧ (∀ p q sp sq,
       p ∈ unchoked_peers st' → q ∉ unchoked_peers st' →
       assoc_get p (peer_scores st) = Some sp →
       assoc_get q (peer_scores st) = Some sq →
       sq ≤ sp).
Proof.
  cbv zeta.
  set (scores := peer_scores st).
  set (get := λ p, default 0 (assoc_get p scores)).
  set (cmp := λ a b : string, get b <=? get a).
  set (ranked := py_sorted cmp scores.*1).
  set (top := take MAX_FIXED_UNCHOKES ranked).
  set (rest := elements (list_to_set scores.*1 ∖ list_to_set top
                         : gset string)).
  assert (unchoked_peers (tit_for_tat_round st pick) = list_to_set top)
    as Hu by reflexivity.
  assert (optimistic_peer (tit_for_tat_round st pick)
          = rest !! (pick `mod` length rest)%nat) as Ho by reflexivity.
  rewrite Hu, Ho. clear Hu Ho.
  assert (∀ p, p ∈ ranked ↔ ∃ e, e ∈ peers_known st ∧ e_peer_id e = p)
    as Hranked.
  { intros p. unfold ranked. rewrite py_sorted_elem_of.
    apply peer_scores_keys. }
  assert (∀ p, p ∈ rest ↔ p ∈ ranked ∧ p ∉ top) as Hrest.
  { intros p. unfold rest.
    rewrite elem_of_elements, elem_of_difference, !elem_of_list_to_set.
    unfold ranked. by rewrite py_sorted_elem_of. }
  split; [|split; [|split; [|split]]].
  - etrans; [apply size_list_to_set_le|]. unfold top.
    rewrite length_take. unfold MAX_FIXED_UNCHOKES. lia.
  - intros p Hp. apply elem_of_list_to_set in Hp.
    apply Hranked. by eapply subseteq_take.
  - intros p Hp. apply list_elem_of_lookup_2, Hrest in Hp as [Hr Ht].
    split; [by apply Hranked|]. by rewrite elem_of_list_to_set.
  - split.
    + intros Hnone p Hp. apply elem_of_list_to_set.
      destruct (decide (p ∈ top)) as [|Hnot]; [done|].
      assert (p ∈ rest) as Hin by (apply Hrest; split; [by apply Hranked|done]).
      assert (length rest ≠ 0)%nat as Hlen.
      { intros H0. apply nil_length_inv in H0. rewrite H0 in Hin.
        by apply not_elem_of_nil in Hin. }
      apply lookup_ge_None in Hnone.
      pose proof (Nat.mod_upper_bound pick (length rest) Hlen). lia.
    + intros Hall. destruct (rest !! _) as [p|] eqn:Hp; [|done].
      apply list_elem_of_lookup_2, Hrest in Hp as [Hr Ht].
      destruct Ht. specialize (Hall p (proj1 (Hranked p) Hr)).
      by apply elem_of_list_to_set in Hall.
  - intros p q sp sq Hp Hq Hsp Hsq.
    apply elem_of_list_to_set in Hp. rewrite elem_of_list_to_set in Hq.
    assert (q ∈ drop MAX_FIXED_UNCHOKES ranked) as Hdrop.
    { assert (q ∈ ranked) as Hin.
      { unfold ranked. rewrite py_sorted_elem_of.
        apply assoc_get_Some. by eexists. }
      rewrite <- (take_drop MAX_FIXED_UNCHOKES ranked) in Hin.
      apply elem_of_app in Hin as [Hin|Hin]; done. }
    assert (cmp p q = true) as Hle.
    { eapply (py_sorted_take_drop cmp); [| |exact Hp|exact Hdrop].
      - intros x y. unfold cmp. rewrite !Z.leb_le. lia.
      - intros x y z. unfold cmp. rewrite !Z.leb_le. lia. }
    unfold cmp, get in Hle. rewrite Hsp, Hsq in Hle.
    by apply Z.leb_le in Hle.
Qed.

End PeerFunctions.

(** ** algoritmos: choosing blocks, optimistic turns, downloads *)
Section AlgoDownloads.
Import AlgoPeer AlgoSwarm.

Lemma py_counter_NoDup {K} `{EqDecision K} (l : list K) :
  NoDup (py_counter l).*1.
Proof.
  unfold py_counter.
  assert (∀ c : list (K * Z), NoDup c.*1 →
            NoDup (foldl (λ c x, assoc_update (λ o, default 0 o + 1) x c)
                         c l).*1) as H0.
  { induction l as [|x l IH]; intros c Hc; [done|].
    cbn [foldl]. apply IH. by apply assoc_update_NoDup. }
  apply H0. constructor.
Qed.

Lemma select_advertised_blocks_spec (known : list (string * PeerInfo)) b :
  b ∈ advertised_blocks known
  ↔ ∃ p info, (p, info) ∈ known ∧ b ∈ info_blocks info.
Proof.
  unfold advertised_blocks. rewrite elem_of_concat. split.
  - intros (l & Hb & Hl).
    apply list_elem_of_fmap in Hl as ([p info] & -> & Hin).
    by exists p, info.
  - intros (p & info & Hp & Hb). exists (info_blocks info). split; [done|].
    apply list_elem_of_fmap. by exists (p, info).
Qed.

Lemma select_available_peers_spec (known : list (string * PeerInfo)) b p :
  p ∈ available_peers known b
  ↔ ∃ info, (p, info) ∈ known ∧ b ∈ info_blocks info.
Proof.
  unfold available_peers. rewrite elem_of_concat. split.
  - intros (l & Hp & Hl).
    apply list_elem_of_fmap in Hl as ([q info] & -> & Hin).
    apply list_elem_of_fmap in Hp as (b' & -> & Hb').
    apply list_elem_of_filter in Hb' as [-> Hb']. by exists info.
  - intros (info & Hp & Hb).
    exists ((λ _, p) <$> filter (λ b', b' = b) (info_blocks info)). split.
    + apply list_elem_of_fmap. exists b. split; [done|].
      by apply list_elem_of_filter.
    + apply list_elem_of_fmap. by exists (p, info).
Qed.

(** X25.  [RarestFirst.select_blocks] answers [(None, None)] exactly when
the peer holds every block its known peers list.  Otherwise it names
distinct blocks, each listed by a known peer and not held, at most
[count] of them and none for [count <= 0]; no listed block that is not
held and was left out is listed fewer times than a chosen one; and the
map gives, for each chosen block, exactly the known peers that list
it. *)
Theorem select_blocks_spec (known : list (string * PeerInfo))
    (held : list block_entry) (count : Z) :
  let listed b := ∃ p info, (p, info) ∈ known ∧ b ∈ info_blocks info in
  match select_blocks known held count with
  | None => ∀ b, listed b → b ∈ held
  | Some (rarest, peer_map) =>
      (∃ b, listed b ∧ b ∉ held)
      ∧ NoDup rarest
      ∧ Z.of_nat (length rarest) ≤ Z.max 0 count
      ∧ (∀ b, b ∈ rarest → listed b ∧ b ∉ held)
      ∧ (∀ b b', b ∈ rarest → listed b' → b' ∉ held → b' ∉ rarest →
           occurrences b (advertised_blocks known)
           ≤ occurrences b' (advertised_blocks known))
      ∧ peer_map.*1 = rarest
      ∧ ∀ b ps p, (b, ps) ∈ peer_map →
          (p ∈ ps ↔ ∃ info, (p, info) ∈ known ∧ b ∈ info_blocks info)
  end.
Proof.
  cbv zeta. unfold select_blocks.
  set (adv := advertised_blocks known).
  set (counts := py_counter adv).
  set (missing := filter (λ b, b ∉ held) counts.*1).
  assert (∀ b, b ∈ missing ↔ b ∈ adv ∧ b ∉ held) as Hmissing.
  { intros b. unfold missing, counts.
    rewrite list_elem_of_filter, py_counter_keys. tauto. }
  assert (NoDup missing) as Hnd.
  { unfold missing. eapply sublist_NoDup; [apply py_counter_NoDup|].
    apply sublist_filter. }
  destruct missing as [|m0 ms] eqn:Hm.
  { intros b Hb. apply select_advertised_blocks_spec in Hb.
    destruct (decide (b ∈ held)) as [|Hnot]; [done|].
    assert (b ∈ []) as Habs by (by apply Hmissing).
    by apply not_elem_of_nil in Habs. }
  split.
  { exists m0. rewrite <- select_advertised_blocks_spec. apply Hmissing.
    apply list_elem_of_here. }
  rewrite <- Hm in *. clear Hm m0 ms.
  set (key := λ x, default 0 (assoc_get x counts)).
  set (cmp := λ a b : block_entry, key a <=? key b).
  assert (∀ b, b ∈ adv → key b = occurrences b adv) as Hkey.
  { intros b Hb. unfold key, counts. rewrite py_counter_get.
    by rewrite decide_True. }
  unfold nsmallest. fold cmp.
  destruct (count <=? 0) eqn:Hc.
  { apply Z.leb_le in Hc. split; [constructor|]. split; [cbn; lia|].
    split; [intros b Hb; by apply not_elem_of_nil in Hb|].
    split; [intros b b' Hb; by apply not_elem_of_nil in Hb|].
    split; [done|]. intros b ps p Hin. by apply not_elem_of_nil in Hin. }
  apply Z.leb_gt in Hc.
  set (k := Z.to_nat count). set (sorted := py_sorted cmp missing).
  assert (take k sorted `sublist_of` sorted) as Hsub by apply sublist_take.
  split; [|split; [|split; [|split; [|split]]]].
  - eapply sublist_NoDup; [|exact Hsub]. unfold sorted.
    by rewrite py_sorted_perm.
  - rewrite length_take. lia.
  - intros b Hb. eapply elem_of_sublist in Hb; [|exact Hsub].
    unfold sorted in Hb. apply py_sorted_elem_of, Hmissing in Hb as [H1 H2].
    split; [by apply select_advertised_blocks_spec|done].
  - intros b b' Hb Hb' Hnot Hout. apply select_advertised_blocks_spec in Hb'.
    assert (b' ∈ drop k sorted) as Hdrop.
    { assert (b' ∈ sorted) as Hin.
      { unfold sorted. apply py_sorted_elem_of, Hmissing. done. }
      rewrite <- (take_drop k sorted) in Hin.
      apply elem_of_app in Hin as [Hin|Hin]; done. }
    assert (cmp b b' = true) as Hle.
    { eapply (py_sorted_take_drop cmp); [| |exact Hb|exact Hdrop].
      - intros x y. unfold cmp. rewrite !Z.leb_le. lia.
      - intros x y z. unfold cmp. rewrite !Z.leb_le. lia. }
    unfold cmp in Hle. apply Z.leb_le in Hle.
    rewrite <- !Hkey; [done|done|].
    eapply elem_of_sublist in Hb; [|exact Hsub].
    unfold sorted in Hb. by apply py_sorted_elem_of, Hmissing in Hb as [H1 _].
  - rewrite <- list_fmap_compose. apply list_fmap_id.
  - intros b ps p Hin.
    apply list_elem_of_fmap in Hin as (b0 & [= -> ->] & _).
    apply select_available_peers_spec.
Qed.

Lemma optimistic_step (c : Clock) now pick :
  let c' := _update_optimistic_unchoke c now pick in
  known_peers (peer c') = known_peers (peer c)
  ∧ (untried_peers c ≠ ∅ →
     ∃ p, p ∈ untried_peers c
          ∧ optimistic_peer (tit_for_tat (peer c')) = Some p
          ∧ unchoke_history c' = <[p := [now]]> (unchoke_history c)
          ∧ untried_peers c' = untried_peers c ∖ {[ p ]}).
Proof.
  cbv zeta. unfold _update_optimistic_unchoke.
  set (cands := optimistic_candidates c).
  destruct (cands !! _) as [p|] eqn:Hp; cbn [peer unchoke_history].
  - split; [done|]. intros Hne.
    unfold cands, optimistic_candidates in Hp.
    destruct (elements (untried_peers c)) as [|e es] eqn:He.
    { apply elements_empty_inv in He. by apply leibniz_equiv in He. }
    rewrite <- He in Hp. apply list_elem_of_lookup_2 in Hp.
    apply elem_of_elements in Hp. exists p. split; [done|].
    cbn [tit_for_tat set_tit_for_tat optimistic_peer known_peers].
    split; [done|].
    apply elem_of_difference in Hp as [Hk Hh].
    apply not_elem_of_dom in Hh. rewrite Hh.
    cbn [from_option Datatypes.id app].
    split; [done|]. unfold untried_peers.
    cbn [peer unchoke_history set_tit_for_tat known_peers].
    rewrite dom_insert_L.
    apply set_eq. intros x.
    rewrite !elem_of_difference, elem_of_union, elem_of_singleton. tauto.
  - split; [done|]. intros Hne. exfalso.
    unfold cands, optimistic_candidates in Hp.
    destruct (elements (untried_peers c)) as [|e es] eqn:He.
    { apply elements_empty_inv in He. by apply leibniz_equiv in He. }
    apply lookup_ge_None in Hp.
    pose proof (Nat.mod_upper_bound pick (length (e :: es))) as Hb.
    cbn [length] in *. lia.
Qed.

(** X26.  Optimistic turns go round.  While some known peer never had an
optimistic turn, [_update_optimistic_unchoke] gives the turn to one of
those and enters it in the history, whatever the draw; so after as many
ticks as there were such peers, every known peer has had a turn. *)
Theorem optimistic_turns_go_round (c : Clock) (ticks : list (Q * nat)) :
  (length ticks ≤ size (untried_peers c))%nat →
  known_peers (peer (optimistic_ticks c ticks)) = known_peers (peer c)
  ∧ untried_peers (optimistic_ticks c ticks) ⊆ untried_peers c
  ∧ size (untried_peers (optimistic_ticks c ticks))
    = (size (untried_peers c) - length ticks)%nat
  ∧ (length ticks = size (untried_peers c) →
     dom (known_peers (peer c))
     ⊆ dom (unchoke_history (optimistic_ticks c ticks))).
Proof.
  revert c. induction ticks as [|[now pick] ticks IH]; intros c Hlen.
  - cbn [optimistic_ticks foldl length]. split; [done|]. split; [done|].
    split; [lia|]. intros Hz. symmetry in Hz. apply size_empty_inv in Hz.
    apply leibniz_equiv in Hz. intros x Hx.
    destruct (decide (x ∈ dom (unchoke_history c))) as [|Hnot]; [done|].
    assert (x ∈ (∅ : gset string)) as Habs.
    { rewrite <- Hz. by apply elem_of_difference. }
    by apply not_elem_of_empty in Habs.
  - cbn [length] in Hlen. unfold optimistic_ticks. cbn [foldl fst snd].
    destruct (optimistic_step c now pick) as [Hk Hstep].
    destruct Hstep as (p & Hp & _ & _ & Hun).
    { intros Hempty. rewrite Hempty, size_empty in Hlen. lia. }
    set (c1 := _update_optimistic_unchoke c now pick) in *.
    assert (size (untried_peers c1) = (size (untried_peers c) - 1)%nat)
      as Hsize.
    { rewrite Hun, size_difference, size_singleton; [done|].
      by apply singleton_subseteq_l. }
    destruct (IH c1) as (I1 & I2 & I3 & I4).
    { rewrite Hsize. lia. }
    fold (optimistic_ticks c1 ticks) in *.
    split; [by rewrite I1|]. split.
    { etrans; [exact I2|]. rewrite Hun. apply subseteq_difference_l.
      reflexivity. }
    split; [rewrite I3, Hsize; cbn [length]; lia|].
    intros Hall. cbn [length] in Hall. rewrite <- Hk. apply I4.
    rewrite Hsize. lia.
Qed.

Lemma optimistic_turns_go_round_witness :
  dom (known_peers AlgoSamples.leecher)
  ⊆ dom (unchoke_history
           (optimistic_ticks AlgoSamples.clock
              [(30%Q, 0%nat); (60%Q, 1%nat)])).
Proof.
  destruct (optimistic_turns_go_round AlgoSamples.clock
              [(30%Q, 0%nat); (60%Q, 1%nat)]) as (_ & _ & _ & H).
  - vm_compute. lia.
  - apply H. vm_compute. reflexivity.
Defined.

(** X27.  A download needs the other side's unchoke.  The first
[download_block] towards a peer transfers nothing, even when the peer
would answer: it only notes the peer as choking.  After that peer's
[unchoke] message was handled, and a second or more after the last
attempt, the same call stores the bytes received, appends the block to
the list of blocks, records the size as the peer's download rate and
notes the time of the request. *)
Theorem download_needs_unchoke (st : t) (now : Q) (block_id : Z)
    (peer_id : string) (data : bytes) :
  block_id_entry block_id ∉ blocks st →
  is_Some (known_peers st !! peer_id) →
  active_downloads st !! peer_id = None →
  data ≠ [] → (1 <= now)%Q →
  let st1 := download_block st now block_id peer_id (Some data) in
  let st2 := (handle_request st1 (unchoke peer_id)).2 in
  let st3 := download_block st2 now block_id peer_id (Some data) in
  (blocks st1 = blocks st ∧ block_files st1 = block_files st
   ∧ active_downloads st1 !! peer_id = Some (mkDownload true 0%Q))
  ∧ (blocks st3 = blocks st ++ [block_id_entry block_id]
     ∧ block_files st3 !! block_id = Some data
     ∧ assoc_get peer_id (download_rates (tit_for_tat st3))
       = Some (Z.of_nat (length data))
     ∧ active_downloads st3 !! peer_id = Some (mkDownload false now)).
Proof.
  intros Hnew [info Hknown] Hfresh Hdata Hnow. cbv zeta.
  assert (download_block st now block_id peer_id (Some data)
          = set_active_downloads
              (<[peer_id := mkDownload true 0%Q]> (active_downloads st)) st)
    as H1.
  { unfold download_block.
    rewrite (bool_decide_eq_false_2 _ Hnew).
    rewrite bool_decide_eq_false_2 by (by rewrite Hknown).
    cbn [orb]. rewrite Hfresh.
    cbn [active_downloads set_active_downloads].
    rewrite lookup_insert_eq. done. }
  rewrite H1. clear H1.
  set (st1 := set_active_downloads _ st).
  split.
  { split; [done|]. split; [done|]. cbn. apply lookup_insert_eq. }
  assert ((handle_request st1 (unchoke peer_id)).2
          = set_active_downloads
              (<[peer_id := mkDownload false 0%Q]> (active_downloads st)) st)
    as H2.
  { cbn [handle_request snd]. unfold set_choked.
    cbn [active_downloads st1 set_active_downloads].
    rewrite lookup_insert_eq. cbn [last_request].
    by rewrite insert_insert_eq. }
  rewrite H2. clear H2.
  set (st2 := set_active_downloads _ st).
  assert (active_downloads st2 !! peer_id = Some (mkDownload false 0%Q))
    as Hentry by apply lookup_insert_eq.
  unfold download_block.
  change (blocks st2) with (blocks st).
  change (known_peers st2) with (known_peers st).
  rewrite (bool_decide_eq_false_2 _ Hnew).
  rewrite bool_decide_eq_false_2 by (by rewrite Hknown).
  cbn [orb]. rewrite Hentry. cbn [orb]. rewrite !Hentry.
  cbn [from_option Datatypes.id dl_choked last_request orb].
  assert (Qltb (now - 0) 1 = false) as ->.
  { unfold Qltb. apply negb_false_iff, Qle_bool_iff.
    unfold Qminus. by rewrite Qplus_0_r. }
  destruct data as [|x data]; [done|]. cbn [bytes_truthy].
  unfold set_active_downloads.
  cbn [blocks block_files tit_for_tat active_downloads].
  split; [done|]. split; [apply lookup_insert_eq|].
  split; [|apply lookup_insert_eq].
  unfold update_download_rate. cbn [download_rates].
  generalize (download_rates (tit_for_tat st2)). intros d.
  induction d as [|[k v] d IH]; cbn [dict_set assoc_get].
  - by rewrite decide_True.
  - destruct (String.eqb k peer_id) eqn:Hk.
    + apply String.eqb_eq in Hk as ->. cbn [assoc_get].
      by rewrite decide_True.
    + apply String.eqb_neq in Hk. cbn [assoc_get].
      by rewrite decide_False.
Qed.

Lemma download_needs_unchoke_witness :
  blocks
    (download_block
       (handle_request
          (download_block AlgoSamples.leecher 5 0 "b" (Some [x01]%byte))
          (unchoke "b")).2
       5 0 "b" (Some [x01]%byte))
  = [block_id_entry 0].
Proof.
  destruct (download_needs_unchoke AlgoSamples.leecher 5 0 "b"
              [x01]%byte) as [_ (H & _)].
  - apply not_elem_of_nil.
  - eexists. reflexivity.
  - reflexivity.
  - discriminate.
  - unfold Qle. cbn. lia.
  - exact H.
Defined.

End AlgoDownloads.

(** ** The tracker of the rarest-first variant *)
Section AlgoTrackerAnswers.
Import AlgoPeer AlgoTracker.
Context {F : Type} (fzero : F) (frecip : nat → F) (fadd : F → F → F)
        (fle : F → F → bool)
        (set_order : list block_entry → list block_entry).

Lemma assoc_get_elem_of {K V} `{EqDecision K} (k : K) (v : V) d :
  assoc_get k d = Some v → (k, v) ∈ d.
Proof.
  induction d as [|[k0 v0] d IH]; cbn [assoc_get]; [done|].
  destruct (decide (k0 = k)) as [->|Hne].
  - intros [= ->]. apply list_elem_of_here.
  - intros Hd. apply list_elem_of_further. by apply IH.
Qed.

Lemma filter_drops_one {A} (P : A → Prop) `{∀ x, Decision (P x)}
    (x : A) (l : list A) :
  x ∈ l → ¬ P x → (length (filter P l) < length l)%nat.
Proof.
  induction l as [|y l IH]; [by intros ?%not_elem_of_nil|].
  intros [->|Hin]%elem_of_cons Hx.
  - rewrite filter_cons_False by done. cbn [length].
    pose proof (length_filter P l). lia.
  - specialize (IH Hin Hx). rewrite filter_cons.
    destruct (decide (P y)); cbn [length]; lia.
Qed.

Lemma common_blocks_spec (active : t) (mine : list block_entry)
    (q : string) (i : PeerInfo) :
  (q, i) ∈ active →
  common_blocks (needed_blocks active mine) i ≠ []
  ↔ ∃ b, b ∈ info_blocks i ∧ b ∉ mine.
Proof.
  intros Hin. split.
  - intros Hne. destruct (common_blocks _ i) as [|b l] eqn:Hc; [done|].
    assert (b ∈ common_blocks (needed_blocks active mine) i) as Hb.
    { rewrite Hc. apply list_elem_of_here. }
    unfold common_blocks, needed_blocks in Hb.
    apply list_elem_of_filter in Hb as [Hneeded Hb].
    apply list_elem_of_filter in Hneeded as [Hmine _].
    rewrite elem_of_remove_dups in Hb. exists b. by split.
  - intros (b & Hb & Hmine) Hnil.
    assert (b ∈ common_blocks (needed_blocks active mine) i) as Hc.
    { unfold common_blocks, needed_blocks.
      apply list_elem_of_filter. split; [|by apply elem_of_remove_dups].
      apply list_elem_of_filter. split; [done|].
      apply elem_of_remove_dups, elem_of_concat.
      exists (info_blocks i). split; [done|].
      apply list_elem_of_fmap. by exists (q, i). }
    rewrite Hnil in Hc. by apply not_elem_of_nil in Hc.
Qed.

(** X28.  [get_peers] of the tracker refuses a peer that is not
registered.  A registered peer is answered with at most 50 peers, never
itself, each of them registered and listing a block the requester does
not list; so a peer that lists every block is answered with no peer at
all.  With at most 51 peers registered, every peer that lists such a
block is in the answer. *)
Theorem algo_get_peers_spec (active : t) (p : string) :
  match get_peers fzero frecip fadd fle set_order active (Some p) with
  | None => p ∉ active.*1
  | Some selected =>
      ∃ mine, assoc_get p active = Some mine
      ∧ (length selected ≤ 50)%nat
      ∧ (∀ q i, (q, i) ∈ selected →
           q ≠ p ∧ (q, i) ∈ active
           ∧ ∃ b, b ∈ info_blocks i ∧ b ∉ info_blocks mine)
      ∧ ((length active ≤ 51)%nat →
         ∀ q i, (q, i) ∈ active → q ≠ p →
           (∃ b, b ∈ info_blocks i ∧ b ∉ info_blocks mine) →
           (q, i) ∈ selected)
  end.
Proof.
  unfold get_peers. destruct (assoc_get p active) as [mine|] eqn:Hp.
  - exists mine. split; [done|].
    set (needed := needed_blocks active (info_blocks mine)).
    set (useful := useful_peers active p needed).
    set (cmp := λ a b : string * PeerInfo, fle _ _).
    split; [rewrite length_take; lia|]. split.
    + intros q i Hsel. apply subseteq_take in Hsel.
      apply py_sorted_elem_of in Hsel.
      apply list_elem_of_filter in Hsel as [[Hq Hc] Hin].
      split; [done|]. split; [done|].
      by apply (common_blocks_spec active (info_blocks mine) q i).
    + intros Hlen q i Hin Hq Hb.
      assert (length useful < length active)%nat as Hlt.
      { apply (filter_drops_one _ (p, mine)).
        - by apply assoc_get_elem_of.
        - cbn. tauto. }
      rewrite take_ge by (rewrite py_sorted_length; lia).
      apply py_sorted_elem_of, list_elem_of_filter.
      split; [|done]. split; [done|].
      by apply (common_blocks_spec active (info_blocks mine) q i).
  - intros Hin. apply assoc_get_Some in Hin. rewrite Hp in Hin.
    by destruct Hin.
Qed.

End AlgoTrackerAnswers.

(** ** communication.py: reading a whole frame *)
Section Framing.
Import PeerSocket.

Lemma recv_spec (s : Socket) (bufsize : Z) :
  0 < bufsize →
  match recv s bufsize with
  | (None, s') => Raise ∈ outcomes s
  | (Some chunk, s') =>
      pending s = chunk ++ pending s'
      ∧ Z.of_nat (length chunk) ≤ bufsize
      ∧ (chunk = [] → pending s = [])
      ∧ (∀ o, o ∈ outcomes s' → o ∈ outcomes s)
  end.
Proof.
  intros Hpos. unfold recv. destruct (outcomes s) as [|[k|] rest] eqn:Ho.
  - cbn [pending outcomes]. rewrite take_drop. split; [done|].
    split; [rewrite length_take; lia|]. split; [|done].
    destruct (pending s) as [|x l]; [done|].
    destruct (Z.to_nat bufsize) eqn:Hn; [lia|]. done.
  - cbn [pending outcomes]. rewrite take_drop. split; [done|].
    split; [rewrite length_take; lia|]. split.
    + destruct (pending s) as [|x l]; [done|].
      destruct (Z.to_nat bufsize) eqn:Hn; [lia|]. done.
    + intros o Hin. by apply list_elem_of_further.
  - apply list_elem_of_here.
Qed.

Lemma recv_loop_spec (fuel : nat) (size : Z) (data : bytes) (s : Socket) :
  size - Z.of_nat (length data) ≤ Z.of_nat fuel →
  match recv_loop fuel size data s with
  | (Some got, s') =>
      ∃ more, got = data ++ more ∧ pending s = more ++ pending s'
              ∧ Z.of_nat (length got) = Z.max (Z.of_nat (length data)) size
  | (None, s') =>
      Z.of_nat (length data) < size
      ∧ (Z.of_nat (length data + length (pending s)) < size
         ∨ Raise ∈ outcomes s)
  end.
Proof.
  revert data s. induction fuel as [|fuel IH]; intros data s Hfuel;
    cbn [recv_loop].
  - rewrite (proj2 (Z.ltb_ge _ _)) by lia. exists [].
    rewrite app_nil_r. split; [done|]. split; [done|]. lia.
  - destruct (Z.of_nat (length data) <? size) eqn:Hlt.
    2:{ apply Z.ltb_ge in Hlt. exists []. rewrite app_nil_r.
        split; [done|]. split; [done|]. lia. }
    apply Z.ltb_lt in Hlt.
    pose proof (recv_spec s (size - Z.of_nat (length data))) as Hr.
    destruct (recv s _) as [[chunk|] s1].
    2:{ split; [done|]. right. apply Hr. lia. }
    destruct Hr as (Hp & Hc & He & Ho); [lia|].
    destruct chunk as [|x chunk]; cbn [bytes_truthy].
    { split; [done|]. left. rewrite (He eq_refl). cbn [length]. lia. }
    specialize (IH (data ++ x :: chunk) s1).
    rewrite length_app in IH. cbn [length] in IH, Hc.
    destruct (recv_loop fuel size _ s1) as [[got|] s2].
    + destruct IH as (more & -> & Hm & Hl); [lia|].
      exists ((x :: chunk) ++ more). rewrite <- !app_assoc.
      split; [done|]. rewrite Hp, Hm. split; [done|].
      rewrite !length_app in *. cbn [length] in *. lia.
    + destruct IH as (_ & [Hshort|Hraise]); [lia| |].
      * split; [done|]. left. rewrite Hp, length_app. cbn [length]. lia.
      * split; [done|]. right. by apply Ho.
Qed.

(** X29.  [_recv_exact] returns either exactly [size] bytes or [None].
The bytes returned are the next ones of the stream, in order, and
nothing after them is taken from the socket; for [size <= 0] it
returns [b''] without reading.  It returns [None] only when a call of
[recv] raised or the other side closed before [size] bytes had come. *)
Theorem recv_exact_spec (s : Socket) (size : Z) :
  match _recv_exact s size with
  | (Some data, s') =>
      Z.of_nat (length data) = Z.max 0 size
      ∧ pending s = data ++ pending s'
      ∧ (size ≤ 0 → s' = s)
  | (None, s') =>
      0 < size
      ∧ (Z.of_nat (length (pending s)) < size ∨ Raise ∈ outcomes s)
  end.
Proof.
  unfold _recv_exact.
  pose proof (recv_loop_spec (Z.to_nat size) size [] s) as H.
  cbn [length] in H.
  destruct (decide (size ≤ 0)) as [Hle|Hgt].
  - destruct (Z.to_nat size) eqn:Hn; [|lia]. cbn [recv_loop length] in *.
    rewrite (proj2 (Z.ltb_ge _ _)) by lia. cbn [length app].
    split; [lia|]. done.
  - destruct (recv_loop _ size [] s) as [[data|] s'].
    + destruct H as (more & -> & Hp & Hl); [lia|]. cbn [app] in *.
      split; [lia|]. split; [done|]. lia.
    + destruct H as (_ & H); [lia|]. split; [lia|]. exact H.
Qed.

End Framing.
